(** * LunarLander texture scripts: frequency-domain pattern removal and tiling

    A shallow embedding of [scripts/remove_texture_pattern.py] and
    [scripts/create_tiled_texture.py].

    - NumPy arrays are nested lists ([grid A] = rows of samples).
    - Python integers ([line_width], [notch_radius], [protect_center], loop
      offsets, indices) are [Z]; array extents are [nat].
    - float64 samples are read as exact numbers.  The code that builds the
      masks is written once over an interface [Num] of the arithmetic it
      uses, and run at two carriers: [Q] (every float64 is a rational, so
      this is the code on its real inputs with exact arithmetic; it
      evaluates) and [R] (the carrier of the transform pipeline, where
      magnitudes of complex numbers live).
    - [np.fft.fft2] and [np.fft.ifft2] are their defining double sums over
      the complex numbers [R * R], with the roots of unity
      [exp(-/+ 2 pi i / n)]; [fftshift] and [ifftshift] are rolls.
    - exceptions are values of [result]. *)

From Stdlib Require Import String.
From Stdlib Require Import ZArith QArith Qround List Bool FinFun.
From Stdlib Require Import Lia Lra Lqa Psatz.
From Stdlib Require Import Reals.
Import ListNotations.

(** ** Errors *)

Inductive error : Type :=
| ZeroDivision        (* a division by zero *)
| PercentileRange     (* np.percentile: "Percentiles must be in the range [0, 100]" *)
| InvalidFFTSize      (* np.fft: "Invalid number of FFT data points (0)" *)
| BroadcastError.     (* "could not broadcast input array from shape ... into shape ..." *)

Inductive result (A : Type) : Type :=
| Ok (a : A)
| Err (e : error).
Arguments Ok {A} a.
Arguments Err {A} e.

Definition bind {A B} (r : result A) (k : A -> result B) : result B :=
  match r with
  | Ok a => k a
  | Err e => Err e
  end.

Declare Scope result_scope.
Delimit Scope result_scope with result.
Notation "x <- r ;; k" := (bind r (fun x => k))
  (at level 61, r at next level, right associativity) : result_scope.
Local Open Scope result_scope.

(** A [for] loop whose body may raise: the state is threaded, the first
    error stops the loop. *)
Fixpoint for_each {A S} (l : list A) (body : A -> S -> result S) (s : S)
  : result S :=
  match l with
  | [] => Ok s
  | a :: l' => bind (body a s) (for_each l' body)
  end.

(** ** Python ranges and arrays *)

(** [range a b] is Python's [range(a, b)]. *)
Definition range (a b : Z) : list Z :=
  map (fun i => (a + Z.of_nat i)%Z) (seq 0 (Z.to_nat (b - a))).

Definition grid (A : Type) : Type := list (list A).

(** [h, w = a.shape] *)
Definition height {A} (g : grid A) : nat := length g.
Definition width {A} (g : grid A) : nat := length (hd [] g).

(** A nested list is an [h] by [w] array when it has [h] rows of [w] samples. *)
Definition is_grid {A} (h w : nat) (g : grid A) : Prop :=
  length g = h /\ Forall (fun r => length r = w) g.

Definition get {A} (d : A) (g : grid A) (y x : nat) : A :=
  nth x (nth y g []) d.

(** [l[i] = f(l[i])], for an index already checked to be in range *)
Fixpoint upd {A} (i : nat) (f : A -> A) (l : list A) : list A :=
  match l, i with
  | [], _ => []
  | a :: l', O => f a :: l'
  | a :: l', S i' => a :: upd i' f l'
  end.

Fixpoint zip_with {A B C} (f : A -> B -> C) (la : list A) (lb : list B)
  : list C :=
  match la, lb with
  | a :: la', b :: lb' => f a b :: zip_with f la' lb'
  | _, _ => []
  end.

(** [a[y, x] = f(a[y, x])] *)
Definition upd2 {A} (y x : nat) (f : A -> A) (g : grid A) : grid A :=
  upd y (upd x f) g.

(** [a[sel] = v] for a boolean array [sel] of the same shape *)
Definition set_where {A} (sel : grid bool) (v : A) (g : grid A) : grid A :=
  zip_with (zip_with (fun (b : bool) a => if b then v else a)) sel g.

(** [np.where(sel)]: the coordinates of the true entries, row-major *)
Definition where_true (sel : grid bool) : list (nat * nat) :=
  flat_map
    (fun y =>
       map (fun x => (y, x))
           (filter (fun x => nth x (nth y sel []) false)
                   (seq 0 (length (nth y sel [])))))
    (seq 0 (length sel)).

(** ** The arithmetic the masks use *)

Class Num (T : Type) : Type := {
  n0 : T;
  n1 : T;
  nadd : T -> T -> T;
  nsub : T -> T -> T;
  nmul : T -> T -> T;
  ndiv : T -> T -> T;
  nltb : T -> T -> bool;
  nleb : T -> T -> bool;
  nofZ : Z -> T;
  nfloor : T -> Z
}.

#[export] Instance Num_Q : Num Q := {
  n0 := 0%Q;
  n1 := 1%Q;
  nadd := Qplus;
  nsub := Qminus;
  nmul := Qmult;
  ndiv := Qdiv;
  nltb := fun a b => negb (Qle_bool b a);
  nleb := Qle_bool;
  nofZ := inject_Z;
  nfloor := Qfloor
}.

Definition Rltb (a b : R) : bool := if Rlt_dec a b then true else false.
Definition Rleb (a b : R) : bool := if Rle_dec a b then true else false.

#[export] Instance Num_R : Num R := {
  n0 := 0%R;
  n1 := 1%R;
  nadd := Rplus;
  nsub := Rminus;
  nmul := Rmult;
  ndiv := Rdiv;
  nltb := Rltb;
  nleb := Rleb;
  nofZ := IZR;
  nfloor := Int_part
}.

Section Masks.

Context {T : Type} `{Num T}.

(** [np.ones((h, w))] *)
Definition ones (h w : nat) : grid T := repeat (repeat n1 w) h.

(** The boolean array
    [(y_coords - center_y) ** 2 + (x_coords - center_x) ** 2 <= protect_center ** 2]
    over [np.ogrid[:h, :w]]. *)
Definition center_disc (h w : nat) (protect_center : Z) : grid bool :=
  let center_y := (Z.of_nat h / 2)%Z in
  let center_x := (Z.of_nat w / 2)%Z in
  map (fun y =>
         map (fun x =>
                ((Z.of_nat y - center_y) ^ 2 + (Z.of_nat x - center_x) ^ 2
                 <=? protect_center ^ 2)%Z)
             (seq 0 w))
      (seq 0 h).

(** *** Line-band policy ([fft_filter_channel_lines], lines 52-97) *)

(** The reduction applied at offset [d] from the centre line; the row loop
    and the column loop of the source compute it with the same statements.
    The division is Python's true division; it is reached only under
    [line_width > 0]. *)
Definition band_reduction (line_width : Z) (attenuation : T) (d : Z) : T :=
  let dist := Z.abs d in
  if (dist <=? line_width)%Z then attenuation
  else
    let falloff :=
      if (dist <? line_width * 2)%Z
      then ndiv (nofZ (line_width * 2 - dist)) (nofZ line_width)
      else n0 in
    nmul attenuation falloff.

(** [mask[y, :] *= c] and [mask[:, x] *= c] *)
Definition scale_row (y : nat) (c : T) (m : grid T) : grid T :=
  upd y (map (fun v => nmul v c)) m.
Definition scale_col (x : nat) (c : T) (m : grid T) : grid T :=
  map (upd x (fun v => nmul v c)) m.

Definition band_rows (h : nat) (line_width : Z) (attenuation : T)
  (mask : grid T) : grid T :=
  let center_y := (Z.of_nat h / 2)%Z in
  if (0 <? line_width)%Z then
    fold_left
      (fun mask dy =>
         let y_idx := (center_y + dy)%Z in
         if ((0 <=? y_idx) && (y_idx <? Z.of_nat h))%Z
         then scale_row (Z.to_nat y_idx)
                (nsub n1 (band_reduction line_width attenuation dy)) mask
         else mask)
      (range (- line_width * 2) (line_width * 2 + 1)) mask
  else mask.

Definition band_cols (w : nat) (line_width : Z) (attenuation : T)
  (mask : grid T) : grid T :=
  let center_x := (Z.of_nat w / 2)%Z in
  if (0 <? line_width)%Z then
    fold_left
      (fun mask dx =>
         let x_idx := (center_x + dx)%Z in
         if ((0 <=? x_idx) && (x_idx <? Z.of_nat w))%Z
         then scale_col (Z.to_nat x_idx)
                (nsub n1 (band_reduction line_width attenuation dx)) mask
         else mask)
      (range (- line_width * 2) (line_width * 2 + 1)) mask
  else mask.

(** The mask of the line policy for an [h] by [w] channel. *)
Definition lines_mask (h w : nat) (line_width protect_center : Z)
  (attenuation : T) : grid T :=
  let mask := ones h w in
  let center_mask := center_disc h w protect_center in
  let mask := band_rows h line_width attenuation mask in
  let mask := band_cols w line_width attenuation mask in
  set_where center_mask n1 mask.

(** *** Peak-notch policy ([fft_filter_channel], lines 133-165) *)

Fixpoint insert_sorted (a : T) (l : list T) : list T :=
  match l with
  | [] => [a]
  | b :: l' => if nleb a b then a :: l else b :: insert_sorted a l'
  end.

Definition sort (l : list T) : list T := fold_right insert_sorted [] l.

(** NumPy's [np.percentile(a, q)] over the flattened array, default method
    (linear interpolation between the two closest ranks): with [n] values
    sorted increasingly, the virtual index is [q / 100 * (n - 1)], and the
    result interpolates between the values at its floor and at the next
    rank.  A percentile outside [0, 100] raises [ValueError]. *)
Definition percentile (a : list T) (q : T) : result T :=
  if nltb q n0 || nltb (nofZ 100) q then Err PercentileRange
  else
    let arr := sort a in
    let n := Z.of_nat (length arr) in
    let virtual_index := nmul (ndiv q (nofZ 100)) (nofZ (n - 1)) in
    let previous := nfloor virtual_index in
    let next := Z.min (previous + 1) (n - 1) in
    let gamma := nsub virtual_index (nofZ previous) in
    let lo := nth (Z.to_nat previous) arr n0 in
    let hi := nth (Z.to_nat next) arr n0 in
    Ok (nadd lo (nmul (nsub hi lo) gamma)).

(** [magnitude_for_threshold]: a copy of the magnitudes with the protected
    disc set to 0. *)
Definition magnitude_for_threshold (magnitude : grid T) (protect_center : Z)
  : grid T :=
  set_where (center_disc (height magnitude) (width magnitude) protect_center)
            n0 magnitude.

Definition threshold_of (magnitude : grid T) (threshold_percentile : T)
  (protect_center : Z) : result T :=
  percentile (concat (magnitude_for_threshold magnitude protect_center))
             threshold_percentile.

(** [peaks = magnitude > threshold; peaks[center_mask] = False] *)
Definition peaks_of (magnitude : grid T) (threshold : T) (protect_center : Z)
  : grid bool :=
  set_where (center_disc (height magnitude) (width magnitude) protect_center)
            false
            (map (map (fun m => nltb threshold m)) magnitude).

(** [(dist / notch_radius) ** 2 if dist > 0 else 0], with
    [dist = np.sqrt(dy**2 + dx**2)].  The distance is kept squared:
    [d2 = dy**2 + dx**2], [dist > 0] is [0 < d2] and the square of the
    quotient is [d2 / notch_radius**2] (lemma [notch_square_form] relates the
    two over the reals).  The conditional expression evaluates the division
    only when [dist > 0]; a zero divisor there is reported as
    [ZeroDivision]. *)
Definition notch_factor (notch_radius d2 : Z) : result T :=
  if (0 <? d2)%Z then
    if (notch_radius =? 0)%Z then Err ZeroDivision
    else Ok (ndiv (nofZ d2) (nofZ (notch_radius * notch_radius)))
  else Ok n0.

(** The body of the two inner loops at offset [(dy, dx)] of the peak
    [(py, px)].  [dist <= notch_radius] is [0 <= notch_radius] and
    [d2 <= notch_radius**2]. *)
Definition notch_step (h w : nat) (notch_radius : Z) (py px : nat)
  (dy dx : Z) (mask : grid T) : result (grid T) :=
  let ny := (Z.of_nat py + dy)%Z in
  let nx := (Z.of_nat px + dx)%Z in
  if ((0 <=? ny) && (ny <? Z.of_nat h) && ((0 <=? nx) && (nx <? Z.of_nat w)))%Z
  then
    let d2 := (dy ^ 2 + dx ^ 2)%Z in
    if ((0 <=? notch_radius) && (d2 <=? notch_radius ^ 2))%Z then
      f <- notch_factor notch_radius d2 ;;
      Ok (upd2 (Z.to_nat ny) (Z.to_nat nx) (fun v => nmul v f) mask)
    else Ok mask
  else Ok mask.

(** The circular notch around one peak. *)
Definition notch_at (h w : nat) (notch_radius : Z) (p : nat * nat)
  (mask : grid T) : result (grid T) :=
  let '(py, px) := p in
  for_each (range (- notch_radius) (notch_radius + 1))
    (fun dy mask =>
       for_each (range (- notch_radius) (notch_radius + 1))
         (fun dx mask => notch_step h w notch_radius py px dy dx mask)
         mask)
    mask.

(** The notches around every peak of [peak_coords], on a mask of ones. *)
Definition notch_mask (h w : nat) (notch_radius : Z)
  (peak_coords : list (nat * nat)) : result (grid T) :=
  for_each peak_coords (notch_at h w notch_radius) (ones h w).

(** The mask of the peak policy for a magnitude spectrum. *)
Definition peaks_mask (magnitude : grid T) (threshold_percentile : T)
  (notch_radius protect_center : Z) : result (grid T) :=
  threshold <- threshold_of magnitude threshold_percentile protect_center ;;
  let peaks := peaks_of magnitude threshold protect_center in
  let peak_coords := where_true peaks in
  notch_mask (height magnitude) (width magnitude) notch_radius peak_coords.

(** *** The notch loops as folds, and the vocabulary of their properties *)

(** The factor of the notch at squared distance [d2]. *)
Definition notch_weight (notch_radius d2 : Z) : T :=
  if (0 <? d2)%Z
  then ndiv (nofZ d2) (nofZ (notch_radius * notch_radius))
  else n0.

(** [(ny, nx)] is within [notch_radius] of the peak [(py, px)]. *)
Definition near (notch_radius : Z) (py px ny nx : nat) : bool :=
  ((0 <=? notch_radius)
   && ((Z.of_nat ny - Z.of_nat py) ^ 2 + (Z.of_nat nx - Z.of_nat px) ^ 2
       <=? notch_radius ^ 2))%Z.

(** The squared distance between two bins. *)
Definition dist2 (py px ny nx : nat) : Z :=
  ((Z.of_nat ny - Z.of_nat py) ^ 2 + (Z.of_nat nx - Z.of_nat px) ^ 2)%Z.

(** The offset [(dy, dx)] of the peak [(py, px)] lands on [(y, x)] and is
    within the radius. *)
Definition hits (r : Z) (py px : nat) (dy dx : Z) (y x : nat) : bool :=
  ((Z.of_nat y =? Z.of_nat py + dy) && (Z.of_nat x =? Z.of_nat px + dx)
   && ((0 <=? r) && (dy ^ 2 + dx ^ 2 <=? r ^ 2)))%Z.

(** [notch_step] and [notch_at] without the error channel. *)
Definition notch_step_pure (h w : nat) (r : Z) (py px : nat) (dy dx : Z)
  (mask : grid T) : grid T :=
  let ny := (Z.of_nat py + dy)%Z in
  let nx := (Z.of_nat px + dx)%Z in
  if ((0 <=? ny) && (ny <? Z.of_nat h) && ((0 <=? nx) && (nx <? Z.of_nat w))
      && ((0 <=? r) && (dy ^ 2 + dx ^ 2 <=? r ^ 2)))%Z
  then upd2 (Z.to_nat ny) (Z.to_nat nx)
            (fun v => nmul v (notch_weight r (dy ^ 2 + dx ^ 2))) mask
  else mask.

Definition notch_at_pure (h w : nat) (r : Z) (mask : grid T) (p : nat * nat)
  : grid T :=
  fold_left
    (fun mask dy =>
       fold_left (fun mask dx => notch_step_pure h w r (fst p) (snd p) dy dx mask)
                 (range (- r) (r + 1)) mask)
    (range (- r) (r + 1)) mask.

End Masks.

(** ** Complex numbers and the discrete Fourier transform *)

Definition C : Type := (R * R)%type.

Definition C0 : C := (0, 0)%R.
Definition C1 : C := (1, 0)%R.
Definition RtoC (r : R) : C := (r, 0%R).
Definition Cre (z : C) : R := fst z.
Definition Cim (z : C) : R := snd z.
Definition Cadd (a b : C) : C := (fst a + fst b, snd a + snd b)%R.
Definition Copp (a : C) : C := (- fst a, - snd a)%R.
Definition Csub (a b : C) : C := Cadd a (Copp b).
Definition Cmul (a b : C) : C :=
  (fst a * fst b - snd a * snd b, fst a * snd b + snd a * fst b)%R.
Definition Cinv (a : C) : C :=
  (fst a / (fst a ^ 2 + snd a ^ 2), - snd a / (fst a ^ 2 + snd a ^ 2))%R.
Definition Cdiv (a b : C) : C := Cmul a (Cinv b).

(** [np.abs] of a complex number *)
Definition Cabs (z : C) : R := sqrt (fst z ^ 2 + snd z ^ 2).

Fixpoint Cpow (z : C) (n : nat) : C :=
  match n with
  | O => C1
  | S n' => Cmul z (Cpow z n')
  end.

(** [sum_{i < n} f i] *)
Fixpoint Csum (n : nat) (f : nat -> C) : C :=
  match n with
  | O => C0
  | S n' => Cadd (Csum n' f) (f n')
  end.

(** [exp(-2 pi i / n)] and [exp(+2 pi i / n)]: the kernels of the forward
    and of the inverse transform of length [n]. *)
Definition root (n : nat) : C :=
  (cos (2 * PI / INR n), - sin (2 * PI / INR n))%R.
Definition iroot (n : nat) : C :=
  (cos (2 * PI / INR n), sin (2 * PI / INR n))%R.

(** NumPy's [np.fft.fft2], by its defining formula
    [A[k, l] = sum_m sum_n a[m, n] exp(-2 pi i (m k / h + n l / w))];
    an array with an empty axis is rejected. *)
Definition fft2 (a : grid C) : result (grid C) :=
  let h := height a in
  let w := width a in
  if ((h =? 0) || (w =? 0))%nat then Err InvalidFFTSize
  else
    Ok (map (fun k =>
               map (fun l =>
                      Csum h (fun m =>
                        Csum w (fun n =>
                          Cmul (get C0 a m n)
                               (Cmul (Cpow (root h) (m * k))
                                     (Cpow (root w) (n * l))))))
                   (seq 0 w))
            (seq 0 h)).

(** NumPy's [np.fft.ifft2]:
    [a[m, n] = 1 / (h w) sum_k sum_l A[k, l] exp(+2 pi i (m k / h + n l / w))]. *)
Definition ifft2 (a : grid C) : result (grid C) :=
  let h := height a in
  let w := width a in
  if ((h =? 0) || (w =? 0))%nat then Err InvalidFFTSize
  else
    Ok (map (fun m =>
               map (fun n =>
                      Cdiv
                        (Csum h (fun k =>
                           Csum w (fun l =>
                             Cmul (get C0 a k l)
                                  (Cmul (Cpow (iroot h) (m * k))
                                        (Cpow (iroot w) (n * l))))))
                        (RtoC (INR (h * w))))
                   (seq 0 w))
            (seq 0 h)).

(** [np.roll(l, k)] along one axis, for a shift [0 <= k <= len(l)]:
    the last [k] elements come first. *)
Definition roll {A} (k : nat) (l : list A) : list A :=
  skipn (length l - k) l ++ firstn (length l - k) l.

(** [np.fft.fftshift] rolls every axis by [dim // 2]; [np.fft.ifftshift]
    rolls it by [-(dim // 2)], that is by [dim - dim // 2]. *)
Definition fftshift1 {A} (l : list A) : list A :=
  roll (length l / 2) l.
Definition ifftshift1 {A} (l : list A) : list A :=
  roll (length l - length l / 2) l.
Definition fftshift {A} (a : grid A) : grid A :=
  fftshift1 (map fftshift1 a).
Definition ifftshift {A} (a : grid A) : grid A :=
  ifftshift1 (map ifftshift1 a).

(** ** The channel filters *)

(** [f_shift * mask]: a complex array times a real one, elementwise *)
Definition apply_mask (f_shift : grid C) (mask : grid R) : grid C :=
  zip_with (zip_with (fun z m => Cmul z (RtoC m))) f_shift mask.

(** SpectrumTransform of the specification: lines 49-50 and 103-105. *)
Definition forward (channel : grid R) : result (grid C) :=
  f_transform <- fft2 (map (map RtoC) channel) ;;
  Ok (fftshift f_transform).

Definition inverse (f_filtered : grid C) : result (grid R) :=
  let f_ishift := ifftshift f_filtered in
  img_back <- ifft2 f_ishift ;;
  Ok (map (map Cre) img_back).

Definition fft_filter_channel_lines (channel : grid R)
  (line_width protect_center : Z) (attenuation : R) : result (grid R) :=
  let h := height channel in
  let w := width channel in
  f_shift <- forward channel ;;
  let mask := lines_mask h w line_width protect_center attenuation in
  let f_filtered := apply_mask f_shift mask in
  inverse f_filtered.

Definition fft_filter_channel (channel : grid R) (threshold_percentile : R)
  (notch_radius protect_center : Z) : result (grid R) :=
  f_shift <- forward channel ;;
  let magnitude := map (map Cabs) f_shift in
  mask <- peaks_mask magnitude threshold_percentile notch_radius
                     protect_center ;;
  let f_filtered := apply_mask f_shift mask in
  inverse f_filtered.

(** ** Images *)

(** An image array is 2-D (grayscale) or 3-D (height, width, channels). *)
Inductive image (A : Type) : Type :=
| Gray (a : grid A)
| Color (a : grid (list A)).
Arguments Gray {A} a.
Arguments Color {A} a.

(** [a.shape[2]] *)
Definition depth {A} (a : grid (list A)) : nat :=
  length (hd [] (hd [] a)).

(** A nested list is an [h] by [w] by [c] array. *)
Definition is_grid3 {A} (h w c : nat) (a : grid (list A)) : Prop :=
  is_grid h w a /\ Forall (Forall (fun px => length px = c)) a.

(** [a[:, :, c]] *)
Definition get_channel {A} (d : A) (c : nat) (a : grid (list A)) : grid A :=
  map (map (fun px => nth c px d)) a.

(** [a[:, :, c] = ch], for [ch] of the shape of the first two axes of [a] *)
Definition set_channel {A} (c : nat) (ch : grid A) (a : grid (list A))
  : grid (list A) :=
  zip_with (zip_with (fun px v => upd c (fun _ => v) px)) a ch.

(** ** The whole-image filter ([fft_remove_pattern]) *)

Definition filter_channel (method : string) (threshold_percentile : R)
  (notch_radius protect_center line_width : Z) (attenuation : R)
  (channel : grid R) : result (grid R) :=
  if String.eqb method "lines"
  then fft_filter_channel_lines channel line_width protect_center attenuation
  else fft_filter_channel channel threshold_percentile notch_radius
                          protect_center.

Definition fft_remove_pattern (img : image R) (threshold_percentile : R)
  (notch_radius protect_center : Z) (method : string) (line_width : Z)
  (attenuation : R) : result (image R) :=
  let filter := filter_channel method threshold_percentile notch_radius
                               protect_center line_width attenuation in
  match img with
  | Gray a =>
      r <- filter a ;;
      Ok (Gray r)
  | Color a =>
      let result := map (map (map (fun _ => 0%R))) a in
      let channels := depth a in
      result <- for_each (seq 0 channels)
                  (fun c result =>
                     r <- filter (get_channel 0%R c a) ;;
                     Ok (set_channel c r result))
                  result ;;
      Ok (Color result)
  end.

(** ** Tiling ([create_tiled_texture]) *)

Section Tiling.

Variable A : Type.
(** the zero of the array's dtype *)
Variable zero : A.

(** [np.flipud] reverses the first axis, [np.fliplr] the second. *)
Definition flipud {P} (a : grid P) : grid P := rev a.
Definition fliplr {P} (a : grid P) : grid P := map (@rev P) a.

(** [row[x0 : x0 + len(t)] = t] *)
Definition blit_row {P} (x0 : nat) (t row : list P) : list P :=
  firstn x0 row ++ t ++ skipn (x0 + length t) row.

(** [result[y0 : y0 + h, x0 : x0 + w, :] = tile] for a tile of the shape of
    the slice *)
Definition blit {P} (y0 x0 : nat) (tile res : grid P) : grid P :=
  firstn y0 res
  ++ zip_with (blit_row x0) tile (firstn (length tile) (skipn y0 res))
  ++ skipn (y0 + length tile) res.

(** The tile at tile coordinates [(tx, ty)]: lines 57-72. *)
Definition make_tile {P} (mirror : bool) (tx ty : nat) (img : grid P)
  : grid P :=
  let mirror_h := if mirror then (tx mod 2 =? 1)%nat else false in
  let mirror_v := if mirror then (ty mod 2 =? 1)%nat else false in
  let tile := img in
  let tile := if mirror_v then flipud tile else tile in
  let tile := if mirror_h then fliplr tile else tile in
  tile.

(** The two loops over the tiles.  [assign] is the block assignment of line
    74, which raises when the tile does not broadcast into the slice. *)
Definition tile_loop {P} (h w tiles_x tiles_y : nat) (mirror : bool)
  (img : grid P)
  (assign : nat -> nat -> grid P -> grid (list A) -> result (grid (list A)))
  (res : grid (list A)) : result (grid (list A)) :=
  for_each (seq 0 tiles_y)
    (fun ty res =>
       for_each (seq 0 tiles_x)
         (fun tx res =>
            let y_start := (ty * h)%nat in
            let x_start := (tx * w)%nat in
            assign y_start x_start (make_tile mirror tx ty img) res)
         res)
    res.

(** A 3-D tile has the shape of the slice it is assigned to. *)
Definition assign3 (y0 x0 : nat) (tile res : grid (list A))
  : result (grid (list A)) :=
  Ok (blit y0 x0 tile res).

(** A 4-D tile of shape [(h, w, 1, 1)] assigned to a slice of shape
    [(h, w, 1)]: NumPy strips leading axes of length 1 from the value and
    then broadcasts, which succeeds only for [h = 1] and [w = 1]. *)
Definition assign4 (h w : nat) (y0 x0 : nat) (tile : grid (list (list A)))
  (res : grid (list A)) : result (grid (list A)) :=
  if ((h =? 1) && (w =? 1))%nat
  then Ok (blit y0 x0 (map (map (@concat A)) tile) res)
  else Err BroadcastError.

(** [np.zeros((result_h, result_w, channels))] *)
Definition zeros3 (result_h result_w channels : nat) : grid (list A) :=
  repeat (repeat (repeat zero channels) result_w) result_h.

(** [tiles_x] and [tiles_y] are counts: [nat].  [channels] is 1 for a 2-D
    array and [shape[2]] for a 3-D one; [channels == 1] adds an axis at
    position 2 of the array (also of a 3-D array with one channel, which
    becomes 4-D, of shape [(h, w, 1, 1)]) and drops the last axis of the
    result. *)
Definition create_tiled_texture (img : image A) (tiles_x tiles_y : nat)
  (mirror : bool) : result (image A) :=
  match img with
  | Gray a =>
      let h := height a in
      let w := width a in
      let channels := 1%nat in
      let a3 := map (map (fun v => [v])) a in
      let res := zeros3 (h * tiles_y) (w * tiles_x) channels in
      res <- tile_loop h w tiles_x tiles_y mirror a3 assign3 res ;;
      Ok (Gray (get_channel zero 0 res))
  | Color a =>
      let h := height a in
      let w := width a in
      let channels := depth a in
      let res := zeros3 (h * tiles_y) (w * tiles_x) channels in
      if (channels =? 1)%nat then
        let a4 := map (map (fun px => [px])) a in
        res <- tile_loop h w tiles_x tiles_y mirror a4 (assign4 h w) res ;;
        Ok (Gray (get_channel zero 0 res))
      else
        res <- tile_loop h w tiles_x tiles_y mirror a assign3 res ;;
        Ok (Color res)
  end.

End Tiling.

Arguments tile_loop {A P} h w tiles_x tiles_y mirror img assign res.
Arguments assign3 {A} y0 x0 tile res.
Arguments assign4 {A} h w y0 x0 tile res.
Arguments zeros3 {A} zero result_h result_w channels.
Arguments create_tiled_texture {A} zero img tiles_x tiles_y mirror.

(** ** Vocabulary of the properties *)

(** Every sample of an array satisfies [P]. *)
Definition grid_all {A} (P : A -> Prop) (g : grid A) : Prop :=
  Forall (Forall P) g.

(** The closed interval [0, 1]. *)
Definition in_unit (q : Q) : Prop := 0 <= q /\ q <= 1.

(** The magnitudes outside the disc only, [magnitude[~center_mask]]: the
    statistic an exclusion of the disc would rank. *)
Definition values_outside_disc (magnitude : grid Q) (protect_center : Z)
  : list Q :=
  concat
    (zip_with
       (fun sel row =>
          map snd (filter (fun bv => negb (fst bv)) (combine sel row)))
       (center_disc (height magnitude) (width magnitude) protect_center)
       magnitude).

(** The two tile loops with the assignment of a tile of the right shape. *)
Definition tiles_pure {P} (h w tiles_x tiles_y : nat) (mirror : bool)
  (img res : grid P) : grid P :=
  fold_left
    (fun res ty =>
       fold_left
         (fun res tx =>
            blit (ty * h) (tx * w) (make_tile mirror tx ty img) res)
         (seq 0 tiles_x) res)
    (seq 0 tiles_y) res.

(** The entries of the transform and of the inverse transform. *)
Definition fft2_entry (h w : nat) (a : grid C) (k l : nat) : C :=
  Csum h (fun m =>
    Csum w (fun n =>
      Cmul (get C0 a m n)
           (Cmul (Cpow (root h) (m * k)) (Cpow (root w) (n * l))))).

Definition ifft2_entry (h w : nat) (a : grid C) (m n : nat) : C :=
  Cdiv
    (Csum h (fun k =>
       Csum w (fun l =>
         Cmul (get C0 a k l)
              (Cmul (Cpow (iroot h) (m * k)) (Cpow (iroot w) (n * l))))))
    (RtoC (INR (h * w))).

(** [np.full((h, w), c)] *)
Definition constant (h w : nat) (c : R) : grid R := repeat (repeat c w) h.

(** The Euclidean test [d(b, p) <= r] and the factor [(d(b, p) / r)^2],
    with the square root. *)
Definition within (r : Z) (p : nat * nat) (y x : nat) : bool :=
  Rleb (sqrt (IZR (dist2 (fst p) (snd p) y x))) (IZR r).

Definition notch_ratio (r : Z) (p : nat * nat) (y x : nat) : R :=
  ((sqrt (IZR (dist2 (fst p) (snd p) y x)) / IZR r) ^ 2)%R.

(** The shape of an image array: 2-D, or 3-D with [c] channels. *)
Definition image_shape {A} (h w c : nat) (img : image A) : Prop :=
  match img with
  | Gray a => is_grid h w a
  | Color a => is_grid3 h w c a
  end.

(** Channel [k] of an image; a 2-D image is its only channel. *)
Definition channel_of (k : nat) (img : image R) : grid R :=
  match img with
  | Gray a => a
  | Color a => get_channel 0%R k a
  end.

(** The number of channels of an image of shape [(h, w)] or [(h, w, c)]. *)
Definition channel_count {A} (c : nat) (img : image A) : nat :=
  match img with
  | Gray _ => 1
  | Color _ => c
  end.

(** Both arrays are 2-D or both are 3-D. *)
Definition same_kind {A} (img out : image A) : Prop :=
  match img, out with
  | Gray _, Gray _ => True
  | Color _, Color _ => True
  | _, _ => False
  end.

(** ** Pixels, sums and gains *)

(** [img[y, x]] for a 2-D array and [img[y, x, k]] for a 3-D one. *)
Definition sample_at {A} (d : A) (img : image A) (y x k : nat) : A :=
  match img with
  | Gray a => get d a y x
  | Color a => nth k (get [] a y x) d
  end.

(** The index read in the image for offset [i] of tile number [t] along an
    axis of length [n]: reversed in the odd tiles when mirroring. *)
Definition mirror_index (mirror : bool) (n t i : nat) : nat :=
  if mirror && (t mod 2 =? 1)%nat then (n - 1 - i)%nat else i.

(** The arrays [create_tiled_texture] tiles: 2-D, or 3-D with a channel
    count other than 1. *)
Definition tileable {A} (c : nat) (img : image A) : Prop :=
  match img with
  | Gray _ => True
  | Color _ => c <> 1%nat
  end.

(** [sum_{i < n} f i] over the reals, and the sum of the samples of an
    array ([a.sum()]). *)
Fixpoint Rsum (n : nat) (f : nat -> R) : R :=
  match n with
  | O => 0%R
  | S n' => (Rsum n' f + f n')%R
  end.

Definition total (a : grid R) : R :=
  Rsum (height a) (fun y => Rsum (width a) (fun x => get 0%R a y x)).

(** The factor that the row loop (or the column loop) of the line policy
    gives to the bins at index [i] of an axis of length [n]: the offsets
    [-2 line_width .. 2 line_width] from the centre are scaled once, by
    [1 - reduction]. *)
Definition line_gain {T} `{Num T} (n : nat) (line_width : Z) (attenuation : T)
  (i : nat) : T :=
  let d := (Z.of_nat i - Z.of_nat n / 2)%Z in
  if ((0 <? line_width) && (Z.abs d <=? line_width * 2))%Z
  then nsub n1 (band_reduction line_width attenuation d)
  else n1.

(** [a * x + b * y] on two arrays of one shape. *)
Definition lincomb (a : R) (x : grid R) (b : R) (y : grid R) : grid R :=
  zip_with (zip_with (fun u v => (a * u + b * v)%R)) x y.

(** ** Saving ([save_image], line 25) *)

(** [np.maximum] and [np.minimum] of two numbers; [np.clip(v, lo, hi)] is
    [np.minimum(hi, np.maximum(v, lo))]. *)
Definition maximum {T} `{Num T} (a b : T) : T := if nltb a b then b else a.
Definition minimum {T} `{Num T} (a b : T) : T := if nltb b a then b else a.
Definition clip {T} `{Num T} (v lo hi : T) : T := minimum (maximum v lo) hi.

(** [np.clip(v, 0, 255).astype(np.uint8)] for one sample of a float array:
    after the clip the value is in [0, 255], where the conversion
    truncates, which for a value that is not negative is the floor. *)
Definition quantize {T} `{Num T} (v : T) : Z := nfloor (clip v n0 (nofZ 255)).

(** The array that [save_image] hands to [Image.fromarray]. *)
Definition save_image {T} `{Num T} (arr : image T) : image Z :=
  match arr with
  | Gray a => Gray (map (map quantize) a)
  | Color a => Color (map (map (map quantize)) a)
  end.

(** Two arrays, possibly of different sample types, are both 2-D or both
    3-D. *)
Definition same_axes {A B} (img : image A) (out : image B) : Prop :=
  match img, out with
  | Gray _, Gray _ => True
  | Color _, Color _ => True
  | _, _ => False
  end.

(** ** The spectrum visualisation ([visualize_fft], lines 236-249) *)

(** [np.mean(image, axis=2)] *)
Definition mean_channels (a : grid (list R)) : grid R :=
  map (map (fun px => (fold_right Rplus 0 px / INR (length px))%R)) a.

(** A 3-D image is averaged over its channels, a 2-D one is taken as it
    is (lines 236-240). *)
Definition to_gray (img : image R) : grid R :=
  match img with
  | Gray a => a
  | Color a => mean_channels a
  end.

(** [np.log1p(np.abs(f_shift))] *)
Definition log_magnitude (f_shift : grid C) : grid R :=
  map (map (fun z => ln (1 + Cabs z))) f_shift.

(** [a.min()] and [a.max()] of a non-empty array. *)
Definition amin (a : grid R) : R :=
  match concat a with
  | [] => 0%R
  | v :: l => fold_left Rmin l v
  end.
Definition amax (a : grid R) : R :=
  match concat a with
  | [] => 0%R
  | v :: l => fold_left Rmax l v
  end.

(** [(m - m.min()) / (m.max() - m.min()) * 255].  When all the values are
    equal, NumPy's quotient is 0 / 0, a NaN (with a warning), which the
    reals do not have: the properties of the visualisation assume
    [m.min() < m.max()]. *)
Definition normalize (m : grid R) : grid R :=
  let lo := amin m in
  let hi := amax m in
  map (map (fun v => ((v - lo) / (hi - lo) * 255)%R)) m.

(** The array that [visualize_fft] saves. *)
Definition visualize_fft (img : image R) : result (image Z) :=
  let gray := to_gray img in
  f_shift <- forward gray ;;
  let magnitude := log_magnitude f_shift in
  let magnitude := normalize magnitude in
  Ok (save_image (Gray magnitude)).

(** The complex conjugate. *)
Definition Cconj (z : C) : C := (fst z, (- snd z)%R).

(** The index of the opposite frequency on an axis of length [n]. *)
Definition opposite (n k : nat) : nat := ((n - k) mod n)%nat.

(** The bin of the opposite frequency in the shifted spectrum, on an axis of
    length [n]: the reflection of bin [i] about the centre [n // 2]; on an
    axis of even length bin 0, the Nyquist frequency, is its own
    opposite. *)
Definition opposite_bin (n i : nat) : nat := ((2 * (n / 2) - i) mod n)%nat.

(** The bin [(y, x)] is farther than [r] from every peak of the list. *)
Definition far_from_peaks (r : Z) (peaks : list (nat * nat)) (y x : nat)
  : Prop :=
  forall p, In p peaks -> within r p y x = false.

(** * Properties *)

(** ** Lists, arrays and loops *)

Lemma length_upd {A} (i : nat) (f : A -> A) (l : list A) :
  length (upd i f l) = length l.
Proof.
  revert i; induction l as [|a l IH]; intros [|i]; simpl; auto.
Qed.

Lemma nth_upd_same {A} (i : nat) (f : A -> A) (l : list A) (d : A) :
  (i < length l)%nat -> nth i (upd i f l) d = f (nth i l d).
Proof.
  revert i; induction l as [|a l IH]; intros [|i] Hi; simpl in *;
    try lia; auto.
  apply IH; lia.
Qed.

Lemma nth_upd_other {A} (i j : nat) (f : A -> A) (l : list A) (d : A) :
  i <> j -> nth j (upd i f l) d = nth j l d.
Proof.
  revert i j; induction l as [|a l IH]; intros [|i] [|j] Hij; simpl;
    try congruence; auto.
Qed.

Lemma Forall_upd {A} (P : A -> Prop) (i : nat) (f : A -> A) (l : list A) :
  (forall a, P a -> P (f a)) -> Forall P l -> Forall P (upd i f l).
Proof.
  intros Hf; revert i; induction l as [|a l IH]; intros [|i] Hl; simpl;
    inversion Hl; subst; constructor; auto.
Qed.

Lemma length_zip_with {A B D} (f : A -> B -> D) (la : list A) (lb : list B) :
  length (zip_with f la lb) = Nat.min (length la) (length lb).
Proof.
  revert lb; induction la as [|a la IH]; intros [|b lb]; simpl; auto.
Qed.

Lemma nth_zip_with {A B D} (f : A -> B -> D) (la : list A) (lb : list B)
  (i : nat) (da : A) (db : B) (dd : D) :
  (i < length la)%nat -> (i < length lb)%nat ->
  nth i (zip_with f la lb) dd = f (nth i la da) (nth i lb db).
Proof.
  revert lb i; induction la as [|a la IH]; intros [|b lb] [|i] Ha Hb;
    simpl in *; try lia; auto.
  apply IH; lia.
Qed.

Lemma Forall_zip_with {A B D} (P : D -> Prop) (f : A -> B -> D)
  (la : list A) (lb : list B) :
  (forall a b, In a la -> In b lb -> P (f a b)) ->
  Forall P (zip_with f la lb).
Proof.
  revert lb; induction la as [|a la IH]; intros [|b lb] Hf; simpl;
    constructor.
  - apply Hf; simpl; auto.
  - apply IH; intros; apply Hf; simpl; auto.
Qed.

Lemma is_grid_nth {A} {h w : nat} {g : grid A} (y : nat) :
  is_grid h w g -> (y < h)%nat -> length (nth y g []) = w.
Proof.
  intros [Hh Hw] Hy.
  rewrite Forall_forall in Hw; apply Hw, nth_In; lia.
Qed.

Lemma is_grid_width {A} (h w : nat) (g : grid A) :
  is_grid h w g -> (0 < h)%nat -> width g = w.
Proof.
  intros [Hh Hw] Hpos; unfold width.
  destruct g as [|r g]; simpl in *; [lia|].
  inversion Hw; auto.
Qed.

Lemma is_grid_height {A} (h w : nat) (g : grid A) :
  is_grid h w g -> height g = h.
Proof. intros [Hh _]; exact Hh. Qed.

(** Two arrays of the same shape with the same entries are equal. *)
Lemma list_ext {A} (d : A) (l1 l2 : list A) :
  length l1 = length l2 ->
  (forall i, (i < length l1)%nat -> nth i l1 d = nth i l2 d) ->
  l1 = l2.
Proof.
  revert l2; induction l1 as [|a l1 IH]; intros [|b l2] Hlen Hnth;
    simpl in *; try discriminate; auto.
  f_equal.
  - apply (Hnth 0%nat); lia.
  - apply IH; [lia|]. intros i Hi; apply (Hnth (S i)); lia.
Qed.

Lemma grid_ext {A} (d : A) (h w : nat) (g1 g2 : grid A) :
  is_grid h w g1 -> is_grid h w g2 ->
  (forall y x, (y < h)%nat -> (x < w)%nat -> get d g1 y x = get d g2 y x) ->
  g1 = g2.
Proof.
  intros H1 H2 Hget.
  apply (list_ext []).
  - destruct H1, H2; congruence.
  - intros y Hy. destruct H1 as [Hh1 Hw1] eqn:E1. rewrite Hh1 in Hy.
    apply (list_ext d).
    + rewrite (is_grid_nth y H1 Hy), (is_grid_nth y H2 Hy); auto.
    + intros x Hx. rewrite (is_grid_nth y H1 Hy) in Hx.
      apply (Hget y x Hy Hx).
Qed.

Lemma is_grid_map_seq {A} (h w : nat) (f : nat -> nat -> A) :
  is_grid h w (map (fun y => map (fun x => f y x) (seq 0 w)) (seq 0 h)).
Proof.
  split.
  - rewrite length_map, length_seq; auto.
  - apply Forall_forall; intros r Hr.
    apply in_map_iff in Hr as [y [<- _]].
    rewrite length_map, length_seq; auto.
Qed.

Lemma get_map_seq {A} (d : A) (h w : nat) (f : nat -> nat -> A) (y x : nat) :
  (y < h)%nat -> (x < w)%nat ->
  get d (map (fun y => map (fun x => f y x) (seq 0 w)) (seq 0 h)) y x = f y x.
Proof.
  intros Hy Hx; unfold get.
  rewrite (nth_indep _ [] (map (fun x => f 0%nat x) (seq 0 w)))
    by (rewrite length_map, length_seq; auto).
  rewrite (map_nth (fun y => map (fun x => f y x) (seq 0 w)) (seq 0 h) 0%nat y).
  rewrite seq_nth by auto; simpl.
  rewrite (nth_indep _ d (f y 0%nat))
    by (rewrite length_map, length_seq; auto).
  rewrite (map_nth (fun x => f y x) (seq 0 w) 0%nat x).
  rewrite seq_nth by auto; reflexivity.
Qed.

Lemma is_grid_map {A B} (f : A -> B) (h w : nat) (g : grid A) :
  is_grid h w g -> is_grid h w (map (map f) g).
Proof.
  intros [Hh Hw]; split.
  - rewrite length_map; auto.
  - apply Forall_forall; intros r Hr.
    apply in_map_iff in Hr as [r0 [<- Hr0]].
    rewrite length_map. rewrite Forall_forall in Hw; auto.
Qed.

Lemma get_map {A B} (f : A -> B) (da : A) (db : B) (h w : nat) (g : grid A)
  (y x : nat) :
  is_grid h w g -> (y < h)%nat -> (x < w)%nat ->
  get db (map (map f) g) y x = f (get da g y x).
Proof.
  intros Hg Hy Hx; unfold get.
  assert (Hlen : length (nth y g []) = w) by (eapply is_grid_nth; eauto).
  rewrite (nth_indep _ [] (map f [])) by (rewrite length_map; destruct Hg; lia).
  rewrite map_nth.
  rewrite (nth_indep _ db (f da)) by (rewrite length_map; lia).
  apply map_nth.
Qed.

Lemma is_grid_zip_with {A B D} (f : A -> B -> D) (h w : nat)
  (ga : grid A) (gb : grid B) :
  is_grid h w ga -> is_grid h w gb ->
  is_grid h w (zip_with (zip_with f) ga gb).
Proof.
  intros [Ha Hwa] [Hb Hwb]; split.
  - rewrite length_zip_with; lia.
  - subst h. revert gb Hb Hwb; induction ga as [|ra ga IH];
      intros [|rb gb] Hb Hwb; simpl in *; try discriminate; constructor.
    + inversion Hwa; inversion Hwb; subst.
      rewrite length_zip_with; lia.
    + inversion Hwa; inversion Hwb; subst. apply IH; auto.
Qed.

Lemma get_zip_with {A B D} (f : A -> B -> D) (da : A) (db : B) (dd : D)
  (h w : nat) (ga : grid A) (gb : grid B) (y x : nat) :
  is_grid h w ga -> is_grid h w gb -> (y < h)%nat -> (x < w)%nat ->
  get dd (zip_with (zip_with f) ga gb) y x = f (get da ga y x) (get db gb y x).
Proof.
  intros Ha Hb Hy Hx; unfold get.
  pose proof (is_grid_nth y Ha Hy) as La.
  pose proof (is_grid_nth y Hb Hy) as Lb.
  destruct Ha as [Ha _], Hb as [Hb _].
  rewrite (nth_zip_with (zip_with f) ga gb y [] [] []) by lia.
  apply nth_zip_with; lia.
Qed.

Lemma is_grid_upd_row {A} (h w : nat) (y : nat) (f : list A -> list A)
  (g : grid A) :
  (forall r, length (f r) = length r) ->
  is_grid h w g -> is_grid h w (upd y f g).
Proof.
  intros Hf [Hh Hw]; split.
  - rewrite length_upd; auto.
  - apply Forall_upd; auto. intros r Hr; rewrite Hf; auto.
Qed.

Lemma is_grid_upd2 {A} (h w : nat) (y x : nat) (f : A -> A) (g : grid A) :
  is_grid h w g -> is_grid h w (upd2 y x f g).
Proof.
  apply is_grid_upd_row; intros; apply length_upd.
Qed.

Lemma get_upd2_same {A} (d : A) (h w : nat) (y x : nat) (f : A -> A)
  (g : grid A) :
  is_grid h w g -> (y < h)%nat -> (x < w)%nat ->
  get d (upd2 y x f g) y x = f (get d g y x).
Proof.
  intros Hg Hy Hx; unfold get, upd2.
  rewrite nth_upd_same by (destruct Hg; lia).
  apply nth_upd_same. rewrite (is_grid_nth y Hg Hy); auto.
Qed.

Lemma get_upd2_other {A} (d : A) (y x y' x' : nat) (f : A -> A) (g : grid A) :
  (y, x) <> (y', x') ->
  get d (upd2 y x f g) y' x' = get d g y' x'.
Proof.
  intros Hne; unfold get, upd2.
  destruct (Nat.eq_dec y y') as [->|Hy].
  - destruct (Nat.lt_ge_cases y' (length g)) as [Hlt|Hge].
    + rewrite nth_upd_same by auto.
      apply nth_upd_other; congruence.
    + rewrite (nth_overflow (upd y' (upd x f) g)) by (rewrite length_upd; lia).
      rewrite (nth_overflow g) by lia. reflexivity.
  - rewrite nth_upd_other; auto.
Qed.

Lemma grid_all_get {A} (P : A -> Prop) (d : A) (h w : nat) (g : grid A)
  (y x : nat) :
  is_grid h w g -> grid_all P g -> (y < h)%nat -> (x < w)%nat ->
  P (get d g y x).
Proof.
  intros Hg Hall Hy Hx; unfold get.
  pose proof (is_grid_nth y Hg Hy) as Hlen.
  destruct Hg as [Hh _].
  unfold grid_all in Hall; rewrite Forall_forall in Hall.
  assert (Hrow : Forall P (nth y g [])) by (apply Hall, nth_In; lia).
  rewrite Forall_forall in Hrow; apply Hrow, nth_In; lia.
Qed.

(** A loop whose body always succeeds and keeps an invariant succeeds and
    keeps it. *)
Lemma for_each_inv {A S} (P : S -> Prop) (l : list A)
  (body : A -> S -> result S) (s : S) :
  P s ->
  (forall a s, In a l -> P s -> exists s', body a s = Ok s' /\ P s') ->
  exists s', for_each l body s = Ok s' /\ P s'.
Proof.
  revert s; induction l as [|a l IH]; intros s Hs Hbody; simpl.
  - eauto.
  - destruct (Hbody a s (or_introl eq_refl) Hs) as [s1 [E1 H1]].
    rewrite E1; simpl. apply IH; auto.
    intros; apply Hbody; simpl; auto.
Qed.

(** A loop whose body never raises is a fold. *)
Lemma for_each_pure {A S} (l : list A) (body : A -> S -> result S)
  (step : S -> A -> S) (s : S) :
  (forall a s, In a l -> body a s = Ok (step s a)) ->
  for_each l body s = Ok (fold_left step l s).
Proof.
  revert s; induction l as [|a l IH]; intros s Hbody; simpl; auto.
  rewrite Hbody by (simpl; auto); simpl.
  apply IH; intros; apply Hbody; simpl; auto.
Qed.

Lemma fold_left_inv {A S} (P : S -> Prop) (l : list A) (step : S -> A -> S)
  (s : S) :
  P s -> (forall a s, In a l -> P s -> P (step s a)) ->
  P (fold_left step l s).
Proof.
  revert s; induction l as [|a l IH]; intros s Hs Hstep; simpl; auto.
  apply IH; [apply Hstep; simpl; auto|].
  intros; apply Hstep; simpl; auto.
Qed.

Lemma in_range (a b x : Z) : In x (range a b) <-> (a <= x < b)%Z.
Proof.
  unfold range; rewrite in_map_iff; split.
  - intros [i [<- Hi]]; apply in_seq in Hi; lia.
  - intros Hx; exists (Z.to_nat (x - a)); split; [lia|].
    apply in_seq; lia.
Qed.

Lemma map_seq_from {B} (f : nat -> B) (s n : nat) :
  map f (seq s n) = map (fun i => f (s + i)%nat) (seq 0 n).
Proof.
  revert f s; induction n as [|n IH]; intros f s; simpl; auto.
  rewrite Nat.add_0_r; f_equal.
  rewrite (IH f (S s)), (IH (fun i => f (s + i)%nat) 1%nat).
  apply map_ext; intros i; f_equal; lia.
Qed.

Lemma range_split (a e b : Z) :
  (a <= e < b)%Z -> range a b = range a e ++ e :: range (e + 1) b.
Proof.
  intros He; unfold range.
  replace (Z.to_nat (b - a))
    with (Z.to_nat (e - a) + S (Z.to_nat (b - (e + 1))))%nat by lia.
  rewrite seq_app, map_app; f_equal.
  rewrite map_seq_from; simpl; f_equal; [lia|].
  rewrite map_seq_from.
  apply map_ext; intros i; lia.
Qed.

(** A fold whose steps all leave the state alone returns it. *)
Lemma fold_left_id {A S} (l : list A) (step : S -> A -> S) (s : S) :
  (forall a s, In a l -> step s a = s) -> fold_left step l s = s.
Proof.
  revert s; induction l as [|a l IH]; intros s Hstep; simpl; auto.
  rewrite Hstep by (simpl; auto).
  apply IH; intros; apply Hstep; simpl; auto.
Qed.

(** A fold over a range in which one offset [e] alone acts. *)
Lemma fold_range_single {S} (a b e : Z) (step : S -> Z -> S) (s : S) :
  (forall d s, d <> e -> step s d = s) ->
  fold_left step (range a b) s
  = if ((a <=? e) && (e <? b))%Z then step s e else s.
Proof.
  intros Hstep.
  destruct ((a <=? e) && (e <? b))%Z eqn:E.
  - rewrite (range_split a e b) by lia.
    rewrite fold_left_app; simpl.
    rewrite (fold_left_id (range a e)); [apply fold_left_id|].
    + intros d s' Hd; apply Hstep; apply in_range in Hd; lia.
    + intros d s' Hd; apply Hstep; apply in_range in Hd; lia.
  - apply fold_left_id; intros d s' Hd; apply Hstep.
    apply in_range in Hd; lia.
Qed.

(** ** Structure of the masks, for any arithmetic *)

Section MaskFacts.

Context {T : Type} `{Num T}.

Lemma is_grid_ones (h w : nat) : is_grid h w (ones h w).
Proof.
  unfold ones; split.
  - apply repeat_length.
  - apply Forall_forall; intros r Hr.
    apply repeat_spec in Hr; subst; apply repeat_length.
Qed.

Lemma grid_all_ones (P : T -> Prop) (h w : nat) :
  P n1 -> grid_all P (ones h w).
Proof.
  intros H1; unfold grid_all, ones.
  apply Forall_forall; intros r Hr; apply repeat_spec in Hr; subst.
  apply Forall_forall; intros v Hv; apply repeat_spec in Hv; subst; auto.
Qed.

Lemma is_grid_center_disc (h w : nat) (pc : Z) :
  is_grid h w (center_disc h w pc).
Proof. apply is_grid_map_seq. Qed.

Lemma get_center_disc (h w : nat) (pc : Z) (y x : nat) :
  (y < h)%nat -> (x < w)%nat ->
  get false (center_disc h w pc) y x
  = ((Z.of_nat y - Z.of_nat h / 2) ^ 2 + (Z.of_nat x - Z.of_nat w / 2) ^ 2
     <=? pc ^ 2)%Z.
Proof.
  intros Hy Hx; unfold center_disc.
  apply (get_map_seq false h w
           (fun y x => ((Z.of_nat y - Z.of_nat h / 2) ^ 2
                        + (Z.of_nat x - Z.of_nat w / 2) ^ 2 <=? pc ^ 2)%Z));
    auto.
Qed.

Lemma is_grid_set_where {A} (h w : nat) (sel : grid bool) (v : A)
  (g : grid A) :
  is_grid h w sel -> is_grid h w g -> is_grid h w (set_where sel v g).
Proof. apply is_grid_zip_with. Qed.

Lemma get_set_where {A} (d : A) (h w : nat) (sel : grid bool) (v : A)
  (g : grid A) (y x : nat) :
  is_grid h w sel -> is_grid h w g -> (y < h)%nat -> (x < w)%nat ->
  get d (set_where sel v g) y x
  = if get false sel y x then v else get d g y x.
Proof.
  intros Hs Hg Hy Hx; unfold set_where.
  apply (get_zip_with (fun (b : bool) a => if b then v else a) false d d
           h w sel g y x); auto.
Qed.

Lemma grid_all_set_where {A} (P : A -> Prop) (sel : grid bool) (v : A)
  (g : grid A) :
  P v -> grid_all P g -> grid_all P (set_where sel v g).
Proof.
  intros Hv Hg; unfold grid_all, set_where.
  apply Forall_zip_with; intros bs r _ Hr.
  apply Forall_zip_with; intros b a _ Ha.
  destruct b; auto.
  unfold grid_all in Hg; rewrite Forall_forall in Hg.
  specialize (Hg r Hr); rewrite Forall_forall in Hg; auto.
Qed.

Lemma is_grid_scale_row (h w y : nat) (c : T) (m : grid T) :
  is_grid h w m -> is_grid h w (scale_row y c m).
Proof.
  apply is_grid_upd_row; intros; apply length_map.
Qed.

Lemma is_grid_scale_col (h w x : nat) (c : T) (m : grid T) :
  is_grid h w m -> is_grid h w (scale_col x c m).
Proof.
  intros [Hh Hw]; unfold scale_col; split.
  - rewrite length_map; auto.
  - apply Forall_forall; intros r Hr.
    apply in_map_iff in Hr as [r0 [<- Hr0]].
    rewrite length_upd. rewrite Forall_forall in Hw; auto.
Qed.

Lemma grid_all_scale_row (P F : T -> Prop) (y : nat) (c : T) (m : grid T) :
  (forall v, P v -> P (nmul v c)) ->
  grid_all P m -> grid_all P (scale_row y c m).
Proof.
  intros Hmul; unfold grid_all, scale_row.
  apply Forall_upd; intros r Hr.
  apply Forall_forall; intros v Hv.
  apply in_map_iff in Hv as [v0 [<- Hv0]].
  rewrite Forall_forall in Hr; auto.
Qed.

Lemma grid_all_scale_col (P : T -> Prop) (x : nat) (c : T) (m : grid T) :
  (forall v, P v -> P (nmul v c)) ->
  grid_all P m -> grid_all P (scale_col x c m).
Proof.
  intros Hmul Hm; unfold grid_all, scale_col in *.
  apply Forall_forall; intros r Hr.
  apply in_map_iff in Hr as [r0 [<- Hr0]].
  apply Forall_upd; auto.
  rewrite Forall_forall in Hm; auto.
Qed.

Lemma is_grid_band_rows (h w : nat) (lw : Z) (att : T) (m : grid T) :
  is_grid h w m -> is_grid h w (band_rows h lw att m).
Proof.
  intros Hm; unfold band_rows.
  destruct (0 <? lw)%Z; auto.
  apply fold_left_inv; auto.
  intros dy s _ Hs.
  destruct ((0 <=? _) && _)%Z; auto using is_grid_scale_row.
Qed.

Lemma is_grid_band_cols (h w : nat) (lw : Z) (att : T) (m : grid T) :
  is_grid h w m -> is_grid h w (band_cols w lw att m).
Proof.
  intros Hm; unfold band_cols.
  destruct (0 <? lw)%Z; auto.
  apply fold_left_inv; auto.
  intros dx s _ Hs.
  destruct ((0 <=? _) && _)%Z; auto using is_grid_scale_col.
Qed.

Lemma is_grid_lines_mask (h w : nat) (lw pc : Z) (att : T) :
  is_grid h w (lines_mask h w lw pc att).
Proof.
  unfold lines_mask.
  apply is_grid_set_where; [apply is_grid_center_disc|].
  apply is_grid_band_cols, is_grid_band_rows, is_grid_ones.
Qed.

(** The last statement of the mask construction decides the disc: inside it
    the mask is the constant 1, outside it is what the bands left. *)
Lemma get_lines_mask (d : T) (h w : nat) (lw pc : Z) (att : T) (y x : nat) :
  (y < h)%nat -> (x < w)%nat ->
  get d (lines_mask h w lw pc att) y x
  = if get false (center_disc h w pc) y x then n1
    else get d (band_cols w lw att (band_rows h lw att (ones h w))) y x.
Proof.
  intros Hy Hx; unfold lines_mask.
  apply (get_set_where d h w); auto.
  - apply is_grid_center_disc.
  - apply is_grid_band_cols, is_grid_band_rows, is_grid_ones.
Qed.

(** Every entry of the line mask is 1 or a product of factors
    [1 - reduction]. *)
Lemma grid_all_lines_mask (P : T -> Prop) (h w : nat) (lw pc : Z) (att : T) :
  P n1 ->
  (forall v d, (0 < lw)%Z -> P v ->
               P (nmul v (nsub n1 (band_reduction lw att d)))) ->
  grid_all P (lines_mask h w lw pc att).
Proof.
  intros H1 Hmul; unfold lines_mask.
  apply grid_all_set_where; auto.
  unfold band_cols, band_rows.
  destruct (0 <? lw)%Z eqn:Elw.
  - apply fold_left_inv.
    + apply fold_left_inv; [apply grid_all_ones; auto|].
      intros dy s _ Hs.
      destruct ((0 <=? _) && _)%Z; auto.
      apply (grid_all_scale_row P P); auto.
      intros v Hv; apply Hmul; auto; lia.
    + intros dx s _ Hs.
      destruct ((0 <=? _) && _)%Z; auto.
      apply grid_all_scale_col; auto.
      intros v Hv; apply Hmul; auto; lia.
  - apply grid_all_ones; auto.
Qed.

(** *** The notch loops never divide by zero *)

Lemma notch_factor_ok (r d2 : Z) :
  (0 <= r)%Z -> (d2 <= r ^ 2)%Z ->
  notch_factor r d2 = Ok (notch_weight r d2).
Proof.
  intros Hr Hd; unfold notch_factor, notch_weight.
  destruct (0 <? d2)%Z eqn:E; auto.
  destruct (r =? 0)%Z eqn:E0; auto.
  apply Z.eqb_eq in E0; subst; simpl in Hd; lia.
Qed.

Lemma notch_step_ok (h w : nat) (r : Z) (py px : nat) (dy dx : Z)
  (mask : grid T) :
  notch_step h w r py px dy dx mask
  = Ok (notch_step_pure h w r py px dy dx mask).
Proof.
  unfold notch_step, notch_step_pure; cbv zeta.
  destruct ((0 <=? Z.of_nat py + dy) && (Z.of_nat py + dy <? Z.of_nat h)
            && ((0 <=? Z.of_nat px + dx) && (Z.of_nat px + dx <? Z.of_nat w)))%Z;
    [rewrite andb_true_l | rewrite andb_false_l; reflexivity].
  destruct ((0 <=? r) && (dy ^ 2 + dx ^ 2 <=? r ^ 2))%Z eqn:E; auto.
  rewrite notch_factor_ok by lia. reflexivity.
Qed.

Lemma notch_at_ok (h w : nat) (r : Z) (p : nat * nat) (mask : grid T) :
  notch_at h w r p mask = Ok (notch_at_pure h w r mask p).
Proof.
  destruct p as [py px]; unfold notch_at, notch_at_pure; simpl.
  apply for_each_pure; intros dy s _.
  apply for_each_pure; intros dx s' _.
  apply notch_step_ok.
Qed.

(** Whatever the radius and the peaks, the notch loops complete. *)
Lemma notch_mask_ok (h w : nat) (r : Z) (peak_coords : list (nat * nat)) :
  notch_mask h w r peak_coords
  = Ok (fold_left (notch_at_pure h w r) peak_coords (ones h w)).
Proof.
  unfold notch_mask; apply for_each_pure; intros p s _; apply notch_at_ok.
Qed.

Lemma is_grid_notch_step (h w : nat) (r : Z) (py px : nat) (dy dx : Z)
  (mask : grid T) :
  is_grid h w mask -> is_grid h w (notch_step_pure h w r py px dy dx mask).
Proof.
  intros Hm; unfold notch_step_pure.
  destruct (_ && _)%Z; auto using is_grid_upd2.
Qed.

Lemma is_grid_notch_at (h w : nat) (r : Z) (mask : grid T) (p : nat * nat) :
  is_grid h w mask -> is_grid h w (notch_at_pure h w r mask p).
Proof.
  intros Hm; unfold notch_at_pure.
  apply fold_left_inv; auto; intros dy s _ Hs.
  apply fold_left_inv; auto; intros dx s' _ Hs'.
  apply is_grid_notch_step; auto.
Qed.

Lemma is_grid_notch_fold (h w : nat) (r : Z) (peak_coords : list (nat * nat))
  (mask : grid T) :
  is_grid h w mask ->
  is_grid h w (fold_left (notch_at_pure h w r) peak_coords mask).
Proof.
  intros Hm; apply fold_left_inv; auto.
  intros p s _ Hs; apply is_grid_notch_at; auto.
Qed.

(** *** Each entry of the notch mask, followed through the loops *)

(** When every step of a fold acts on the entry at [(y, x)] by a function
    of that entry alone, so does the fold. *)
Lemma get_fold {A} (d : T) (h w : nat) (l : list A)
  (step : grid T -> A -> grid T) (phi : A -> T -> T) (y x : nat) (s : grid T) :
  (forall a s, is_grid h w s -> is_grid h w (step s a)) ->
  (forall a s, is_grid h w s -> get d (step s a) y x = phi a (get d s y x)) ->
  is_grid h w s ->
  get d (fold_left step l s) y x = fold_left (fun v a => phi a v) l (get d s y x).
Proof.
  intros Hgrid Hphi; revert s; induction l as [|a l IH]; intros s Hs; simpl;
    auto.
  rewrite IH by auto. rewrite Hphi by auto. reflexivity.
Qed.

Lemma get_notch_step (d : T) (h w : nat) (r : Z) (py px : nat) (dy dx : Z)
  (mask : grid T) (y x : nat) :
  is_grid h w mask -> (y < h)%nat -> (x < w)%nat ->
  get d (notch_step_pure h w r py px dy dx mask) y x
  = if hits r py px dy dx y x
    then nmul (get d mask y x) (notch_weight r (dy ^ 2 + dx ^ 2))
    else get d mask y x.
Proof.
  intros Hm Hy Hx; unfold notch_step_pure, hits; cbv zeta.
  destruct ((0 <=? r) && (dy ^ 2 + dx ^ 2 <=? r ^ 2))%Z eqn:Ec;
    [rewrite !andb_true_r | rewrite !andb_false_r; reflexivity].
  destruct ((0 <=? Z.of_nat py + dy) && (Z.of_nat py + dy <? Z.of_nat h)
            && ((0 <=? Z.of_nat px + dx) && (Z.of_nat px + dx <? Z.of_nat w)))%Z
    eqn:Eb.
  - destruct ((Z.of_nat y =? Z.of_nat py + dy)
              && (Z.of_nat x =? Z.of_nat px + dx))%Z eqn:Eh.
    + assert (Hy' : Z.to_nat (Z.of_nat py + dy) = y) by lia.
      assert (Hx' : Z.to_nat (Z.of_nat px + dx) = x) by lia.
      rewrite Hy', Hx'. apply (get_upd2_same d h w); auto.
    + apply get_upd2_other. intros Heq; inversion Heq; lia.
  - destruct ((Z.of_nat y =? Z.of_nat py + dy)
              && (Z.of_nat x =? Z.of_nat px + dx))%Z eqn:Eh; auto.
    lia.
Qed.

Lemma get_notch_at (d : T) (h w : nat) (r : Z) (mask : grid T) (p : nat * nat)
  (y x : nat) :
  is_grid h w mask -> (y < h)%nat -> (x < w)%nat ->
  get d (notch_at_pure h w r mask p) y x
  = if near r (fst p) (snd p) y x
    then nmul (get d mask y x) (notch_weight r (dist2 (fst p) (snd p) y x))
    else get d mask y x.
Proof.
  intros Hm Hy Hx; destruct p as [py px]; unfold notch_at_pure; simpl fst;
    simpl snd.
  set (sc := fun dy dx v =>
               if hits r py px dy dx y x
               then nmul v (notch_weight r (dy ^ 2 + dx ^ 2)) else v).
  rewrite (get_fold d h w _ _
             (fun dy v => fold_left (fun v dx => sc dy dx v)
                                    (range (- r) (r + 1)) v)); auto.
  2:{ intros dy s Hs; apply fold_left_inv; auto.
      intros dx s' _ Hs'; apply is_grid_notch_step; auto. }
  2:{ intros dy s Hs.
      apply (get_fold d h w _ _ (fun dx v => sc dy dx v)); auto.
      - intros dx s' Hs'; apply is_grid_notch_step; auto.
      - intros dx s' Hs'; apply get_notch_step; auto. }
  set (ey := (Z.of_nat y - Z.of_nat py)%Z).
  set (ex := (Z.of_nat x - Z.of_nat px)%Z).
  rewrite (fold_range_single _ _ ey).
  2:{ intros dy v Hdy; apply fold_left_id; intros dx v' _.
      unfold sc, hits. subst ey.
      destruct (Z.of_nat y =? Z.of_nat py + dy)%Z eqn:E; auto; lia. }
  rewrite (fold_range_single _ _ ex).
  2:{ intros dx v Hdx; unfold sc, hits; subst ex.
      destruct (Z.of_nat x =? Z.of_nat px + dx)%Z eqn:E;
        [lia | rewrite andb_false_r; reflexivity]. }
  unfold sc, hits, near, dist2; fold ey; fold ex.
  replace (Z.of_nat y =? Z.of_nat py + ey)%Z with true by (subst ey; lia).
  replace (Z.of_nat x =? Z.of_nat px + ex)%Z with true by (subst ex; lia).
  cbn [andb].
  destruct ((0 <=? r) && (ey ^ 2 + ex ^ 2 <=? r ^ 2))%Z eqn:Ec.
  - replace ((- r <=? ey) && (ey <? r + 1))%Z with true by nia.
    replace ((- r <=? ex) && (ex <? r + 1))%Z with true by nia.
    reflexivity.
  - destruct ((- r <=? ey) && (ey <? r + 1))%Z; auto.
    destruct ((- r <=? ex) && (ex <? r + 1))%Z; auto.
Qed.

(** The entry at [(y, x)] after the notches of all the peaks: starting from
    the entry of the initial mask, one multiplication for each peak within
    the radius, in the order of the peaks. *)
Lemma get_notch_fold (d : T) (h w : nat) (r : Z)
  (peak_coords : list (nat * nat)) (mask : grid T) (y x : nat) :
  is_grid h w mask -> (y < h)%nat -> (x < w)%nat ->
  get d (fold_left (notch_at_pure h w r) peak_coords mask) y x
  = fold_left
      (fun v p => if near r (fst p) (snd p) y x
                  then nmul v (notch_weight r (dist2 (fst p) (snd p) y x))
                  else v)
      peak_coords (get d mask y x).
Proof.
  intros Hm Hy Hx.
  apply (get_fold d h w peak_coords (notch_at_pure h w r)
           (fun p v => if near r (fst p) (snd p) y x
                       then nmul v (notch_weight r (dist2 (fst p) (snd p) y x))
                       else v)); auto.
  - intros p s Hs; apply is_grid_notch_at; auto.
  - intros p s Hs; apply get_notch_at; auto.
Qed.

Lemma get_ones (d : T) (h w y x : nat) :
  (y < h)%nat -> (x < w)%nat -> get d (ones h w) y x = n1.
Proof.
  intros Hy Hx; unfold get, ones.
  rewrite (nth_indep _ [] (repeat n1 w)) by (rewrite repeat_length; auto).
  rewrite nth_repeat.
  rewrite (nth_indep _ d n1) by (rewrite repeat_length; auto).
  apply nth_repeat.
Qed.

Lemma grid_all_of_get {A} (P : A -> Prop) (d : A) (h w : nat) (g : grid A) :
  is_grid h w g ->
  (forall y x, (y < h)%nat -> (x < w)%nat -> P (get d g y x)) ->
  grid_all P g.
Proof.
  intros Hg Hget; unfold grid_all.
  apply Forall_forall; intros row Hrow.
  apply (In_nth _ _ []) in Hrow as [y [Hy <-]].
  destruct Hg as [Hh Hw] eqn:E. rewrite Hh in Hy.
  apply Forall_forall; intros v Hv.
  apply (In_nth _ _ d) in Hv as [x [Hx <-]].
  rewrite (is_grid_nth y Hg Hy) in Hx.
  apply (Hget y x Hy Hx).
Qed.

End MaskFacts.

(** ** The masks over exact rationals *)

Lemma in_unit_mul (a b : Q) : in_unit a -> in_unit b -> in_unit (a * b).
Proof.
  intros [Ha0 Ha1] [Hb0 Hb1]; split.
  - apply Qmult_le_0_compat; auto.
  - apply Qle_trans with (1 * b); [|lra].
    apply Qmult_le_compat_r; auto.
Qed.

Lemma inject_Z_pos (z : Z) : (0 < z)%Z -> 0 < inject_Z z.
Proof. intros Hz; change 0 with (inject_Z 0); rewrite <- Zlt_Qlt; auto. Qed.

Lemma inject_Z_nonneg (z : Z) : (0 <= z)%Z -> 0 <= inject_Z z.
Proof. intros Hz; change 0 with (inject_Z 0); rewrite <- Zle_Qle; auto. Qed.

Lemma inject_Z_nonzero (z : Z) : (z <> 0)%Z -> ~ inject_Z z == 0.
Proof.
  intros Hz H0; apply Hz.
  unfold Qeq in H0; simpl in H0; lia.
Qed.

(** The linear falloff [(2 line_width - dist) / line_width]. *)
Lemma falloff_pos (lw dist : Z) :
  (0 < lw)%Z -> (dist < lw * 2)%Z ->
  0 < inject_Z (lw * 2 - dist) / inject_Z lw.
Proof.
  intros Hlw Hd.
  apply Qlt_shift_div_l.
  - apply inject_Z_pos; lia.
  - rewrite Qmult_0_l. apply inject_Z_pos; lia.
Qed.

Lemma falloff_decreasing (lw d1 d2 : Z) :
  (0 < lw)%Z -> (d1 < d2)%Z ->
  inject_Z (lw * 2 - d2) / inject_Z lw < inject_Z (lw * 2 - d1) / inject_Z lw.
Proof.
  intros Hlw Hd.
  unfold Qdiv. apply Qmult_lt_compat_r.
  - apply Qinv_lt_0_compat, inject_Z_pos; lia.
  - rewrite <- Zlt_Qlt. lia.
Qed.

Lemma falloff_at_width (lw : Z) :
  (0 < lw)%Z -> inject_Z (lw * 2 - lw) / inject_Z lw == 1.
Proof.
  intros Hlw. replace (lw * 2 - lw)%Z with lw by lia.
  field. apply inject_Z_nonzero; lia.
Qed.

Lemma falloff_below_one (lw dist : Z) :
  (0 < lw)%Z -> (lw < dist)%Z ->
  inject_Z (lw * 2 - dist) / inject_Z lw < 1.
Proof.
  intros Hlw Hd.
  rewrite <- (falloff_at_width lw Hlw).
  apply falloff_decreasing; auto.
Qed.

(** The reduction at the rational carrier, case by case. *)
Lemma band_reduction_inner (lw : Z) (att : Q) (d : Z) :
  (Z.abs d <= lw)%Z -> band_reduction lw att d = att.
Proof.
  intros Hd; unfold band_reduction; cbv zeta.
  destruct (Z.abs d <=? lw)%Z eqn:E; auto; lia.
Qed.

Lemma band_reduction_slope (lw : Z) (att : Q) (d : Z) :
  (lw < Z.abs d < lw * 2)%Z ->
  band_reduction lw att d
  = att * (inject_Z (lw * 2 - Z.abs d) / inject_Z lw).
Proof.
  intros Hd; unfold band_reduction; cbv zeta.
  destruct (Z.abs d <=? lw)%Z eqn:E; [lia|].
  destruct (Z.abs d <? lw * 2)%Z eqn:E2; [reflexivity | lia].
Qed.

Lemma band_reduction_outer (lw : Z) (att : Q) (d : Z) :
  (lw < Z.abs d)%Z -> (lw * 2 <= Z.abs d)%Z ->
  band_reduction lw att d = att * 0.
Proof.
  intros Hd Hd2; unfold band_reduction; cbv zeta.
  destruct (Z.abs d <=? lw)%Z eqn:E; [lia|].
  destruct (Z.abs d <? lw * 2)%Z eqn:E2; [lia | reflexivity].
Qed.

Lemma band_reduction_bounds (lw : Z) (att : Q) (d : Z) :
  (0 < lw)%Z -> 0 <= att ->
  0 <= band_reduction lw att d /\ band_reduction lw att d <= att.
Proof.
  intros Hlw Ha.
  destruct (Z_le_gt_dec (Z.abs d) lw) as [H1|H1].
  - rewrite band_reduction_inner by auto. split; lra.
  - destruct (Z_lt_ge_dec (Z.abs d) (lw * 2)) as [H2|H2].
    + rewrite band_reduction_slope by lia.
      pose proof (falloff_pos lw (Z.abs d) Hlw H2) as Hp.
      assert (Hb : inject_Z (lw * 2 - Z.abs d) / inject_Z lw < 1)
        by (apply falloff_below_one; lia).
      split.
      * apply Qmult_le_0_compat; lra.
      * rewrite <- (Qmult_1_r att) at 2.
        rewrite (Qmult_comm att), (Qmult_comm att 1).
        apply Qmult_le_compat_r; lra.
    + rewrite band_reduction_outer by lia. split; lra.
Qed.






(** *** Values of the two masks *)

Lemma in_unit_one : in_unit 1.
Proof. split; lra. Qed.

Lemma in_unit_line_factor (lw : Z) (att : Q) (d : Z) :
  (0 < lw)%Z -> in_unit att -> in_unit (1 - band_reduction lw att d).
Proof.
  intros Hlw [Ha0 Ha1].
  destruct (band_reduction_bounds lw att d Hlw Ha0) as [Hb0 Hb1].
  split; lra.
Qed.

Lemma notch_weight_Q (r d2 : Z) :
  @notch_weight Q _ r d2
  = if (0 <? d2)%Z then inject_Z d2 / inject_Z (r * r) else 0.
Proof. reflexivity. Qed.

Lemma in_unit_notch_weight (r d2 : Z) :
  (0 <= r)%Z -> (d2 <= r ^ 2)%Z -> in_unit (@notch_weight Q _ r d2).
Proof.
  intros Hr Hd; rewrite notch_weight_Q.
  destruct (0 <? d2)%Z eqn:E; [|split; lra].
  assert (Hrr : (0 < r * r)%Z) by nia.
  split.
  - apply Qle_shift_div_l; [apply inject_Z_pos; auto|].
    rewrite Qmult_0_l; apply inject_Z_nonneg; lia.
  - apply Qle_shift_div_r; [apply inject_Z_pos; auto|].
    rewrite Qmult_1_l, <- Zle_Qle. nia.
Qed.

Lemma percentile_ok (a : list Q) (q : Q) :
  0 <= q -> q <= 100 -> exists t, percentile a q = Ok t.
Proof.
  intros H0 H100; unfold percentile.
  assert (E1 : nltb q n0 = false).
  { simpl. apply negb_false_iff, Qle_bool_iff; auto. }
  assert (E2 : nltb (nofZ 100) q = false).
  { simpl. apply negb_false_iff, Qle_bool_iff; auto. }
  rewrite E1, E2; simpl orb. eauto.
Qed.

Lemma percentile_range (a : list Q) (q : Q) :
  ~ (0 <= q /\ q <= 100) -> percentile a q = Err PercentileRange.
Proof.
  intros Hq; unfold percentile.
  destruct (nltb q n0 || nltb (nofZ 100) q) eqn:E; auto.
  exfalso; apply Hq.
  apply orb_false_iff in E as [E1 E2]; simpl in E1, E2.
  apply negb_false_iff in E1, E2.
  apply Qle_bool_iff in E1, E2. auto.
Qed.

(** The entry of the notch mask at an in-range bin: a product over the
    peaks, each factor in the unit interval. *)
Lemma in_unit_notch_entry (r : Z) (peak_coords : list (nat * nat))
  (y x : nat) (v : Q) :
  in_unit v ->
  in_unit
    (fold_left
       (fun v p => if near r (fst p) (snd p) y x
                   then nmul v (notch_weight r (dist2 (fst p) (snd p) y x))
                   else v)
       peak_coords v).
Proof.
  revert v; induction peak_coords as [|p l IH]; intros v Hv; simpl; auto.
  apply IH.
  destruct (near r (fst p) (snd p) y x) eqn:E; auto.
  apply in_unit_mul; auto.
  unfold near in E. apply in_unit_notch_weight; unfold dist2; lia.
Qed.

(** C4: for every magnitude spectrum and every configuration with an
    attenuation in [0, 1] and a percentile in [0, 100], both masks are
    built, have the shape of the channel, and all their values lie in
    [0, 1].  (The bounds of the claim on the radii are not needed.) *)
Theorem masks_bounded (magnitude : grid Q) (h w : nat)
  (threshold_percentile attenuation : Q)
  (notch_radius line_width protect_center : Z) :
  0 <= attenuation <= 1 ->
  0 <= threshold_percentile <= 100 ->
  (is_grid h w (lines_mask h w line_width protect_center attenuation)
   /\ grid_all in_unit (lines_mask h w line_width protect_center attenuation))
  /\ exists mask,
       peaks_mask magnitude threshold_percentile notch_radius protect_center
       = Ok mask
       /\ is_grid (height magnitude) (width magnitude) mask
       /\ grid_all in_unit mask.
Proof.
  intros Ha [Hp0 Hp100]; split; [split|].
  - apply is_grid_lines_mask.
  - apply grid_all_lines_mask; [apply in_unit_one|].
    intros v d Hlw Hv. apply in_unit_mul; auto.
    apply in_unit_line_factor; auto.
  - unfold peaks_mask, threshold_of.
    destruct (percentile_ok
                (concat (magnitude_for_threshold magnitude protect_center))
                threshold_percentile Hp0 Hp100) as [t Et].
    rewrite Et; simpl bind. rewrite notch_mask_ok.
    eexists; split; [reflexivity|].
    match goal with
    | |- is_grid _ _ ?m /\ _ =>
        assert (Hg : is_grid (height magnitude) (width magnitude) m)
          by apply is_grid_notch_fold, is_grid_ones
    end.
    split; auto.
    apply (grid_all_of_get in_unit 0 _ _ _ Hg); intros y x Hy Hx.
    rewrite (get_notch_fold 0 (height magnitude) (width magnitude))
      by auto using is_grid_ones.
    apply in_unit_notch_entry.
    rewrite get_ones by auto. apply in_unit_one.
Qed.

Lemma masks_bounded_witness :
  grid_all in_unit (lines_mask 4 6 2 1 (99 # 100))
  /\ exists mask,
       peaks_mask [[0; 0]; [2; 2]] 50 2 1 = Ok mask /\ grid_all in_unit mask.
Proof.
  destruct (masks_bounded [[0; 0]; [2; 2]] 4 6 50 (99 # 100) 2 2 1)
    as [[_ Hl] [mask [E [_ Hm]]]].
  - split; unfold Qle; simpl; lia.
  - split; unfold Qle; simpl; lia.
  - split; [exact Hl | exists mask; auto].
Defined.

(** *** The peaks that [np.where] lists *)

Lemma in_where_true (sel : grid bool) (y x : nat) :
  In (y, x) (where_true sel) <-> get false sel y x = true.
Proof.
  unfold where_true, get; rewrite in_flat_map; split.
  - intros [y' [Hy' Hin]].
    apply in_map_iff in Hin as [x' [Heq Hx']].
    inversion Heq; subst. apply filter_In in Hx' as [_ Hx']; exact Hx'.
  - intros Hget.
    assert (Hx : (x < length (nth y sel []))%nat).
    { destruct (Nat.lt_ge_cases x (length (nth y sel []))); auto.
      rewrite nth_overflow in Hget by auto; discriminate. }
    assert (Hy : (y < length sel)%nat).
    { destruct (Nat.lt_ge_cases y (length sel)); auto.
      rewrite (nth_overflow sel) in Hx by auto; simpl in Hx; lia. }
    exists y; split; [apply in_seq; lia|].
    apply in_map_iff; exists x; split; auto.
    apply filter_In; split; auto. apply in_seq; lia.
Qed.

Lemma NoDup_flat_map_seq {B} (f : nat -> list (nat * B)) (s n : nat) :
  (forall y, NoDup (f y)) ->
  (forall y p, In p (f y) -> fst p = y) ->
  NoDup (flat_map f (seq s n)).
Proof.
  intros Hnd Hfst; revert s; induction n as [|n IH]; intros s; simpl.
  - constructor.
  - apply NoDup_app; auto.
    intros p Hp Hin. apply in_flat_map in Hin as [y [Hy Hin]].
    apply in_seq in Hy. apply Hfst in Hp, Hin. lia.
Qed.

(** Each true entry is listed once. *)
Lemma NoDup_where_true (sel : grid bool) : NoDup (where_true sel).
Proof.
  unfold where_true; apply NoDup_flat_map_seq.
  - intros y. apply Injective_map_NoDup.
    + intros a b Hab; inversion Hab; auto.
    + apply NoDup_filter, seq_NoDup.
  - intros y p Hp. apply in_map_iff in Hp as [x [<- _]]; reflexivity.
Qed.

(** *** The protected disc under the two policies *)

(** The line policy ends with [mask[center_mask] = 1.0]: whatever the
    arithmetic, its mask is the constant 1 on the protected disc. *)
Lemma lines_mask_protects_center {T} `{Num T} (d : T) (h w : nat)
  (line_width protect_center : Z) (attenuation : T) (y x : nat) :
  (y < h)%nat -> (x < w)%nat ->
  get false (center_disc h w protect_center) y x = true ->
  get d (lines_mask h w line_width protect_center attenuation) y x = n1.
Proof.
  intros Hy Hx Hdisc. rewrite get_lines_mask by auto.
  rewrite Hdisc; reflexivity.
Qed.

(** The DC bin [(h // 2, w // 2)] lies in the disc for every radius. *)
Lemma dc_in_center_disc (h w : nat) (protect_center : Z) :
  (0 < h)%nat -> (0 < w)%nat ->
  get false (center_disc h w protect_center) (h / 2) (w / 2) = true.
Proof.
  intros Hh Hw.
  assert (Hy : (h / 2 < h)%nat) by (apply Nat.div_lt; lia).
  assert (Hx : (w / 2 < w)%nat) by (apply Nat.div_lt; lia).
  rewrite get_center_disc by auto.
  rewrite !Nat2Z.inj_div; change (Z.of_nat 2) with 2%Z.
  rewrite !Z.sub_diag. apply Z.leb_le. nia.
Qed.

(** The peak policy on the magnitudes [[0, 0], [2, 2]] with
    [threshold_percentile = 50], [notch_radius = 2] and [protect_center = 0],
    in exact rational arithmetic: the disc is the DC bin (1, 1), bin (1, 0)
    is the only peak kept, and the mask is 1/4 at the DC bin. *)
Lemma peaks_mask_rational_example :
  get false (center_disc 2 2 0) 1 1 = true
  /\ threshold_of [[0; 0]; [2; 2]] 50 0 = Ok (0 # 100)
  /\ where_true (peaks_of [[0; 0]; [2; 2]] (0 # 100) 0) = [(1%nat, 0%nat)]
  /\ peaks_mask [[0; 0]; [2; 2]] 50 2 0
     = Ok [[1 # 4; 2 # 4]; [0; 1 # 4]]
  /\ ~ (1 # 4) == 1.
Proof.
  repeat split; try reflexivity.
  intros H; discriminate H.
Qed.

(** *** C2: the disc takes part in the percentile, as zeros *)

(** C2 (counterexample): on the magnitudes [[1, 3], [5, 9]] (those of the
    channel [[4.5, 1.5], [2.5, 0.5]], lemma [forward_2x2_example]) with
    [protect_center = 0] the values outside the disc are 1, 3, 5, whose
    median is 3; the code takes the median of 0, 1, 3, 5, which is 2. *)
Lemma threshold_not_over_outside_values :
  values_outside_disc [[1; 3]; [5; 9]] 0 = [1; 3; 5]
  /\ percentile (values_outside_disc [[1; 3]; [5; 9]] 0) 50 = Ok (300 # 100)
  /\ threshold_of [[1; 3]; [5; 9]] 50 0 = Ok (200 # 100)
  /\ ~ (200 # 100) == (300 # 100)
  /\ threshold_of [[1; 3]; [5; 9]] 50 0
     <> percentile (values_outside_disc [[1; 3]; [5; 9]] 0) 50.
Proof.
  repeat split; try reflexivity; intros H; discriminate H.
Qed.

Lemma length_concat_grid {A} (h w : nat) (g : grid A) :
  is_grid h w g -> length (concat g) = (h * w)%nat.
Proof.
  intros [Hh Hw]; subst h; induction g as [|r g IH]; simpl; auto.
  inversion Hw; subst. rewrite length_app, IH; auto.
Qed.

Lemma nth_concat_grid {A} (d : A) (h w : nat) (g : grid A) (y x : nat) :
  is_grid h w g -> (y < h)%nat -> (x < w)%nat ->
  nth (y * w + x) (concat g) d = get d g y x.
Proof.
  intros [Hh Hw]; subst h; revert y; induction g as [|r g IH];
    intros y Hy Hx; simpl in *; [lia|].
  inversion Hw; subst.
  destruct y as [|y]; unfold get; simpl.
  - apply app_nth1; lia.
  - rewrite app_nth2 by nia.
    replace (length r + y * length r + x - length r)%nat
      with (y * length r + x)%nat by lia.
    apply IH; auto; lia.
Qed.

(** C2 (amended): the threshold is the percentile of all [h * w] values of
    the copy of the magnitude array in which the bins of the protected disc
    are 0; those bins take part in the ranking, as zeros. *)
Theorem threshold_over_zeroed_disc (magnitude : grid Q) (h w : nat)
  (threshold_percentile : Q) (protect_center : Z) :
  is_grid h w magnitude -> (0 < h)%nat ->
  let values := concat (magnitude_for_threshold magnitude protect_center) in
  threshold_of magnitude threshold_percentile protect_center
  = percentile values threshold_percentile
  /\ length values = (h * w)%nat
  /\ forall y x, (y < h)%nat -> (x < w)%nat ->
       nth (y * w + x) values 0
       = if get false (center_disc h w protect_center) y x then 0
         else get 0 magnitude y x.
Proof.
  intros Hg Hh values.
  assert (Hgz : is_grid h w (magnitude_for_threshold magnitude protect_center)).
  { unfold magnitude_for_threshold.
    rewrite (is_grid_height h w magnitude Hg), (is_grid_width h w magnitude Hg Hh).
    apply is_grid_set_where; auto. apply is_grid_center_disc. }
  split; [reflexivity | split].
  - apply length_concat_grid; auto.
  - intros y x Hy Hx. unfold values.
    rewrite (nth_concat_grid 0 h w) by auto.
    unfold magnitude_for_threshold.
    rewrite (is_grid_height h w magnitude Hg), (is_grid_width h w magnitude Hg Hh).
    apply (get_set_where 0 h w); auto. apply is_grid_center_disc.
Qed.

Lemma threshold_over_zeroed_disc_witness :
  threshold_of [[1; 3]; [5; 9]] 50 0 = percentile [1; 3; 5; 0] 50.
Proof.
  destruct (threshold_over_zeroed_disc [[1; 3]; [5; 9]] 2 2 50 0) as [E _].
  - split; [reflexivity | repeat constructor].
  - lia.
  - exact E.
Defined.

(** *** C3: radius 0 never reaches the division *)


(** A bin near no peak keeps its entry, whatever the arithmetic. *)
Lemma notch_entry_far {T} `{Num T} (r : Z) (peak_coords : list (nat * nat))
  (y x : nat) (v : T) :
  (forall p, In p peak_coords -> near r (fst p) (snd p) y x = false) ->
  fold_left
    (fun v p => if near r (fst p) (snd p) y x
                then nmul v (notch_weight r (dist2 (fst p) (snd p) y x))
                else v)
    peak_coords v = v.
Proof.
  intros Hfar; apply fold_left_id; intros p v' Hp.
  rewrite Hfar by auto; reflexivity.
Qed.





(** ** Tiling *)

Lemma fold_seq_single {St} (n e : nat) (step : St -> nat -> St) (s : St) :
  (forall d s, d <> e -> step s d = s) ->
  fold_left step (seq 0 n) s = if (e <? n)%nat then step s e else s.
Proof.
  intros Hstep.
  destruct (Nat.ltb_spec e n) as [Hlt|Hge].
  - replace n with (e + S (n - S e))%nat by lia.
    rewrite seq_app, fold_left_app; simpl.
    rewrite (fold_left_id (seq 0 e)); [apply fold_left_id|].
    + intros d s' Hd; apply Hstep; apply in_seq in Hd; lia.
    + intros d s' Hd; apply Hstep; apply in_seq in Hd; lia.
  - apply fold_left_id; intros d s' Hd; apply Hstep.
    apply in_seq in Hd; lia.
Qed.

Lemma length_blit_row {P} (x0 : nat) (t row : list P) :
  (x0 + length t <= length row)%nat ->
  length (blit_row x0 t row) = length row.
Proof.
  intros Hle; unfold blit_row.
  rewrite !length_app, length_firstn, length_skipn; lia.
Qed.

Lemma nth_blit_row {P} (d : P) (x0 : nat) (t row : list P) (x : nat) :
  (x0 + length t <= length row)%nat ->
  nth x (blit_row x0 t row) d
  = if ((x0 <=? x) && (x <? x0 + length t))%nat then nth (x - x0) t d
    else nth x row d.
Proof.
  intros Hle; unfold blit_row.
  destruct (Nat.leb_spec x0 x) as [H1|H1]; simpl andb.
  - rewrite app_nth2 by (rewrite length_firstn; lia).
    rewrite length_firstn, Nat.min_l by lia.
    destruct (Nat.ltb_spec x (x0 + length t)) as [H2|H2].
    + apply app_nth1; lia.
    + rewrite app_nth2 by lia.
      rewrite nth_skipn. f_equal; lia.
  - rewrite app_nth1 by (rewrite length_firstn; lia).
    rewrite nth_firstn.
    destruct (Nat.ltb_spec x x0); [reflexivity | lia].
Qed.

Lemma length_blit {P} (y0 x0 : nat) (tile res : grid P) :
  (y0 + length tile <= length res)%nat ->
  length (blit y0 x0 tile res) = length res.
Proof.
  intros Hle; unfold blit.
  rewrite !length_app, length_zip_with, !length_firstn, !length_skipn; lia.
Qed.

Lemma nth_blit {P} (y0 x0 : nat) (tile res : grid P) (y : nat) :
  (y0 + length tile <= length res)%nat ->
  nth y (blit y0 x0 tile res) []
  = if ((y0 <=? y) && (y <? y0 + length tile))%nat
    then blit_row x0 (nth (y - y0) tile []) (nth y res [])
    else nth y res [].
Proof.
  intros Hle; unfold blit.
  destruct (Nat.leb_spec y0 y) as [H1|H1]; simpl andb.
  - rewrite app_nth2 by (rewrite length_firstn; lia).
    rewrite length_firstn, Nat.min_l by lia.
    destruct (Nat.ltb_spec y (y0 + length tile)) as [H2|H2].
    + rewrite app_nth1
        by (rewrite length_zip_with, length_firstn, length_skipn; lia).
      rewrite (nth_zip_with (blit_row x0) _ _ _ [] [] [])
        by (rewrite ?length_firstn, ?length_skipn; lia).
      f_equal. rewrite nth_firstn.
      destruct (Nat.ltb_spec (y - y0) (length tile)); [|lia].
      rewrite nth_skipn. f_equal; lia.
    + rewrite app_nth2
        by (rewrite length_zip_with, length_firstn, length_skipn; lia).
      rewrite length_zip_with, length_firstn, length_skipn.
      rewrite nth_skipn. f_equal; lia.
  - rewrite app_nth1 by (rewrite length_firstn; lia).
    rewrite nth_firstn.
    destruct (Nat.ltb_spec y y0); [reflexivity | lia].
Qed.

Lemma is_grid_blit {P} (gh gw h w : nat) (y0 x0 : nat) (tile res : grid P) :
  is_grid gh gw res -> is_grid h w tile ->
  (y0 + h <= gh)%nat -> (x0 + w <= gw)%nat ->
  is_grid gh gw (blit y0 x0 tile res).
Proof.
  intros Hres Htile Hy Hx.
  assert (Hlen : length (blit y0 x0 tile res) = gh).
  { rewrite length_blit; destruct Hres, Htile; lia. }
  split; auto.
  apply Forall_forall; intros row Hrow.
  apply (In_nth _ _ []) in Hrow as [y [Hylt <-]].
  rewrite Hlen in Hylt.
  rewrite nth_blit by (destruct Hres, Htile; lia).
  assert (Hth : length tile = h) by (destruct Htile; auto).
  destruct (Nat.leb_spec y0 y) as [H1|H1];
    destruct (Nat.ltb_spec y (y0 + length tile)) as [H2|H2]; cbn [andb];
    try apply (is_grid_nth y Hres Hylt).
  rewrite length_blit_row; [apply (is_grid_nth y Hres Hylt)|].
  rewrite (is_grid_nth y Hres Hylt).
  rewrite (is_grid_nth (y - y0) Htile); lia.
Qed.

Lemma get_blit {P} (d : P) (gh gw h w : nat) (y0 x0 : nat)
  (tile res : grid P) (y x : nat) :
  is_grid gh gw res -> is_grid h w tile ->
  (y0 + h <= gh)%nat -> (x0 + w <= gw)%nat ->
  (y < gh)%nat -> (x < gw)%nat ->
  get d (blit y0 x0 tile res) y x
  = if ((y0 <=? y) && (y <? y0 + h) && ((x0 <=? x) && (x <? x0 + w)))%nat
    then get d tile (y - y0) (x - x0)
    else get d res y x.
Proof.
  intros Hres Htile Hyb Hxb Hy Hx; unfold get.
  assert (Hth : length tile = h) by (destruct Htile; auto).
  rewrite nth_blit by (destruct Hres; lia). rewrite Hth.
  destruct (Nat.leb_spec y0 y) as [H1|H1];
    destruct (Nat.ltb_spec y (y0 + h)) as [H2|H2]; cbn [andb]; auto.
  assert (Hrow : length (nth (y - y0) tile []) = w)
    by (apply (is_grid_nth (y - y0) Htile); lia).
  rewrite nth_blit_row by (rewrite Hrow, (is_grid_nth y Hres Hy); lia).
  rewrite Hrow. reflexivity.
Qed.

Lemma is_grid_flipud {P} (h w : nat) (a : grid P) :
  is_grid h w a -> is_grid h w (flipud a).
Proof.
  intros [Hh Hw]; unfold flipud; split.
  - rewrite length_rev; auto.
  - apply Forall_rev; auto.
Qed.

Lemma is_grid_fliplr {P} (h w : nat) (a : grid P) :
  is_grid h w a -> is_grid h w (fliplr a).
Proof.
  intros [Hh Hw]; unfold fliplr; split.
  - rewrite length_map; auto.
  - apply Forall_forall; intros r Hr.
    apply in_map_iff in Hr as [r0 [<- Hr0]].
    rewrite length_rev. rewrite Forall_forall in Hw; auto.
Qed.

Lemma get_flipud {P} (d : P) (h w : nat) (a : grid P) (y x : nat) :
  is_grid h w a -> (y < h)%nat ->
  get d (flipud a) y x = get d a (h - 1 - y) x.
Proof.
  intros [Hh Hw] Hy; unfold get, flipud.
  rewrite rev_nth by lia. do 2 f_equal. lia.
Qed.

Lemma get_fliplr {P} (d : P) (h w : nat) (a : grid P) (y x : nat) :
  is_grid h w a -> (y < h)%nat -> (x < w)%nat ->
  get d (fliplr a) y x = get d a y (w - 1 - x).
Proof.
  intros Ha Hy Hx; unfold get, fliplr.
  pose proof (is_grid_nth y Ha Hy) as Hlen. destruct Ha as [Hh Hw].
  rewrite (nth_indep _ [] (rev [])) by (rewrite length_map; lia).
  rewrite (map_nth (@rev P)).
  rewrite rev_nth by lia. f_equal. lia.
Qed.

Lemma is_grid_make_tile {P} (h w : nat) (mirror : bool) (tx ty : nat)
  (img : grid P) :
  is_grid h w img -> is_grid h w (make_tile mirror tx ty img).
Proof.
  intros Hi; unfold make_tile; cbv zeta.
  destruct (if mirror then _ else _), (if mirror then _ else _);
    auto using is_grid_flipud, is_grid_fliplr.
Qed.

(** The sample of a tile, as an index into the image. *)
Lemma get_make_tile {P} (d : P) (h w : nat) (mirror : bool) (tx ty : nat)
  (img : grid P) (i j : nat) :
  is_grid h w img -> (i < h)%nat -> (j < w)%nat ->
  get d (make_tile mirror tx ty img) i j
  = get d img
        (if mirror && (ty mod 2 =? 1)%nat then (h - 1 - i)%nat else i)
        (if mirror && (tx mod 2 =? 1)%nat then (w - 1 - j)%nat else j).
Proof.
  intros Hi Hy Hx; unfold make_tile; cbv zeta.
  destruct mirror; cbn [andb]; auto.
  destruct (ty mod 2 =? 1)%nat, (tx mod 2 =? 1)%nat; auto.
  - rewrite (get_fliplr d h w) by auto using is_grid_flipud.
    apply (get_flipud d h w); auto.
  - apply (get_flipud d h w); auto.
  - apply (get_fliplr d h w); auto.
Qed.

Lemma get_fold_in {A P} (d : P) (h w : nat) (l : list A)
  (step : grid P -> A -> grid P) (phi : A -> P -> P) (y x : nat) (s : grid P) :
  (forall a s, In a l -> is_grid h w s -> is_grid h w (step s a)) ->
  (forall a s, In a l -> is_grid h w s ->
               get d (step s a) y x = phi a (get d s y x)) ->
  is_grid h w s ->
  get d (fold_left step l s) y x = fold_left (fun v a => phi a v) l (get d s y x).
Proof.
  revert s; induction l as [|a l IH]; intros s Hgrid Hphi Hs; simpl; auto.
  rewrite IH; auto.
  - rewrite Hphi; simpl; auto.
  - intros; apply Hgrid; simpl; auto.
  - intros; apply Hphi; simpl; auto.
  - apply Hgrid; simpl; auto.
Qed.

Lemma tile_loop_assign3 {A} (h w tiles_x tiles_y : nat) (mirror : bool)
  (img res : grid (list A)) :
  tile_loop h w tiles_x tiles_y mirror img (@assign3 A) res
  = Ok (tiles_pure h w tiles_x tiles_y mirror img res).
Proof.
  unfold tile_loop, tiles_pure.
  apply for_each_pure; intros ty s _.
  apply for_each_pure; intros tx s' _. reflexivity.
Qed.

Lemma is_grid_tiles {P} (h w tiles_x tiles_y : nat) (mirror : bool)
  (img res : grid P) :
  is_grid h w img -> is_grid (h * tiles_y) (w * tiles_x) res ->
  is_grid (h * tiles_y) (w * tiles_x)
          (tiles_pure h w tiles_x tiles_y mirror img res).
Proof.
  intros Hi Hr; unfold tiles_pure.
  apply fold_left_inv; auto; intros ty s Hty Hs.
  apply fold_left_inv; auto; intros tx s' Htx Hs'.
  apply in_seq in Hty, Htx.
  apply is_grid_blit with (h := h) (w := w);
        auto using is_grid_make_tile; nia.
Qed.

(** Each block of the result is the tile of its tile coordinates. *)
Lemma get_tiles {P} (d : P) (h w tiles_x tiles_y : nat) (mirror : bool)
  (img res : grid P) (ty tx i j : nat) :
  is_grid h w img -> is_grid (h * tiles_y) (w * tiles_x) res ->
  (ty < tiles_y)%nat -> (tx < tiles_x)%nat -> (i < h)%nat -> (j < w)%nat ->
  get d (tiles_pure h w tiles_x tiles_y mirror img res)
      (ty * h + i) (tx * w + j)
  = get d (make_tile mirror tx ty img) i j.
Proof.
  intros Hi Hr Hty Htx Hi' Hj'; unfold tiles_pure.
  set (Y := (ty * h + i)%nat). set (X := (tx * w + j)%nat).
  assert (HY : (Y < h * tiles_y)%nat) by (subst Y; nia).
  assert (HX : (X < w * tiles_x)%nat) by (subst X; nia).
  set (hit := fun ty' tx' =>
                ((ty' * h <=? Y) && (Y <? ty' * h + h)
                 && ((tx' * w <=? X) && (X <? tx' * w + w)))%nat).
  set (sc := fun ty' tx' (v : P) =>
               if hit ty' tx'
               then get d (make_tile mirror tx' ty' img)
                        (Y - ty' * h) (X - tx' * w)
               else v).
  rewrite (get_fold_in d (h * tiles_y) (w * tiles_x) _ _
             (fun ty' v => fold_left (fun v tx' => sc ty' tx' v)
                                     (seq 0 tiles_x) v)); auto.
  2:{ intros ty' s Hin Hs. apply fold_left_inv; auto.
      intros tx' s' Hin' Hs'. apply in_seq in Hin, Hin'.
      apply is_grid_blit with (h := h) (w := w);
        auto using is_grid_make_tile; nia. }
  2:{ intros ty' s Hin Hs. apply in_seq in Hin.
      apply (get_fold_in d (h * tiles_y) (w * tiles_x) _ _
               (fun tx' v => sc ty' tx' v)); auto.
      - intros tx' s' Hin' Hs'. apply in_seq in Hin'.
        apply is_grid_blit with (h := h) (w := w);
        auto using is_grid_make_tile; nia.
      - intros tx' s' Hin' Hs'. apply in_seq in Hin'.
        apply get_blit with (gh := (h * tiles_y)%nat) (gw := (w * tiles_x)%nat);
          auto using is_grid_make_tile; nia. }
  rewrite (fold_seq_single _ ty).
  2:{ intros ty' v Hne. apply fold_left_id; intros tx' v' _.
      unfold sc, hit.
      replace ((ty' * h <=? Y) && (Y <? ty' * h + h))%nat with false; auto.
      symmetry; apply andb_false_iff.
      destruct (Nat.leb_spec (ty' * h) Y); auto.
      right; apply Nat.ltb_ge. subst Y. nia. }
  replace (ty <? tiles_y)%nat with true by (symmetry; apply Nat.ltb_lt; auto).
  rewrite (fold_seq_single _ tx).
  2:{ intros tx' v Hne. unfold sc, hit.
      replace ((tx' * w <=? X) && (X <? tx' * w + w))%nat with false;
        [rewrite andb_false_r; reflexivity|].
      symmetry; apply andb_false_iff.
      destruct (Nat.leb_spec (tx' * w) X); auto.
      right; apply Nat.ltb_ge. subst X. nia. }
  replace (tx <? tiles_x)%nat with true by (symmetry; apply Nat.ltb_lt; auto).
  unfold sc, hit.
  replace ((ty * h <=? Y) && (Y <? ty * h + h))%nat with true
    by (symmetry; apply andb_true_iff; split;
        [apply Nat.leb_le | apply Nat.ltb_lt]; subst Y; lia).
  replace ((tx * w <=? X) && (X <? tx * w + w))%nat with true
    by (symmetry; apply andb_true_iff; split;
        [apply Nat.leb_le | apply Nat.ltb_lt]; subst X; lia).
  cbn [andb]. f_equal; subst Y X; lia.
Qed.

Lemma make_tile_map {P Q'} (f : P -> Q') (mirror : bool) (tx ty : nat)
  (img : grid P) :
  make_tile mirror tx ty (map (map f) img)
  = map (map f) (make_tile mirror tx ty img).
Proof.
  unfold make_tile, flipud, fliplr; cbv zeta.
  destruct (if mirror then _ else _), (if mirror then _ else _); auto.
  - rewrite <- map_rev, !map_map.
    apply map_ext; intros r; symmetry; apply map_rev.
  - rewrite !map_map. apply map_ext; intros r; symmetry; apply map_rev.
  - rewrite map_rev; reflexivity.
Qed.

Lemma is_grid_zeros3 {A} (zero : A) (gh gw c : nat) :
  is_grid gh gw (zeros3 zero gh gw c).
Proof.
  unfold zeros3; split.
  - apply repeat_length.
  - apply Forall_forall; intros r Hr.
    apply repeat_spec in Hr; subst; apply repeat_length.
Qed.

Lemma is_grid3_depth {A} (h w c : nat) (a : grid (list A)) :
  is_grid3 h w c a -> (0 < h)%nat -> (0 < w)%nat -> depth a = c.
Proof.
  intros [[Hh Hw] Hc] Hhp Hwp; unfold depth.
  destruct a as [|row a]; simpl in *; [lia|].
  inversion Hw; inversion Hc; subst.
  destruct row as [|px row]; simpl in *; [lia|].
  match goal with H : Forall _ (px :: row) |- _ => inversion H; auto end.
Qed.

(** Tiling a 2-D image: the result is 2-D, [tiles_y] by [tiles_x] blocks of
    the size of the image, and the block at [(tx, ty)] is the image, flipped
    vertically when mirroring is on and [ty] is odd and horizontally when
    mirroring is on and [tx] is odd. *)
Lemma create_tiled_texture_gray {A} (zero : A) (h w : nat) (a : grid A)
  (tiles_x tiles_y : nat) (mirror : bool) :
  is_grid h w a -> (0 < h)%nat ->
  exists res,
    create_tiled_texture zero (Gray a) tiles_x tiles_y mirror = Ok (Gray res)
    /\ is_grid (h * tiles_y) (w * tiles_x) res
    /\ forall ty tx i j,
         (ty < tiles_y)%nat -> (tx < tiles_x)%nat ->
         (i < h)%nat -> (j < w)%nat ->
         get zero res (ty * h + i) (tx * w + j)
         = get zero a
               (if mirror && (ty mod 2 =? 1)%nat then (h - 1 - i)%nat else i)
               (if mirror && (tx mod 2 =? 1)%nat then (w - 1 - j)%nat else j).
Proof.
  intros Ha Hh; unfold create_tiled_texture.
  rewrite (is_grid_height h w a Ha), (is_grid_width h w a Ha Hh).
  rewrite tile_loop_assign3; simpl bind.
  eexists; split; [reflexivity|].
  assert (Ha3 : is_grid h w (map (map (fun v => [v])) a))
    by (apply is_grid_map; auto).
  assert (Hres : is_grid (h * tiles_y) (w * tiles_x)
                   (tiles_pure h w tiles_x tiles_y mirror
                      (map (map (fun v => [v])) a)
                      (zeros3 zero (h * tiles_y) (w * tiles_x) 1)))
    by (apply is_grid_tiles; auto using is_grid_zeros3).
  split; [apply is_grid_map; auto|].
  intros ty tx i j Hty Htx Hi Hj. unfold get_channel.
  rewrite (get_map (fun px => nth 0 px zero) [] zero
             (h * tiles_y) (w * tiles_x)) by (auto; nia).
  rewrite (get_tiles [] h w) by (auto using is_grid_zeros3).
  rewrite make_tile_map.
  rewrite (get_map (fun v => [v]) zero [] h w)
    by (auto using is_grid_make_tile).
  simpl nth. apply get_make_tile; auto.
Qed.

(** Tiling a 3-D image with [c <> 1] channels: the result is 3-D with [c]
    channels, and its blocks are the mirrored copies of the image. *)
Lemma create_tiled_texture_color {A} (zero : A) (h w c : nat)
  (a : grid (list A)) (tiles_x tiles_y : nat) (mirror : bool) :
  is_grid3 h w c a -> (0 < h)%nat -> (0 < w)%nat -> c <> 1%nat ->
  exists res,
    create_tiled_texture zero (Color a) tiles_x tiles_y mirror
    = Ok (Color res)
    /\ is_grid3 (h * tiles_y) (w * tiles_x) c res
    /\ forall ty tx i j,
         (ty < tiles_y)%nat -> (tx < tiles_x)%nat ->
         (i < h)%nat -> (j < w)%nat ->
         get [] res (ty * h + i) (tx * w + j)
         = get [] a
               (if mirror && (ty mod 2 =? 1)%nat then (h - 1 - i)%nat else i)
               (if mirror && (tx mod 2 =? 1)%nat then (w - 1 - j)%nat else j).
Proof.
  intros Ha3 Hh Hw Hc; unfold create_tiled_texture.
  pose proof Ha3 as [Ha Hpx].
  rewrite (is_grid_height h w a Ha), (is_grid_width h w a Ha Hh).
  rewrite (is_grid3_depth h w c a Ha3 Hh Hw).
  replace (c =? 1)%nat with false by (symmetry; apply Nat.eqb_neq; auto).
  rewrite tile_loop_assign3; simpl bind.
  eexists; split; [reflexivity|].
  assert (Hres : is_grid (h * tiles_y) (w * tiles_x)
                   (tiles_pure h w tiles_x tiles_y mirror a
                      (zeros3 zero (h * tiles_y) (w * tiles_x) c)))
    by (apply is_grid_tiles; auto using is_grid_zeros3).
  assert (Hblock : forall ty tx i j,
             (ty < tiles_y)%nat -> (tx < tiles_x)%nat ->
             (i < h)%nat -> (j < w)%nat ->
             get [] (tiles_pure h w tiles_x tiles_y mirror a
                       (zeros3 zero (h * tiles_y) (w * tiles_x) c))
                 (ty * h + i) (tx * w + j)
             = get [] a
                 (if mirror && (ty mod 2 =? 1)%nat then (h - 1 - i)%nat else i)
                 (if mirror && (tx mod 2 =? 1)%nat then (w - 1 - j)%nat else j)).
  { intros ty tx i j Hty Htx Hi Hj.
    rewrite (get_tiles [] h w) by (auto using is_grid_zeros3).
    apply get_make_tile; auto. }
  split; [split; auto | exact Hblock].
  apply (grid_all_of_get _ [] _ _ _ Hres); intros y x Hy Hx.
  assert (Hty : (y / h < tiles_y)%nat)
    by (apply Nat.Div0.div_lt_upper_bound; auto).
  assert (Htx : (x / w < tiles_x)%nat)
    by (apply Nat.Div0.div_lt_upper_bound; auto).
  assert (Hi : (y mod h < h)%nat) by (apply Nat.mod_upper_bound; lia).
  assert (Hj : (x mod w < w)%nat) by (apply Nat.mod_upper_bound; lia).
  replace y with (y / h * h + y mod h)%nat
    by (rewrite (Nat.div_mod_eq y h) at 3; lia).
  replace x with (x / w * w + x mod w)%nat
    by (rewrite (Nat.div_mod_eq x w) at 3; lia).
  rewrite Hblock by auto.
  apply (grid_all_get (fun px => length px = c) [] h w a); auto.
  - destruct (mirror && _); lia.
  - destruct (mirror && _); lia.
Qed.

(** C10 (failing input): a 3-D array with a single channel, here 2 by 2 by
    1.  [channels == 1] holds, so [image[:, :, np.newaxis]] turns the array
    into a 4-D one of shape (2, 2, 1, 1), and the assignment of the first
    tile to the (2, 2, 1) slice of the result raises: nothing is
    returned. *)
Theorem create_tiled_texture_single_channel_3d :
  is_grid3 2 2 1 [[[10]; [20]]; [[30]; [40]]]%Z
  /\ create_tiled_texture 0%Z (Color [[[10]; [20]]; [[30]; [40]]]%Z) 2 2 true
     = Err BroadcastError.
Proof.
  split; [|reflexivity].
  split; [split; [reflexivity|] |]; repeat constructor.
Qed.

(** ** Complex arithmetic *)

Lemma C_eq (a b : C) : fst a = fst b -> snd a = snd b -> a = b.
Proof. destruct a, b; simpl; intros; subst; reflexivity. Qed.

Lemma Cnorm_zero (z : C) : (fst z ^ 2 + snd z ^ 2 = 0)%R -> z = C0.
Proof.
  intros Hz. destruct z as [a b]; simpl in *.
  assert (a = 0%R) by nra. assert (b = 0%R) by nra.
  subst; reflexivity.
Qed.

Lemma C_ring_theory : ring_theory C0 C1 Cadd Cmul Csub Copp (@eq C).
Proof.
  constructor; intros; try (apply C_eq; simpl; ring); reflexivity.
Qed.

Lemma C_field_theory :
  field_theory C0 C1 Cadd Cmul Csub Copp Cdiv Cinv (@eq C).
Proof.
  constructor.
  - exact C_ring_theory.
  - intros Heq; inversion Heq; lra.
  - reflexivity.
  - intros z Hz.
    assert (Hn : (fst z ^ 2 + snd z ^ 2 <> 0)%R)
      by (intros H0; apply Hz, Cnorm_zero; auto).
    apply C_eq; simpl; field; intros H0; apply Hn; rewrite <- H0; ring.
Qed.

Add Field C_field : C_field_theory.

Lemma Cmul_integral (a b : C) : Cmul a b = C0 -> a = C0 \/ b = C0.
Proof.
  intros Hab.
  destruct (Req_dec (fst a ^ 2 + snd a ^ 2) 0) as [Ha|Ha].
  - left; apply Cnorm_zero; auto.
  - right.
    assert (Hane : a <> C0) by (intros ->; simpl in Ha; apply Ha; ring).
    replace b with (Cmul (Cinv a) (Cmul a b)) by (field; auto).
    rewrite Hab; ring.
Qed.

Lemma Cmul_RtoC_one (z : C) : Cmul z (RtoC 1) = z.
Proof. apply C_eq; simpl; ring. Qed.

Lemma Cmul_RtoC_zero (z : C) : Cmul z (RtoC 0) = C0.
Proof. apply C_eq; simpl; ring. Qed.

Lemma Cre_RtoC (r : R) : Cre (RtoC r) = r.
Proof. reflexivity. Qed.

Lemma Cpow_add (z : C) (a b : nat) :
  Cpow z (a + b) = Cmul (Cpow z a) (Cpow z b).
Proof.
  induction a as [|a IH]; simpl; [ring | rewrite IH; ring].
Qed.

Lemma Cpow_one (n : nat) : Cpow C1 n = C1.
Proof. induction n as [|n IH]; simpl; [|rewrite IH]; ring. Qed.

Lemma Cpow_mul (z : C) (a b : nat) : Cpow z (a * b) = Cpow (Cpow z a) b.
Proof.
  induction b as [|b IH]; simpl.
  - rewrite Nat.mul_0_r; reflexivity.
  - rewrite Nat.mul_succ_r, Nat.add_comm, Cpow_add, IH; reflexivity.
Qed.

Lemma Cpow_mul_distr (y z : C) (n : nat) :
  Cpow (Cmul y z) n = Cmul (Cpow y n) (Cpow z n).
Proof.
  induction n as [|n IH]; simpl; [ring | rewrite IH; ring].
Qed.

(** *** Finite sums *)

Lemma Csum_ext (n : nat) (f g : nat -> C) :
  (forall i, (i < n)%nat -> f i = g i) -> Csum n f = Csum n g.
Proof.
  induction n as [|n IH]; intros Hfg; simpl; auto.
  rewrite IH, Hfg; auto.
Qed.

Lemma Csum_zero (n : nat) : Csum n (fun _ => C0) = C0.
Proof. induction n as [|n IH]; simpl; [|rewrite IH]; ring. Qed.

Lemma Csum_add (n : nat) (f g : nat -> C) :
  Csum n (fun i => Cadd (f i) (g i)) = Cadd (Csum n f) (Csum n g).
Proof. induction n as [|n IH]; simpl; [|rewrite IH]; ring. Qed.

Lemma Csum_mul_l (n : nat) (c : C) (f : nat -> C) :
  Cmul c (Csum n f) = Csum n (fun i => Cmul c (f i)).
Proof. induction n as [|n IH]; simpl; [|rewrite <- IH]; ring. Qed.

Lemma Csum_mul_r (n : nat) (c : C) (f : nat -> C) :
  Cmul (Csum n f) c = Csum n (fun i => Cmul (f i) c).
Proof. induction n as [|n IH]; simpl; [|rewrite <- IH]; ring. Qed.

Lemma Csum_swap (n m : nat) (f : nat -> nat -> C) :
  Csum n (fun i => Csum m (fun j => f i j))
  = Csum m (fun j => Csum n (fun i => f i j)).
Proof.
  induction n as [|n IH]; simpl.
  - rewrite Csum_zero; reflexivity.
  - rewrite IH, <- Csum_add; reflexivity.
Qed.

(** A sum with a single non-zero term. *)
Lemma Csum_single (n k : nat) (f : nat -> C) :
  (k < n)%nat -> (forall i, (i < n)%nat -> i <> k -> f i = C0) ->
  Csum n f = f k.
Proof.
  induction n as [|n IH]; intros Hk Hf; [lia|]; simpl.
  destruct (Nat.eq_dec k n) as [->|Hne].
  - rewrite (Csum_ext n f (fun _ => C0)) by (intros; apply Hf; lia).
    rewrite Csum_zero; ring.
  - rewrite IH by (auto; lia). rewrite (Hf n) by lia. ring.
Qed.

Lemma Csum_const (n : nat) (c : C) :
  Csum n (fun _ => c) = Cmul (RtoC (INR n)) c.
Proof.
  induction n as [|n IH].
  - simpl; apply C_eq; simpl; ring.
  - cbn [Csum]. rewrite IH, S_INR. apply C_eq; simpl; ring.
Qed.

(** [(z - 1) * sum_{k < n} z^k = z^n - 1] *)
Lemma Csum_geometric (z : C) (n : nat) :
  Cmul (Csub z C1) (Csum n (fun k => Cpow z k)) = Csub (Cpow z n) C1.
Proof.
  induction n as [|n IH]; simpl; [ring|].
  replace (Cmul (Csub z C1) (Cadd (Csum n (fun k => Cpow z k)) (Cpow z n)))
    with (Cadd (Cmul (Csub z C1) (Csum n (fun k => Cpow z k)))
               (Cmul (Csub z C1) (Cpow z n))) by ring.
  rewrite IH; ring.
Qed.

(** *** Roots of unity *)

Lemma Cpow_root (n k : nat) :
  Cpow (root n) k
  = (cos (INR k * (2 * PI / INR n)), - sin (INR k * (2 * PI / INR n)))%R.
Proof.
  induction k as [|k IH].
  - simpl. rewrite Rmult_0_l, cos_0, sin_0, Ropp_0. reflexivity.
  - cbn [Cpow]. rewrite IH, S_INR. unfold root.
    replace ((INR k + 1) * (2 * PI / INR n))%R
      with (2 * PI / INR n + INR k * (2 * PI / INR n))%R by ring.
    rewrite cos_plus, sin_plus.
    apply C_eq; simpl; ring.
Qed.

Lemma Cpow_iroot (n k : nat) :
  Cpow (iroot n) k
  = (cos (INR k * (2 * PI / INR n)), sin (INR k * (2 * PI / INR n)))%R.
Proof.
  induction k as [|k IH].
  - simpl. rewrite Rmult_0_l, cos_0, sin_0. reflexivity.
  - cbn [Cpow]. rewrite IH, S_INR. unfold iroot.
    replace ((INR k + 1) * (2 * PI / INR n))%R
      with (2 * PI / INR n + INR k * (2 * PI / INR n))%R by ring.
    rewrite cos_plus, sin_plus.
    apply C_eq; simpl; ring.
Qed.

Lemma root_iroot (n : nat) : Cmul (root n) (iroot n) = C1.
Proof.
  unfold root, iroot; apply C_eq; simpl; [|ring].
  pose proof (sin2_cos2 (2 * PI / INR n)) as H; unfold Rsqr in H. lra.
Qed.

Lemma root_pow_order (n : nat) : (0 < n)%nat -> Cpow (root n) n = C1.
Proof.
  intros Hn. rewrite Cpow_root.
  assert (Hr : (INR n <> 0)%R) by (apply not_0_INR; lia).
  replace (INR n * (2 * PI / INR n))%R with (2 * PI)%R by (field; auto).
  rewrite cos_2PI, sin_2PI, Ropp_0. reflexivity.
Qed.

Lemma iroot_pow_order (n : nat) : (0 < n)%nat -> Cpow (iroot n) n = C1.
Proof.
  intros Hn. rewrite Cpow_iroot.
  assert (Hr : (INR n <> 0)%R) by (apply not_0_INR; lia).
  replace (INR n * (2 * PI / INR n))%R with (2 * PI)%R by (field; auto).
  rewrite cos_2PI, sin_2PI. reflexivity.
Qed.

(** [cos x = 1] has no solution with [0 < |x| < 2 pi]. *)
Lemma cos_one_inside (x : R) :
  (x <> 0)%R -> (- (2 * PI) < x < 2 * PI)%R -> cos x <> 1%R.
Proof.
  intros Hx0 [Hlo Hhi] Hcos.
  assert (Hhalf : cos x = (1 - 2 * sin (x / 2) * sin (x / 2))%R).
  { replace x with (2 * (x / 2))%R at 1 by field. apply cos_2a_sin. }
  assert (Hs : sin (x / 2) = 0%R) by nra.
  destruct (Rlt_or_le 0 x) as [Hpos|Hneg].
  - assert (0 < sin (x / 2))%R by (apply sin_gt_0; lra). lra.
  - assert (0 < sin (- (x / 2)))%R by (apply sin_gt_0; lra).
    rewrite sin_neg in H. lra.
Qed.

(** The product [root^p * iroot^q] is a root of unity of order [n], and it
    is 1 only for [p = q]. *)
Lemma root_quotient_pow (n p q : nat) :
  (0 < n)%nat ->
  Cpow (Cmul (Cpow (root n) p) (Cpow (iroot n) q)) n = C1.
Proof.
  intros Hn.
  rewrite Cpow_mul_distr, <- !Cpow_mul, !(Nat.mul_comm _ n), !Cpow_mul.
  rewrite root_pow_order, iroot_pow_order by auto.
  rewrite !Cpow_one; ring.
Qed.

Lemma root_quotient_not_one (n p q : nat) :
  (p < n)%nat -> (q < n)%nat -> p <> q ->
  Cmul (Cpow (root n) p) (Cpow (iroot n) q) <> C1.
Proof.
  intros Hp Hq Hpq Heq.
  rewrite Cpow_root, Cpow_iroot in Heq.
  set (t := (2 * PI / INR n)%R) in *.
  assert (Hcos : cos (INR p * t - INR q * t) = 1%R).
  { rewrite cos_minus. inversion Heq as [[H1 H2]]. lra. }
  assert (Hn : (0 < INR n)%R) by (apply lt_0_INR; lia).
  assert (Ht : (0 < t)%R).
  { unfold t. apply Rdiv_lt_0_compat; auto. pose proof PI_RGT_0; lra. }
  assert (Htn : (INR n * t = 2 * PI)%R) by (unfold t; field; lra).
  assert (Hpn : (INR p <= INR n - 1)%R).
  { replace (INR n - 1)%R with (INR (n - 1))
      by (rewrite minus_INR by lia; simpl; ring).
    apply le_INR; lia. }
  assert (Hqn : (INR q <= INR n - 1)%R).
  { replace (INR n - 1)%R with (INR (n - 1))
      by (rewrite minus_INR by lia; simpl; ring).
    apply le_INR; lia. }
  assert (Hp0 : (0 <= INR p)%R) by apply pos_INR.
  assert (Hq0 : (0 <= INR q)%R) by apply pos_INR.
  revert Hcos. apply cos_one_inside.
  - intros H0. assert (INR p = INR q) by nra.
    apply INR_eq in H. contradiction.
  - split; nra.
Qed.

(** Orthogonality of the kernels of the forward and inverse transforms. *)
Lemma root_orthogonal (n p q : nat) :
  (p < n)%nat -> (q < n)%nat ->
  Csum n (fun k => Cmul (Cpow (root n) (p * k)) (Cpow (iroot n) (q * k)))
  = if (p =? q)%nat then RtoC (INR n) else C0.
Proof.
  intros Hp Hq.
  set (z := Cmul (Cpow (root n) p) (Cpow (iroot n) q)).
  rewrite (Csum_ext n _ (fun k => Cpow z k)).
  2:{ intros k _. unfold z. rewrite Cpow_mul_distr, !Cpow_mul. reflexivity. }
  destruct (Nat.eqb_spec p q) as [->|Hne].
  - assert (Hz : z = C1).
    { unfold z. rewrite <- Cpow_mul_distr, root_iroot, Cpow_one; auto. }
    rewrite Hz.
    rewrite (Csum_ext n _ (fun _ => C1)) by (intros; apply Cpow_one).
    rewrite Csum_const. ring.
  - pose proof (Csum_geometric z n) as Hg.
    unfold z in Hg at 3. rewrite root_quotient_pow in Hg by lia.
    replace (Csub C1 C1) with C0 in Hg by ring.
    apply Cmul_integral in Hg as [Hz|Hs]; auto.
    exfalso. apply (root_quotient_not_one n p q Hp Hq Hne).
    fold z. replace z with (Cadd (Csub z C1) C1) by ring.
    rewrite Hz; ring.
Qed.

(** *** The transform and its inverse *)

(** Reordering of the four nested sums of [ifft2 (fft2 x)]. *)
Lemma Csum_separate (h w : nat) (f : nat -> nat -> C)
  (u v : nat -> nat -> C) (u' v' : nat -> C) :
  Csum h (fun k =>
    Csum w (fun l =>
      Cmul (Csum h (fun m =>
              Csum w (fun n => Cmul (f m n) (Cmul (u m k) (v n l)))))
           (Cmul (u' k) (v' l))))
  = Csum h (fun m =>
      Csum w (fun n =>
        Cmul (f m n)
             (Cmul (Csum h (fun k => Cmul (u m k) (u' k)))
                   (Csum w (fun l => Cmul (v n l) (v' l)))))).
Proof.
  set (g := fun m n k l =>
              Cmul (Cmul (f m n) (Cmul (u m k) (u' k)))
                   (Cmul (v n l) (v' l))).
  transitivity
    (Csum h (fun k => Csum w (fun l =>
       Csum h (fun m => Csum w (fun n => g m n k l))))).
  { apply Csum_ext; intros k _; apply Csum_ext; intros l _.
    rewrite Csum_mul_r; apply Csum_ext; intros m _.
    rewrite Csum_mul_r; apply Csum_ext; intros n _.
    unfold g; ring. }
  transitivity
    (Csum h (fun m => Csum w (fun n =>
       Csum h (fun k => Csum w (fun l => g m n k l))))).
  { rewrite (Csum_ext h _ (fun k => Csum h (fun m => Csum w (fun l =>
                                       Csum w (fun n => g m n k l)))))
      by (intros k _; apply (Csum_swap w h (fun l m => Csum w (fun n => g m n k l)))).
    rewrite (Csum_swap h h (fun k m => Csum w (fun l => Csum w (fun n => g m n k l)))).
    apply Csum_ext; intros m _.
    rewrite (Csum_ext h _ (fun k => Csum w (fun n => Csum w (fun l => g m n k l))))
      by (intros k _; apply (Csum_swap w w (fun l n => g m n k l))).
    apply (Csum_swap h w (fun k n => Csum w (fun l => g m n k l))). }
  apply Csum_ext; intros m _; apply Csum_ext; intros n _.
  rewrite (Csum_ext h _ (fun k => Cmul (Cmul (f m n) (Cmul (u m k) (u' k)))
                                       (Csum w (fun l => Cmul (v n l) (v' l)))))
    by (intros k _; unfold g; rewrite Csum_mul_l; reflexivity).
  rewrite <- Csum_mul_r.
  rewrite <- (Csum_mul_l h (f m n)). ring.
Qed.

Lemma RtoC_mul (a b : R) : RtoC (a * b) = Cmul (RtoC a) (RtoC b).
Proof. apply C_eq; simpl; ring. Qed.

Lemma RtoC_INR_nonzero (n : nat) : (0 < n)%nat -> RtoC (INR n) <> C0.
Proof.
  intros Hn Heq. inversion Heq as [H0].
  apply (not_0_INR n); [lia | exact H0].
Qed.

Lemma INR_mul_nonzero (h w : nat) :
  (0 < h)%nat -> (0 < w)%nat -> RtoC (INR (h * w)) <> C0.
Proof.
  intros Hh Hw Heq. inversion Heq as [H0].
  apply (not_0_INR (h * w)); [nia | exact H0].
Qed.

Lemma nonzero_sizes (h w : nat) :
  (0 < h)%nat -> (0 < w)%nat -> ((h =? 0) || (w =? 0))%nat = false.
Proof.
  intros Hh Hw. apply orb_false_iff; split; apply Nat.eqb_neq; lia.
Qed.

Lemma fft2_ok (h w : nat) (a : grid C) :
  is_grid h w a -> (0 < h)%nat -> (0 < w)%nat ->
  fft2 a
  = Ok (map (fun k => map (fun l => fft2_entry h w a k l) (seq 0 w)) (seq 0 h)).
Proof.
  intros Ha Hh Hw; unfold fft2.
  rewrite (is_grid_height h w a Ha), (is_grid_width h w a Ha Hh).
  rewrite nonzero_sizes by auto. reflexivity.
Qed.

Lemma ifft2_ok (h w : nat) (a : grid C) :
  is_grid h w a -> (0 < h)%nat -> (0 < w)%nat ->
  ifft2 a
  = Ok (map (fun m => map (fun n => ifft2_entry h w a m n) (seq 0 w)) (seq 0 h)).
Proof.
  intros Ha Hh Hw; unfold ifft2.
  rewrite (is_grid_height h w a Ha), (is_grid_width h w a Ha Hh).
  rewrite nonzero_sizes by auto. reflexivity.
Qed.

(** The inverse transform undoes the transform. *)
Lemma ifft2_fft2 (h w : nat) (x : grid C) :
  is_grid h w x -> (0 < h)%nat -> (0 < w)%nat ->
  exists X, fft2 x = Ok X /\ is_grid h w X /\ ifft2 X = Ok x.
Proof.
  intros Hx Hh Hw.
  rewrite (fft2_ok h w x Hx Hh Hw).
  eexists; split; [reflexivity|].
  assert (HX : is_grid h w
                 (map (fun k => map (fun l => fft2_entry h w x k l) (seq 0 w))
                      (seq 0 h)))
    by apply is_grid_map_seq.
  split; auto.
  rewrite (ifft2_ok h w _ HX Hh Hw). f_equal.
  apply (grid_ext C0 h w); auto; [apply is_grid_map_seq|].
  intros m' n' Hm' Hn'.
  rewrite (get_map_seq C0 h w (fun m n => ifft2_entry h w _ m n)) by auto.
  unfold ifft2_entry.
  rewrite (Csum_ext h _
             (fun k => Csum w (fun l =>
                Cmul (fft2_entry h w x k l)
                     (Cmul (Cpow (iroot h) (m' * k))
                           (Cpow (iroot w) (n' * l)))))).
  2:{ intros k Hk; apply Csum_ext; intros l Hl.
      rewrite (get_map_seq C0 h w (fun k l => fft2_entry h w x k l)) by auto.
      reflexivity. }
  unfold fft2_entry.
  rewrite (Csum_separate h w (fun m n => get C0 x m n)
             (fun m k => Cpow (root h) (m * k))
             (fun n l => Cpow (root w) (n * l))
             (fun k => Cpow (iroot h) (m' * k))
             (fun l => Cpow (iroot w) (n' * l))).
  rewrite (Csum_single h m').
  - rewrite (Csum_single w n').
    + rewrite !root_orthogonal, !Nat.eqb_refl by auto.
      rewrite mult_INR, RtoC_mul.
      field. split; apply RtoC_INR_nonzero; auto.
    + auto.
    + intros n Hn Hne.
      rewrite (root_orthogonal w n n') by auto.
      replace (n =? n')%nat with false by (symmetry; apply Nat.eqb_neq; auto).
      ring.
  - auto.
  - intros m Hm Hne.
    rewrite (Csum_ext w _ (fun _ => C0)); [apply Csum_zero|].
    intros n Hn.
    rewrite (root_orthogonal h m m') by auto.
    replace (m =? m')%nat with false by (symmetry; apply Nat.eqb_neq; auto).
    ring.
Qed.

(** *** The centre shift *)

Lemma length_roll {A} (k : nat) (l : list A) : length (roll k l) = length l.
Proof.
  unfold roll. rewrite length_app, length_skipn, length_firstn. lia.
Qed.

Lemma roll_roll {A} (k : nat) (l : list A) :
  (k <= length l)%nat -> roll (length l - k) (roll k l) = l.
Proof.
  intros Hk. unfold roll at 1. rewrite length_roll.
  replace (length l - (length l - k))%nat with k by lia.
  unfold roll.
  rewrite skipn_app, firstn_app, length_skipn.
  replace (k - (length l - (length l - k)))%nat with 0%nat by lia.
  rewrite skipn_all2 by (rewrite length_skipn; lia).
  rewrite (firstn_all2 (n := k)) by (rewrite length_skipn; lia).
  simpl. rewrite app_nil_r. apply firstn_skipn.
Qed.

Lemma map_roll {A B} (f : A -> B) (k : nat) (l : list A) :
  map f (roll k l) = roll k (map f l).
Proof.
  unfold roll. rewrite map_app, skipn_map, firstn_map, length_map.
  reflexivity.
Qed.

Lemma length_fftshift1 {A} (l : list A) : length (fftshift1 l) = length l.
Proof. apply length_roll. Qed.

Lemma length_ifftshift1 {A} (l : list A) : length (ifftshift1 l) = length l.
Proof. apply length_roll. Qed.

Lemma ifftshift1_fftshift1 {A} (l : list A) : ifftshift1 (fftshift1 l) = l.
Proof.
  unfold ifftshift1, fftshift1. rewrite length_roll.
  apply roll_roll. apply Nat.Div0.div_le_upper_bound; lia.
Qed.

Lemma map_fftshift1 {A B} (f : A -> B) (l : list A) :
  map f (fftshift1 l) = fftshift1 (map f l).
Proof. unfold fftshift1. rewrite map_roll, length_map. reflexivity. Qed.

(** [ifftshift] undoes [fftshift], for even and for odd extents. *)
Lemma ifftshift_fftshift {A} (a : grid A) : ifftshift (fftshift a) = a.
Proof.
  unfold ifftshift, fftshift.
  rewrite map_fftshift1, ifftshift1_fftshift1, map_map.
  rewrite (map_ext _ (fun r => r)) by (intros; apply ifftshift1_fftshift1).
  apply map_id.
Qed.

Lemma Forall_roll {A} (P : A -> Prop) (k : nat) (l : list A) :
  Forall P l -> Forall P (roll k l).
Proof.
  intros Hl; unfold roll.
  rewrite <- (firstn_skipn (length l - k) l) in Hl.
  apply Forall_app in Hl as [H1 H2]. apply Forall_app; split; auto.
Qed.

Lemma is_grid_fftshift {A} (h w : nat) (a : grid A) :
  is_grid h w a -> is_grid h w (fftshift a).
Proof.
  intros [Hh Hw]; unfold fftshift, fftshift1; split.
  - rewrite length_roll, length_map; auto.
  - apply Forall_roll. apply Forall_forall; intros r Hr.
    apply in_map_iff in Hr as [r0 [<- Hr0]].
    rewrite length_roll. rewrite Forall_forall in Hw; auto.
Qed.

Lemma is_grid_ifftshift {A} (h w : nat) (a : grid A) :
  is_grid h w a -> is_grid h w (ifftshift a).
Proof.
  intros [Hh Hw]; unfold ifftshift, ifftshift1; split.
  - rewrite length_roll, length_map; auto.
  - apply Forall_roll. apply Forall_forall; intros r Hr.
    apply in_map_iff in Hr as [r0 [<- Hr0]].
    rewrite length_roll. rewrite Forall_forall in Hw; auto.
Qed.

(** ** C5: the round trip *)

Lemma apply_mask_ones (h w : nat) (s : grid C) :
  is_grid h w s -> apply_mask s (ones h w) = s.
Proof.
  intros Hs. apply (grid_ext C0 h w); auto.
  - apply is_grid_zip_with; auto using is_grid_ones.
  - intros y x Hy Hx. unfold apply_mask.
    rewrite (get_zip_with (fun z m => Cmul z (RtoC m)) C0 0%R C0 h w)
      by auto using is_grid_ones.
    rewrite get_ones by auto. apply Cmul_RtoC_one.
Qed.

Lemma map_Cre_RtoC (x : grid R) : map (map Cre) (map (map RtoC) x) = x.
Proof.
  rewrite map_map.
  rewrite (map_ext _ (fun r => r)); [apply map_id|].
  intros r. rewrite map_map. rewrite (map_ext _ (fun v => v)) by reflexivity.
  apply map_id.
Qed.

Lemma forward_ok (h w : nat) (x : grid R) :
  is_grid h w x -> (0 < h)%nat -> (0 < w)%nat ->
  exists X, fft2 (map (map RtoC) x) = Ok X
            /\ is_grid h w X
            /\ forward x = Ok (fftshift X)
            /\ ifft2 X = Ok (map (map RtoC) x).
Proof.
  intros Hx Hh Hw.
  destruct (ifft2_fft2 h w (map (map RtoC) x)) as [X [EX [HX EI]]];
    auto using is_grid_map.
  exists X; repeat split; auto; try apply HX.
  unfold forward. rewrite EX. reflexivity.
Qed.

Lemma inverse_fftshift (X : grid C) (x : grid R) :
  ifft2 X = Ok (map (map RtoC) x) -> inverse (fftshift X) = Ok x.
Proof.
  intros EI. unfold inverse. rewrite ifftshift_fftshift, EI; simpl.
  rewrite map_Cre_RtoC. reflexivity.
Qed.

(** C5: for every real [h] by [w] array with [h, w > 0], the forward
    transform (2-D DFT, then centre shift) succeeds, and the inverse
    transform (un-shift, inverse DFT, real part) of its result, taken as it
    is or multiplied by a mask of ones, is the array itself.  The equality
    is exact: the arithmetic is that of the real and complex numbers. *)
Theorem round_trip (h w : nat) (x : grid R) :
  is_grid h w x -> (0 < h)%nat -> (0 < w)%nat ->
  exists spectrum,
    forward x = Ok spectrum
    /\ is_grid h w spectrum
    /\ inverse spectrum = Ok x
    /\ inverse (apply_mask spectrum (ones h w)) = Ok x.
Proof.
  intros Hx Hh Hw.
  destruct (forward_ok h w x Hx Hh Hw) as (X & EX & HX & EF & EI).
  exists (fftshift X).
  assert (HS : is_grid h w (fftshift X)) by (apply is_grid_fftshift; auto).
  repeat split; auto; try apply HS.
  - apply inverse_fftshift; auto.
  - rewrite apply_mask_ones by auto. apply inverse_fftshift; auto.
Qed.

Lemma round_trip_witness :
  exists spectrum,
    forward [[1; 2; 3]; [4; 5; 6]]%R = Ok spectrum
    /\ inverse spectrum = Ok [[1; 2; 3]; [4; 5; 6]]%R.
Proof.
  destruct (round_trip 2 3 [[1; 2; 3]; [4; 5; 6]]%R)
    as (spectrum & EF & _ & EI & _).
  - split; [reflexivity | repeat constructor].
  - lia.
  - lia.
  - exists spectrum; split; assumption.
Defined.

(** ** C7: a constant image under the line policy *)

Lemma nth_roll {A} (d : A) (k : nat) (l : list A) (i : nat) :
  (k <= length l)%nat -> (i < length l)%nat ->
  nth i (roll k l) d = nth ((i + (length l - k)) mod length l) l d.
Proof.
  intros Hk Hi; unfold roll.
  destruct (Nat.lt_ge_cases i k) as [Hlt|Hge].
  - rewrite app_nth1 by (rewrite length_skipn; lia).
    rewrite nth_skipn. rewrite Nat.mod_small by lia. f_equal; lia.
  - rewrite app_nth2 by (rewrite length_skipn; lia).
    rewrite length_skipn, nth_firstn.
    destruct (Nat.ltb_spec (i - (length l - (length l - k))) (length l - k));
      [|lia].
    replace (i + (length l - k))%nat with ((i - k) + 1 * length l)%nat by lia.
    rewrite Nat.Div0.mod_add, Nat.mod_small by lia. f_equal; lia.
Qed.

Lemma get_fftshift {A} (d : A) (h w : nat) (a : grid A) (i j : nat) :
  is_grid h w a -> (i < h)%nat -> (j < w)%nat ->
  get d (fftshift a) i j
  = get d a ((i + (h - h / 2)) mod h) ((j + (w - w / 2)) mod w).
Proof.
  intros Ha Hi Hj; unfold get, fftshift, fftshift1 at 1.
  pose proof Ha as [Hh Hw].
  assert (Hdiv : (h / 2 <= h)%nat) by (apply Nat.Div0.div_le_upper_bound; lia).
  rewrite length_map, Hh.
  rewrite nth_roll by (rewrite length_map; lia).
  rewrite length_map, Hh.
  set (i' := ((i + (h - h / 2)) mod h)%nat).
  assert (Hi' : (i' < h)%nat) by (apply Nat.mod_upper_bound; lia).
  change [] with (@fftshift1 A []) at 1. rewrite map_nth.
  unfold fftshift1.
  pose proof (is_grid_nth i' Ha Hi') as Hrow. rewrite Hrow.
  rewrite nth_roll; rewrite Hrow; auto.
  apply Nat.Div0.div_le_upper_bound; lia.
Qed.

(** The shift brings index 0 of the transform to [n // 2]. *)
Lemma shift_index_zero (n i : nat) :
  (i < n)%nat -> ((i + (n - n / 2)) mod n = 0)%nat <-> i = (n / 2)%nat.
Proof.
  intros Hi.
  assert (Hdiv : (n / 2 < n)%nat) by (apply Nat.div_lt; lia).
  destruct (Nat.lt_ge_cases (i + (n - n / 2)) n) as [Hlt|Hge].
  - rewrite Nat.mod_small by auto. lia.
  - replace (i + (n - n / 2))%nat with ((i - n / 2) + 1 * n)%nat by lia.
    rewrite Nat.Div0.mod_add, Nat.mod_small by lia. lia.
Qed.

Lemma is_grid_constant (h w : nat) (c : R) : is_grid h w (constant h w c).
Proof.
  unfold constant; split.
  - apply repeat_length.
  - apply Forall_forall; intros r Hr.
    apply repeat_spec in Hr; subst; apply repeat_length.
Qed.

Lemma get_constant (d : R) (h w : nat) (c : R) (y x : nat) :
  (y < h)%nat -> (x < w)%nat -> get d (constant h w c) y x = c.
Proof.
  intros Hy Hx; unfold get, constant.
  rewrite (nth_indep _ [] (repeat c w)) by (rewrite repeat_length; auto).
  rewrite nth_repeat.
  rewrite (nth_indep _ d c) by (rewrite repeat_length; auto).
  apply nth_repeat.
Qed.

(** All the energy of a constant image is in bin (0, 0) of its transform. *)
Lemma fft2_entry_constant (h w : nat) (c : R) (k l : nat) :
  (k < h)%nat -> (l < w)%nat -> (k, l) <> (0, 0)%nat ->
  fft2_entry h w (map (map RtoC) (constant h w c)) k l = C0.
Proof.
  intros Hk Hl Hne; unfold fft2_entry.
  assert (Hsum : forall n p, (p < n)%nat ->
            Csum n (fun m => Cpow (root n) (m * p))
            = if (p =? 0)%nat then RtoC (INR n) else C0).
  { intros n p Hp. rewrite <- (root_orthogonal n p 0) by lia.
    apply Csum_ext; intros m _. simpl Cpow.
    rewrite (Nat.mul_comm m p). ring. }
  rewrite (Csum_ext h _
             (fun m => Cmul (Cmul (RtoC c) (Cpow (root h) (m * k)))
                            (Csum w (fun n => Cpow (root w) (n * l))))).
  2:{ intros m Hm. rewrite Csum_mul_l. apply Csum_ext; intros n Hn.
      rewrite (get_map RtoC 0%R C0 h w) by auto using is_grid_constant.
      rewrite get_constant by auto. ring. }
  rewrite <- Csum_mul_r, <- Csum_mul_l.
  rewrite (Hsum h k Hk), (Hsum w l Hl).
  destruct k, l; simpl Nat.eqb; cbv iota; try ring. congruence.
Qed.

Lemma Cmul_zero_l (z : C) : Cmul C0 z = C0.
Proof. ring. Qed.

(** The line policy leaves a constant image alone. *)
Lemma lines_filter_constant (h w : nat) (c : R)
  (line_width protect_center : Z) (attenuation : R) :
  (0 < h)%nat -> (0 < w)%nat ->
  fft_filter_channel_lines (constant h w c) line_width protect_center
                           attenuation
  = Ok (constant h w c).
Proof.
  intros Hh Hw.
  pose proof (is_grid_constant h w c) as Hc.
  destruct (forward_ok h w (constant h w c) Hc Hh Hw) as (X & EX & HX & EF & EI).
  unfold fft_filter_channel_lines. rewrite EF; simpl bind.
  rewrite (is_grid_height h w _ Hc), (is_grid_width h w _ Hc Hh).
  assert (HS : is_grid h w (fftshift X)) by (apply is_grid_fftshift; auto).
  replace (apply_mask (fftshift X)
                      (lines_mask h w line_width protect_center attenuation))
    with (fftshift X); [apply inverse_fftshift; auto|].
  apply (grid_ext C0 h w); auto.
  { apply is_grid_zip_with; auto using is_grid_lines_mask. }
  intros y x Hy Hx. unfold apply_mask.
  rewrite (get_zip_with (fun z m => Cmul z (RtoC m)) C0 0%R C0 h w)
    by auto using is_grid_lines_mask.
  destruct (Nat.eq_dec y (h / 2)) as [Ey|Ey];
    [destruct (Nat.eq_dec x (w / 2)) as [Ex|Ex]|].
  - subst y x.
    rewrite (lines_mask_protects_center 0%R h w) by auto using dc_in_center_disc.
    symmetry; apply Cmul_RtoC_one.
  - rewrite (get_fftshift C0 h w) by auto.
    rewrite (fft2_ok h w) in EX by auto using is_grid_map.
    inversion EX as [EX']. 
    rewrite (get_map_seq C0 h w (fun k l => fft2_entry h w _ k l))
      by (apply Nat.mod_upper_bound; lia).
    rewrite fft2_entry_constant; try (apply Nat.mod_upper_bound; lia).
    + symmetry; apply Cmul_zero_l.
    + intros Heq; apply pair_equal_spec in Heq as [H1 H2].
      apply shift_index_zero in H2; auto.
  - rewrite (get_fftshift C0 h w) by auto.
    rewrite (fft2_ok h w) in EX by auto using is_grid_map.
    inversion EX as [EX'].
    rewrite (get_map_seq C0 h w (fun k l => fft2_entry h w _ k l))
      by (apply Nat.mod_upper_bound; lia).
    rewrite fft2_entry_constant; try (apply Nat.mod_upper_bound; lia).
    + symmetry; apply Cmul_zero_l.
    + intros Heq; apply pair_equal_spec in Heq as [H1 H2].
      apply shift_index_zero in H1; auto.
Qed.

(** C7: the 64 by 64 image with every sample 100, filtered with the line
    policy at [line_width = 2], [attenuation = 0.99] and
    [protect_center = 10], comes back unchanged: its only non-zero
    frequency bin is the DC bin, which the protected disc keeps. *)
Theorem constant_image_unchanged :
  fft_filter_channel_lines (constant 64 64 100) 2 10 (99 / 100)
  = Ok (constant 64 64 100).
Proof. apply lines_filter_constant; lia. Qed.

(** ** The notch mask as a product over the peaks *)

Lemma percentile_ok_R (a : list R) (q : R) :
  (0 <= q <= 100)%R -> exists t, percentile a q = Ok t.
Proof.
  intros [H0 H100]; unfold percentile.
  assert (E1 : nltb q n0 = false).
  { simpl; unfold Rltb. destruct (Rlt_dec q 0); auto; lra. }
  assert (E2 : nltb (nofZ 100) q = false).
  { simpl; unfold Rltb. destruct (Rlt_dec 100 q); auto; lra. }
  rewrite E1, E2; simpl orb. eauto.
Qed.

Lemma dist2_nonneg (py px y x : nat) : (0 <= dist2 py px y x)%Z.
Proof. unfold dist2; nia. Qed.

(** The squared form of the notch test and factor agrees with the source's
    [dist = np.sqrt(dy**2 + dx**2)], [dist <= notch_radius] and
    [(dist / notch_radius) ** 2 if dist > 0 else 0]. *)
Lemma notch_square_form (r d2 : Z) :
  (0 <= d2)%Z ->
  (((0 <=? r) && (d2 <=? r ^ 2))%Z = true
   <-> (sqrt (IZR d2) <= IZR r)%R)
  /\ ((0 <? d2)%Z = true <-> (0 < sqrt (IZR d2))%R)
  /\ (r <> 0%Z ->
      (IZR d2 / IZR (r * r) = (sqrt (IZR d2) / IZR r) ^ 2)%R).
Proof.
  intros Hd.
  assert (Hd' : (0 <= IZR d2)%R) by (apply IZR_le; auto).
  split; [|split].
  - rewrite andb_true_iff, Z.leb_le, Z.leb_le. split.
    + intros [Hr Hle].
      rewrite <- (sqrt_pow2 (IZR r)) by (apply IZR_le; auto).
      apply sqrt_le_1_alt. rewrite pow_IZR.
      change (Z.of_nat 2) with 2%Z. apply IZR_le; auto.
    + intros Hs.
      assert (Hr : (0 <= IZR r)%R)
        by (apply Rle_trans with (sqrt (IZR d2)); auto; apply sqrt_pos).
      split; [apply le_IZR; auto|].
      apply le_IZR. change 2%Z with (Z.of_nat 2). rewrite <- pow_IZR.
      rewrite <- (pow2_sqrt (IZR d2)) by auto.
      apply pow_incr; split; auto. apply sqrt_pos.
  - rewrite Z.ltb_lt. split.
    + intros H0. apply sqrt_lt_R0. apply IZR_lt; auto.
    + intros Hs. destruct (Z.eq_dec d2 0) as [->|]; [|lia].
      rewrite sqrt_0 in Hs; lra.
  - intros Hr.
    assert (Hr' : (IZR r <> 0)%R) by (apply not_0_IZR; auto).
    rewrite mult_IZR.
    replace ((sqrt (IZR d2) / IZR r) ^ 2)%R
      with (sqrt (IZR d2) ^ 2 / (IZR r * IZR r))%R by (field; auto).
    rewrite pow2_sqrt by auto. reflexivity.
Qed.

Lemma near_within (r : Z) (p : nat * nat) (y x : nat) :
  near r (fst p) (snd p) y x = within r p y x.
Proof.
  unfold near, within, Rleb. fold (dist2 (fst p) (snd p) y x).
  pose proof (notch_square_form r (dist2 (fst p) (snd p) y x)
                (dist2_nonneg _ _ _ _)) as [Hiff _].
  destruct (Rle_dec _ _) as [Hle|Hnle].
  - apply Hiff; auto.
  - destruct ((0 <=? r) && _)%Z eqn:E; auto.
    exfalso; apply Hnle, Hiff; auto.
Qed.

Lemma notch_weight_ratio (r : Z) (p : nat * nat) (y x : nat) :
  (0 < r)%Z ->
  @notch_weight R _ r (dist2 (fst p) (snd p) y x) = notch_ratio r p y x.
Proof.
  intros Hr. unfold notch_weight, notch_ratio.
  pose proof (dist2_nonneg (fst p) (snd p) y x) as Hd.
  pose proof (notch_square_form r _ Hd) as (_ & _ & Hsq).
  destruct (0 <? dist2 (fst p) (snd p) y x)%Z eqn:E.
  - simpl. apply Hsq; lia.
  - assert (E0 : dist2 (fst p) (snd p) y x = 0%Z) by lia.
    rewrite E0, sqrt_0. simpl. field. apply not_0_IZR; lia.
Qed.

Lemma notch_entry_product (r : Z) (peak_coords : list (nat * nat))
  (y x : nat) (v : R) :
  (0 < r)%Z ->
  fold_left
    (fun v p => if near r (fst p) (snd p) y x
                then nmul v (notch_weight r (dist2 (fst p) (snd p) y x))
                else v)
    peak_coords v
  = fold_left Rmult
      (map (fun p => notch_ratio r p y x)
           (filter (fun p => within r p y x) peak_coords))
      v.
Proof.
  intros Hr; revert v; induction peak_coords as [|p l IH]; intros v; simpl;
    auto.
  rewrite near_within.
  destruct (within r p y x) eqn:E; simpl; rewrite IH; auto.
  rewrite notch_weight_ratio by auto. reflexivity.
Qed.

Lemma fold_mul_zero (l : list R) : fold_left Rmult l 0%R = 0%R.
Proof.
  induction l as [|a l IH]; simpl; auto. rewrite Rmult_0_l; auto.
Qed.

Lemma notch_entry_at_peak (r : Z) (peak_coords : list (nat * nat))
  (y x : nat) (v : R) :
  (0 < r)%Z -> In (y, x) peak_coords ->
  fold_left Rmult
    (map (fun p => notch_ratio r p y x)
         (filter (fun p => within r p y x) peak_coords))
    v = 0%R.
Proof.
  intros Hr; revert v; induction peak_coords as [|p l IH]; intros v Hin;
    simpl in *; [contradiction|].
  destruct Hin as [->|Hin].
  - assert (Hw : within r (y, x) y x = true).
    { rewrite <- near_within. unfold near; simpl.
      rewrite !Z.sub_diag. apply andb_true_iff; split; apply Z.leb_le; nia. }
    rewrite Hw; simpl.
    assert (Hz : notch_ratio r (y, x) y x = 0%R).
    { unfold notch_ratio, dist2; cbn [fst snd]. rewrite !Z.sub_diag.
      change (0 ^ 2 + 0 ^ 2)%Z with 0%Z.
      rewrite sqrt_0. field. apply not_0_IZR; lia. }
    rewrite Hz, Rmult_0_r. apply fold_mul_zero.
  - destruct (within r p y x); simpl; auto.
Qed.

Lemma get_apply_mask (h w : nat) (spectrum : grid C) (mask : grid R)
  (y x : nat) :
  is_grid h w spectrum -> is_grid h w mask -> (y < h)%nat -> (x < w)%nat ->
  get C0 (apply_mask spectrum mask) y x
  = Cmul (get C0 spectrum y x) (RtoC (get 0%R mask y x)).
Proof.
  intros Hs Hm Hy Hx; unfold apply_mask.
  apply (get_zip_with (fun z m => Cmul z (RtoC m)) C0 0%R C0 h w); auto.
Qed.

Lemma filter_none {A} (f : A -> bool) (l : list A) :
  (forall a, In a l -> f a = false) -> filter f l = [].
Proof.
  induction l as [|a l IH]; intros Hf; simpl; auto.
  rewrite Hf by (simpl; auto). apply IH; intros; apply Hf; simpl; auto.
Qed.

(** In the peak-notch policy with [notch_radius = r > 0] (and a
    percentile in [0, 100], so that the threshold exists), the mask is
    built, and its value at each bin [b] is the product over the detected
    peaks [p] with [d(b, p) <= r], each listed once, of [(d(b, p) / r)^2]
    (which is 0 for [d(b, p) = 0]).  Hence a bin farther than [r] from every
    peak has mask value 1 and its spectrum value is unchanged by the
    multiplication, and at a peak bin the mask is 0 and the product of the
    spectrum and the mask is 0. *)
Lemma notch_mask_entries (magnitude : grid R) (threshold_percentile : R)
  (notch_radius protect_center : Z) :
  (0 < notch_radius)%Z -> (0 <= threshold_percentile <= 100)%R ->
  let h := height magnitude in
  let w := width magnitude in
  exists threshold mask,
    threshold_of magnitude threshold_percentile protect_center = Ok threshold
    /\ peaks_mask magnitude threshold_percentile notch_radius protect_center
       = Ok mask
    /\ is_grid h w mask
    /\ let peaks := where_true (peaks_of magnitude threshold protect_center) in
       NoDup peaks
       /\ forall y x, (y < h)%nat -> (x < w)%nat ->
            get 0%R mask y x
            = fold_left Rmult
                (map (fun p => notch_ratio notch_radius p y x)
                     (filter (fun p => within notch_radius p y x) peaks))
                1%R
            /\ ((forall p, In p peaks -> within notch_radius p y x = false) ->
                get 0%R mask y x = 1%R
                /\ forall spectrum, is_grid h w spectrum ->
                     get C0 (apply_mask spectrum mask) y x
                     = get C0 spectrum y x)
            /\ (In (y, x) peaks ->
                get 0%R mask y x = 0%R
                /\ forall spectrum, is_grid h w spectrum ->
                     get C0 (apply_mask spectrum mask) y x = C0).
Proof.
  intros Hr Hp h w.
  unfold peaks_mask, threshold_of.
  destruct (percentile_ok_R
              (concat (magnitude_for_threshold magnitude protect_center))
              threshold_percentile Hp) as [t Et].
  exists t. rewrite Et; simpl bind. rewrite notch_mask_ok.
  eexists; split; [reflexivity | split; [reflexivity|]].
  fold h; fold w.
  set (peaks := where_true (peaks_of magnitude t protect_center)).
  set (mask := fold_left (notch_at_pure h w notch_radius) peaks (ones h w)).
  assert (Hm : is_grid h w mask) by apply is_grid_notch_fold, is_grid_ones.
  split; auto. split; [apply NoDup_where_true|].
  intros y x Hy Hx.
  assert (Hget : get 0%R mask y x
                 = fold_left Rmult
                     (map (fun p => notch_ratio notch_radius p y x)
                          (filter (fun p => within notch_radius p y x) peaks))
                     1%R).
  { unfold mask.
    rewrite (get_notch_fold 0%R h w) by auto using is_grid_ones.
    rewrite get_ones by auto. apply notch_entry_product; auto. }
  split; auto. split.
  - intros Hfar.
    assert (H1 : get 0%R mask y x = 1%R).
    { rewrite Hget.
      rewrite filter_none by auto. reflexivity. }
    split; auto. intros spectrum Hs.
    rewrite (get_apply_mask h w) by auto.
    rewrite H1. apply Cmul_RtoC_one.
  - intros Hin.
    assert (H0 : get 0%R mask y x = 0%R)
      by (rewrite Hget; apply notch_entry_at_peak; auto).
    split; auto. intros spectrum Hs.
    rewrite (get_apply_mask h w) by auto.
    rewrite H0. apply Cmul_RtoC_zero.
Qed.

(** ** C8: the whole-image filter *)

Lemma inverse_ok (h w : nat) (s : grid C) :
  is_grid h w s -> (0 < h)%nat -> (0 < w)%nat ->
  exists out, inverse s = Ok out /\ is_grid h w out.
Proof.
  intros Hs Hh Hw; unfold inverse.
  rewrite (ifft2_ok h w) by auto using is_grid_ifftshift.
  simpl bind. eexists; split; [reflexivity|].
  apply is_grid_map, is_grid_map_seq.
Qed.

Lemma is_grid_apply_mask (h w : nat) (s : grid C) (mask : grid R) :
  is_grid h w s -> is_grid h w mask -> is_grid h w (apply_mask s mask).
Proof. apply is_grid_zip_with. Qed.

(** The line filter returns an array of the shape of the channel. *)
Lemma fft_filter_channel_lines_ok (h w : nat) (channel : grid R)
  (line_width protect_center : Z) (attenuation : R) :
  is_grid h w channel -> (0 < h)%nat -> (0 < w)%nat ->
  exists out,
    fft_filter_channel_lines channel line_width protect_center attenuation
    = Ok out
    /\ is_grid h w out.
Proof.
  intros Hc Hh Hw.
  destruct (forward_ok h w channel Hc Hh Hw) as (X & _ & HX & EF & _).
  unfold fft_filter_channel_lines. rewrite EF; simpl bind.
  rewrite (is_grid_height h w _ Hc), (is_grid_width h w _ Hc Hh).
  apply inverse_ok; auto.
  apply is_grid_apply_mask; auto using is_grid_fftshift, is_grid_lines_mask.
Qed.

(** So does the peak filter when the percentile is one that
    [np.percentile] accepts; otherwise it raises. *)
Lemma fft_filter_channel_ok (h w : nat) (channel : grid R)
  (threshold_percentile : R) (notch_radius protect_center : Z) :
  is_grid h w channel -> (0 < h)%nat -> (0 < w)%nat ->
  (0 <= threshold_percentile <= 100)%R ->
  exists out,
    fft_filter_channel channel threshold_percentile notch_radius
                       protect_center
    = Ok out
    /\ is_grid h w out.
Proof.
  intros Hc Hh Hw Hp.
  destruct (forward_ok h w channel Hc Hh Hw) as (X & _ & HX & EF & _).
  unfold fft_filter_channel. rewrite EF; simpl bind.
  assert (HS : is_grid h w (fftshift X)) by (apply is_grid_fftshift; auto).
  assert (HM : is_grid h w (map (map Cabs) (fftshift X)))
    by (apply is_grid_map; auto).
  unfold peaks_mask, threshold_of.
  destruct (percentile_ok_R
              (concat (magnitude_for_threshold (map (map Cabs) (fftshift X))
                                               protect_center))
              threshold_percentile Hp) as [t Et].
  rewrite Et; simpl bind. rewrite notch_mask_ok; simpl bind.
  rewrite (is_grid_height h w _ HM), (is_grid_width h w _ HM Hh).
  apply inverse_ok; auto.
  apply is_grid_apply_mask; auto.
  apply is_grid_notch_fold, is_grid_ones.
Qed.

Lemma fft_filter_channel_range (h w : nat) (channel : grid R)
  (threshold_percentile : R) (notch_radius protect_center : Z) :
  is_grid h w channel -> (0 < h)%nat -> (0 < w)%nat ->
  ~ (0 <= threshold_percentile <= 100)%R ->
  fft_filter_channel channel threshold_percentile notch_radius protect_center
  = Err PercentileRange.
Proof.
  intros Hc Hh Hw Hp.
  destruct (forward_ok h w channel Hc Hh Hw) as (X & _ & HX & EF & _).
  unfold fft_filter_channel. rewrite EF; simpl bind.
  unfold peaks_mask, threshold_of, percentile.
  replace (nltb threshold_percentile n0 || nltb (nofZ 100) threshold_percentile)
    with true; [reflexivity|].
  symmetry; simpl; unfold Rltb.
  destruct (Rlt_dec threshold_percentile 0); auto.
  destruct (Rlt_dec 100 threshold_percentile); auto.
  exfalso; apply Hp; lra.
Qed.

(** C8 (counterexample): a 1 by 1 grayscale image and the peak policy with
    [threshold_percentile = 150]: [np.percentile] rejects the percentile,
    and the whole-image filter returns no image. *)
Lemma fft_remove_pattern_raises :
  is_grid 1 1 [[7%R]]
  /\ fft_remove_pattern (Gray [[7%R]]) 150 3 15 "peaks" 2 (99 / 100)
     = Err PercentileRange.
Proof.
  split; [split; [reflexivity | repeat constructor]|].
  unfold fft_remove_pattern, filter_channel.
  replace ("peaks" =? "lines")%string with false by reflexivity.
  rewrite (fft_filter_channel_range 1 1); auto; try lia.
  - split; [reflexivity | repeat constructor].
  - lra.
Qed.

Lemma is_grid3_set_channel {A} (h w c : nat) (k : nat) (ch : grid A)
  (a : grid (list A)) :
  is_grid3 h w c a -> is_grid h w ch -> is_grid3 h w c (set_channel k ch a).
Proof.
  intros [Ha Hpx] Hch; unfold set_channel; split.
  - apply is_grid_zip_with; auto.
  - apply Forall_zip_with; intros row r Hrow _.
    apply Forall_zip_with; intros px v Hin _.
    rewrite length_upd.
    rewrite Forall_forall in Hpx. specialize (Hpx row Hrow).
    rewrite Forall_forall in Hpx; auto.
Qed.

Lemma is_grid_get_channel {A} (d : A) (h w c k : nat) (a : grid (list A)) :
  is_grid3 h w c a -> is_grid h w (get_channel d k a).
Proof. intros [Ha _]; apply is_grid_map; auto. Qed.

Lemma get_get_channel {A} (d : A) (h w c k : nat) (a : grid (list A))
  (y x : nat) :
  is_grid3 h w c a -> (y < h)%nat -> (x < w)%nat ->
  get d (get_channel d k a) y x = nth k (get [] a y x) d.
Proof.
  intros [Ha _] Hy Hx; unfold get_channel.
  apply (get_map (fun px => nth k px d) [] d h w); auto.
Qed.

(** Writing channel [k] changes channel [k] and no other. *)
Lemma get_channel_set_channel {A} (d : A) (h w c : nat) (k k' : nat)
  (ch : grid A) (a : grid (list A)) :
  is_grid3 h w c a -> is_grid h w ch -> (k < c)%nat ->
  get_channel d k' (set_channel k ch a)
  = if (k =? k')%nat then ch else get_channel d k' a.
Proof.
  intros Ha3 Hch Hk.
  pose proof (is_grid3_set_channel h w c k ch a Ha3 Hch) as Hs3.
  pose proof Ha3 as [Ha Hpx].
  apply (grid_ext d h w).
  - apply (is_grid_get_channel d h w c); auto.
  - destruct (k =? k')%nat; auto. apply (is_grid_get_channel d h w c); auto.
  - intros y x Hy Hx.
    rewrite (get_get_channel d h w c) by auto.
    unfold set_channel.
    rewrite (get_zip_with (fun px v => upd k (fun _ => v) px) [] d [] h w)
      by auto.
    assert (Hlen : length (get [] a y x) = c)
      by (apply (grid_all_get (fun px => length px = c) [] h w); auto).
    destruct (Nat.eqb_spec k k') as [<-|Hne].
    + rewrite nth_upd_same by lia. reflexivity.
    + rewrite nth_upd_other by auto.
      symmetry; apply (get_get_channel d h w c); auto.
Qed.

(** The loop over the channels: each channel of the result is the filter of
    the same channel of the image, and the shape is kept. *)
Lemma channel_loop (h w c : nat) (filter : grid R -> result (grid R))
  (a : grid (list R)) (l : list nat) (res : grid (list R)) :
  (forall ch, is_grid h w ch ->
              exists out, filter ch = Ok out /\ is_grid h w out) ->
  is_grid3 h w c a -> is_grid3 h w c res ->
  NoDup l -> (forall k, In k l -> (k < c)%nat) ->
  exists res',
    for_each l
      (fun k res =>
         bind (filter (get_channel 0%R k a))
              (fun r => Ok (set_channel k r res)))
      res
    = Ok res'
    /\ is_grid3 h w c res'
    /\ (forall k, In k l ->
          filter (get_channel 0%R k a) = Ok (get_channel 0%R k res'))
    /\ (forall k, ~ In k l ->
          get_channel 0%R k res' = get_channel 0%R k res).
Proof.
  intros Hf Ha; revert res; induction l as [|k l IH]; intros res Hres Hnd Hlt.
  - exists res; simpl.
    split; [reflexivity | split; [auto | split; [intros k [] | auto]]].
  - inversion Hnd as [|? ? Hnotin Hnd']; subst.
    destruct (Hf (get_channel 0%R k a)) as [out [Eout Hout]].
    { apply (is_grid_get_channel 0%R h w c); auto. }
    assert (Hk : (k < c)%nat) by (apply Hlt; simpl; auto).
    destruct (IH (set_channel k out res)) as (res' & E & Hg & Hin & Hout').
    { apply is_grid3_set_channel; auto. }
    { auto. }
    { intros; apply Hlt; simpl; auto. }
    exists res'. simpl. rewrite Eout; simpl bind.
    split; [exact E | split; [exact Hg | split]].
    + intros k' [<-|Hk']; auto.
      rewrite Eout, (Hout' k Hnotin).
      rewrite (get_channel_set_channel 0%R h w c) by auto.
      rewrite Nat.eqb_refl. reflexivity.
    + intros k' Hk'.
      rewrite Hout' by (intros Hin'; apply Hk'; simpl; auto).
      rewrite (get_channel_set_channel 0%R h w c) by auto.
      destruct (Nat.eqb_spec k k') as [->|]; auto.
      exfalso; apply Hk'; simpl; auto.
Qed.

Lemma is_grid3_zeros_like {A B} (h w c : nat) (z : B) (a : grid (list A)) :
  is_grid3 h w c a -> is_grid3 h w c (map (map (map (fun _ => z))) a).
Proof.
  intros [Ha Hpx]; split; [apply is_grid_map; auto|].
  apply Forall_forall; intros row Hrow.
  apply in_map_iff in Hrow as [row0 [<- Hrow0]].
  apply Forall_forall; intros px Hin.
  apply in_map_iff in Hin as [px0 [<- Hpx0]].
  rewrite length_map.
  rewrite Forall_forall in Hpx. specialize (Hpx row0 Hrow0).
  rewrite Forall_forall in Hpx; auto.
Qed.

Lemma filter_channel_ok (h w : nat) (method : string)
  (threshold_percentile : R) (notch_radius protect_center line_width : Z)
  (attenuation : R) (channel : grid R) :
  method = "lines"%string \/ (0 <= threshold_percentile <= 100)%R ->
  (0 < h)%nat -> (0 < w)%nat -> is_grid h w channel ->
  exists out,
    filter_channel method threshold_percentile notch_radius protect_center
                   line_width attenuation channel
    = Ok out
    /\ is_grid h w out.
Proof.
  intros Hcfg Hh Hw Hc; unfold filter_channel.
  destruct (String.eqb_spec method "lines") as [E|E].
  - apply fft_filter_channel_lines_ok; auto.
  - destruct Hcfg as [Hm|Hp]; [contradiction|].
    apply fft_filter_channel_ok; auto.
Qed.

(** C8 (amended): for every image with non-empty axes and every
    configuration on which the channel filter returns (any configuration of
    the line policy; a percentile in [0, 100] for the peak policy), the
    whole-image filter returns an image of the same kind and the same
    height, width and channel count, and each output channel is the
    single-channel filter applied to the same input channel alone, with
    the same parameters. *)
Theorem fft_remove_pattern_channels (img : image R) (h w c : nat)
  (threshold_percentile : R) (notch_radius protect_center : Z)
  (method : string) (line_width : Z) (attenuation : R) :
  image_shape h w c img -> (0 < h)%nat -> (0 < w)%nat ->
  method = "lines"%string \/ (0 <= threshold_percentile <= 100)%R ->
  exists out,
    fft_remove_pattern img threshold_percentile notch_radius protect_center
                       method line_width attenuation
    = Ok out
    /\ same_kind img out
    /\ image_shape h w c out
    /\ forall k, (k < channel_count c img)%nat ->
         filter_channel method threshold_percentile notch_radius
                        protect_center line_width attenuation
                        (channel_of k img)
         = Ok (channel_of k out).
Proof.
  intros Hshape Hh Hw Hcfg.
  destruct img as [a|a]; simpl in Hshape; unfold fft_remove_pattern.
  - destruct (filter_channel_ok h w method threshold_percentile notch_radius
                protect_center line_width attenuation a Hcfg Hh Hw Hshape)
      as [out [E Hout]].
    rewrite E; simpl bind. exists (Gray out); simpl.
    split; [reflexivity | split; [exact I | split; [exact Hout|]]].
    intros k _; exact E.
  - rewrite (is_grid3_depth h w c a Hshape Hh Hw).
    destruct (channel_loop h w c
                (filter_channel method threshold_percentile notch_radius
                                protect_center line_width attenuation)
                a (seq 0 c) (map (map (map (fun _ => 0%R))) a))
      as (res & E & Hres & Hin & _).
    + intros ch Hch. apply filter_channel_ok; auto.
    + auto.
    + apply is_grid3_zeros_like; auto.
    + apply seq_NoDup.
    + intros k Hk; apply in_seq in Hk; lia.
    + rewrite E; simpl bind. exists (Color res); simpl.
      split; [reflexivity | split; [exact I | split; [exact Hres|]]].
      intros k Hk. apply Hin, in_seq; lia.
Qed.

Lemma fft_remove_pattern_channels_witness :
  exists out,
    fft_remove_pattern (Color [[[1; 2; 3]; [4; 5; 6]]]%R) 50 3 15 "peaks" 2
                       (99 / 100)
    = Ok out
    /\ image_shape 1 2 3 out.
Proof.
  destruct (fft_remove_pattern_channels
              (Color [[[1; 2; 3]; [4; 5; 6]]]%R) 1 2 3 50 3 15 "peaks" 2
              (99 / 100))
    as (out & E & _ & Hs & _).
  - split; [split; [reflexivity|] |]; repeat constructor.
  - lia.
  - lia.
  - right; lra.
  - exists out; split; assumption.
Defined.

(** ** C1: the failing input, from the channel to the mask *)

(** *** A 2 by 2 channel, transformed by hand *)

Lemma root_two : root 2 = (-1, 0)%R.
Proof.
  unfold root.
  replace (2 * PI / INR 2)%R with PI by (simpl; field).
  rewrite cos_PI, sin_PI, Ropp_0. reflexivity.
Qed.

Lemma Cabs_real (x : R) : Cabs (x, 0%R) = Rabs x.
Proof.
  unfold Cabs; simpl.
  replace (x * (x * 1) + 0 * (0 * 1))%R with (Rsqr x) by (unfold Rsqr; ring).
  apply sqrt_Rsqr_abs.
Qed.

(** The shifted magnitude spectrum of a 2 by 2 channel. *)
Lemma forward_2x2 (a b c d : R) :
  exists s,
    forward [[a; b]; [c; d]] = Ok s
    /\ map (map Cabs) s
       = [[Rabs (a - b - c + d); Rabs (a + b - c - d)];
          [Rabs (a - b + c - d); Rabs (a + b + c + d)]].
Proof.
  unfold forward, fft2.
  cbn [height width length hd map Nat.eqb orb bind seq].
  rewrite root_two.
  cbn [Csum Nat.mul Nat.add Cpow get nth].
  eexists; split; [reflexivity|].
  unfold fftshift, fftshift1, roll.
  cbn [map length Nat.div Nat.divmod fst Nat.sub skipn firstn app].
  repeat f_equal; rewrite <- Cabs_real; f_equal; unfold get, RtoC, Cadd, Cmul,
    C0, C1; cbn [nth fst snd]; apply C_eq; cbn [fst snd]; ring.
Qed.

(** The magnitudes [[1, 3], [5, 9]] are the shifted magnitude spectrum of
    the channel [[4.5, 1.5], [2.5, 0.5]]. *)
Lemma forward_2x2_example :
  exists s,
    forward [[9 / 2; 3 / 2]; [5 / 2; 1 / 2]]%R = Ok s
    /\ map (map Cabs) s = [[1; 3]; [5; 9]]%R.
Proof.
  destruct (forward_2x2 (9 / 2) (3 / 2) (5 / 2) (1 / 2)) as [s [Es Em]].
  exists s; split; auto. rewrite Em.
  replace (9 / 2 - 3 / 2 - 5 / 2 + 1 / 2)%R with 1%R by field.
  replace (9 / 2 + 3 / 2 - 5 / 2 - 1 / 2)%R with 3%R by field.
  replace (9 / 2 - 3 / 2 + 5 / 2 - 1 / 2)%R with 5%R by field.
  replace (9 / 2 + 3 / 2 + 5 / 2 + 1 / 2)%R with 9%R by field.
  rewrite !Rabs_pos_eq by lra. reflexivity.
Qed.

(** *** Comparisons and floors of explicit reals *)

Lemma Int_part_val (r : R) (z : Z) :
  (IZR z <= r < IZR z + 1)%R -> Int_part r = z.
Proof.
  intros [Hlo Hhi]; unfold Int_part.
  rewrite <- (tech_up r (z + 1)); [lia | |]; rewrite plus_IZR; lra.
Qed.

Lemma Rleb_true (a b : R) : (a <= b)%R -> Rleb a b = true.
Proof. intros; unfold Rleb; destruct (Rle_dec a b); auto; contradiction. Qed.

Lemma Rleb_false (a b : R) : (b < a)%R -> Rleb a b = false.
Proof. intros; unfold Rleb; destruct (Rle_dec a b); auto; lra. Qed.

Lemma Rltb_true (a b : R) : (a < b)%R -> Rltb a b = true.
Proof. intros; unfold Rltb; destruct (Rlt_dec a b); auto; contradiction. Qed.

Lemma Rltb_false (a b : R) : (b <= a)%R -> Rltb a b = false.
Proof. intros; unfold Rltb; destruct (Rlt_dec a b); auto; lra. Qed.

Ltac real_compare :=
  repeat (cbn [insert_sorted nleb nltb n0 nofZ Num_R];
          first [ rewrite Rleb_true by lra
                | rewrite Rleb_false by lra
                | rewrite Rltb_true by lra
                | rewrite Rltb_false by lra ]).

(** *** The peak policy on the channel [[1, 0], [1, 0]] *)

Lemma threshold_example :
  exists t, threshold_of [[0; 0]; [2; 2]]%R 50%R 0 = Ok t /\ t = 0%R.
Proof.
  unfold threshold_of, magnitude_for_threshold.
  replace (center_disc (height [[0; 0]; [2; 2]]%R) (width [[0; 0]; [2; 2]]%R) 0)
    with [[false; false]; [false; true]] by reflexivity.
  cbn [set_where zip_with concat app n0 Num_R].
  unfold percentile.
  real_compare. cbn [orb sort fold_right].
  real_compare.
  cbn [length nsub nmul ndiv nadd nfloor nofZ Num_R].
  change (Z.of_nat 4 - 1)%Z with 3%Z.
  rewrite (Int_part_val (50 / 100 * 3) 1) by lra.
  change (Z.to_nat 1) with 1%nat.
  change (Z.to_nat (Z.min (1 + 1) 3)) with 2%nat.
  cbn [nth].
  eexists; split; [reflexivity | ring].
Qed.

Lemma peaks_example (t : R) :
  t = 0%R -> where_true (peaks_of [[0; 0]; [2; 2]]%R t 0) = [(1, 0)%nat].
Proof.
  intros ->. unfold peaks_of.
  replace (center_disc (height [[0; 0]; [2; 2]]%R) (width [[0; 0]; [2; 2]]%R) 0)
    with [[false; false]; [false; true]] by reflexivity.
  cbn [map]. real_compare. reflexivity.
Qed.

(** C1 (failing input): the channel [[1, 0], [1, 0]] with
    [threshold_percentile = 50], [notch_radius = 2], [protect_center = 0].
    Its shifted magnitude spectrum is [[0, 0], [2, 2]]; the protected disc
    is the DC bin (1, 1) alone; the threshold is 0, so bin (1, 0) is the
    only peak kept; its notch, of radius 2, covers the DC bin at distance 1,
    and the mask there is (1/2)^2 = 1/4: the peak policy has no statement
    that sets the disc back to 1. *)
Theorem peak_filter_attenuates_dc :
  exists spectrum mask,
    forward [[1; 0]; [1; 0]]%R = Ok spectrum
    /\ map (map Cabs) spectrum = [[0; 0]; [2; 2]]%R
    /\ get false (center_disc 2 2 0) 1 1 = true
    /\ peaks_mask (map (map Cabs) spectrum) 50%R 2 0 = Ok mask
    /\ get 0%R mask 1 1 = (1 / 4)%R.
Proof.
  destruct (forward_2x2 1 0 1 0) as [s [Es Em]].
  assert (Em' : map (map Cabs) s = [[0; 0]; [2; 2]]%R).
  { rewrite Em.
    replace (1 - 0 - 1 + 0)%R with 0%R by ring.
    replace (1 + 0 - 1 - 0)%R with 0%R by ring.
    replace (1 - 0 + 1 - 0)%R with 2%R by ring.
    replace (1 + 0 + 1 + 0)%R with 2%R by ring.
    rewrite Rabs_R0, (Rabs_pos_eq 2) by lra. reflexivity. }
  exists s. rewrite Em'.
  destruct threshold_example as [t [Et Ht]].
  unfold peaks_mask. rewrite Et; simpl bind.
  rewrite (peaks_example t Ht), notch_mask_ok.
  change (height [[0; 0]; [2; 2]]%R) with 2%nat.
  change (width [[0; 0]; [2; 2]]%R) with 2%nat.
  eexists; split; [exact Es | split; [reflexivity | split; [reflexivity|]]].
  split; [reflexivity|].
  rewrite (get_notch_fold 0%R 2 2) by (try apply is_grid_ones; lia).
  rewrite get_ones by lia.
  cbn [fold_left fst snd].
  replace (near 2 1 0 1 1) with true by reflexivity.
  unfold notch_weight, dist2.
  replace (0 <? (Z.of_nat 1 - Z.of_nat 1) ^ 2 + (Z.of_nat 1 - Z.of_nat 0) ^ 2)%Z
    with true by reflexivity.
  cbn [nmul ndiv nofZ n1 Num_R].
  change ((Z.of_nat 1 - Z.of_nat 1) ^ 2 + (Z.of_nat 1 - Z.of_nat 0) ^ 2)%Z
    with 1%Z.
  change (2 * 2)%Z with 4%Z. lra.
Qed.

(** ** Further properties of the tiling *)

Lemma div_mod_split (n y : nat) :
  (0 < n)%nat -> y = (y / n * n + y mod n)%nat.
Proof. intros Hn. rewrite (Nat.div_mod_eq y n) at 1. lia. Qed.

(** The result of the two loops, tile by tile, for the arrays of either
    kind. *)
Lemma create_tiled_texture_tiles {A} (zero : A) (h w c : nat)
  (img : image A) (tiles_x tiles_y : nat) (mirror : bool) :
  image_shape h w c img -> (0 < h)%nat -> (0 < w)%nat -> tileable c img ->
  exists out,
    create_tiled_texture zero img tiles_x tiles_y mirror = Ok out
    /\ same_kind img out
    /\ image_shape (h * tiles_y) (w * tiles_x) c out
    /\ forall ty tx i j k,
         (ty < tiles_y)%nat -> (tx < tiles_x)%nat ->
         (i < h)%nat -> (j < w)%nat ->
         sample_at zero out (ty * h + i) (tx * w + j) k
         = sample_at zero img (mirror_index mirror h ty i)
                              (mirror_index mirror w tx j) k.
Proof.
  intros Hs Hh Hw Ht.
  destruct img as [a|a]; simpl in Hs, Ht.
  - destruct (create_tiled_texture_gray zero h w a tiles_x tiles_y mirror Hs Hh)
      as (res & E & Hres & Hget).
    exists (Gray res).
    split; [exact E | split; [exact I | split; [exact Hres|]]].
    intros ty tx i j k Hty Htx Hi Hj. simpl sample_at. unfold mirror_index.
    apply Hget; auto.
  - destruct (create_tiled_texture_color zero h w c a tiles_x tiles_y mirror
                Hs Hh Hw Ht) as (res & E & Hres & Hget).
    exists (Color res).
    split; [exact E | split; [exact I | split; [exact Hres|]]].
    intros ty tx i j k Hty Htx Hi Hj. simpl sample_at. unfold mirror_index.
    rewrite Hget; auto.
Qed.

Lemma image_ext {A} (d : A) (h w c : nat) (img out : image A) :
  same_kind img out -> image_shape h w c img -> image_shape h w c out ->
  (forall y x k, (y < h)%nat -> (x < w)%nat ->
                 sample_at d out y x k = sample_at d img y x k) ->
  out = img.
Proof.
  intros Hk Hi Ho Hs.
  destruct img as [a|a], out as [b|b]; simpl in *; try contradiction; f_equal.
  - apply (grid_ext d h w); auto; intros y x Hy Hx; apply (Hs y x 0%nat); auto.
  - destruct Hi as [Ha Hpa], Ho as [Hb Hpb].
    apply (grid_ext [] h w); auto. intros y x Hy Hx.
    assert (La : length (get [] a y x) = c)
      by (apply (grid_all_get (fun px => length px = c) [] h w); auto).
    assert (Lb : length (get [] b y x) = c)
      by (apply (grid_all_get (fun px => length px = c) [] h w); auto).
    apply (list_ext d); [lia|]. intros k _. apply Hs; auto.
Qed.

Lemma mirror_index_first (mirror : bool) (n i : nat) :
  mirror_index mirror n 0 i = i.
Proof. unfold mirror_index. rewrite andb_false_r. reflexivity. Qed.

Lemma mirror_index_period (mirror : bool) (n t i : nat) :
  mirror_index mirror n (t + (if mirror then 2 else 1)) i
  = mirror_index mirror n t i.
Proof.
  unfold mirror_index. destruct mirror; cbn [andb]; auto.
  assert (E : ((t + 2) mod 2 = t mod 2)%nat)
    by (rewrite <- (Nat.Div0.mod_add t 1 2); f_equal; lia).
  rewrite E; reflexivity.
Qed.

Lemma mirror_index_seam (n t : nat) :
  (0 < n)%nat ->
  mirror_index true n t (n - 1) = mirror_index true n (S t) 0.
Proof.
  intros Hn; unfold mirror_index; cbn [andb].
  replace (S t mod 2 =? 1)%nat with (negb (t mod 2 =? 1)%nat).
  - destruct (t mod 2 =? 1)%nat; simpl; lia.
  - pose proof (Nat.mod_upper_bound t 2).
    pose proof (Nat.mod_upper_bound (S t) 2).
    assert (Hs : (S t mod 2 = (t mod 2 + 1) mod 2)%nat).
    { replace (S t) with (t + 1)%nat by lia.
      rewrite Nat.Div0.add_mod_idemp_l; auto. }
    destruct (t mod 2) as [|[|r]] eqn:Et; [| |lia]; rewrite Hs; reflexivity.
Qed.

Lemma mirror_index_reflect (n tiles t i : nat) :
  Nat.even tiles = true -> (t < tiles)%nat -> (i < n)%nat ->
  mirror_index true n (tiles - 1 - t) (n - 1 - i) = mirror_index true n t i.
Proof.
  intros He Ht Hi; unfold mirror_index; cbn [andb].
  apply Nat.even_spec in He as [m ->].
  pose proof (Nat.div_mod_eq t 2) as E1.
  pose proof (Nat.div_mod_eq (2 * m - 1 - t) 2) as E2.
  pose proof (Nat.mod_upper_bound t 2) as B1.
  pose proof (Nat.mod_upper_bound (2 * m - 1 - t) 2) as B2.
  destruct (Nat.eqb_spec ((2 * m - 1 - t) mod 2) 1) as [Ea|Ea];
    destruct (Nat.eqb_spec (t mod 2) 1) as [Eb|Eb]; lia.
Qed.

(** Absolute coordinates of a pixel of the result, in tile coordinates. *)
Lemma tile_coordinates (n tiles y : nat) :
  (0 < n)%nat -> (y < n * tiles)%nat ->
  (y / n < tiles)%nat /\ (y mod n < n)%nat /\ y = (y / n * n + y mod n)%nat.
Proof.
  intros Hn Hy. split; [|split].
  - apply Nat.Div0.div_lt_upper_bound; auto.
  - apply Nat.mod_upper_bound; lia.
  - apply div_mod_split; auto.
Qed.

(** X1: For a 2-D array, or a 3-D array with a channel count other than
    1, with non-empty axes, [create_tiled_texture] returns an array of the
    same kind, of shape [(h * tiles_y, w * tiles_x)] with the channel count
    of the image, and its pixel [(y, x)] is the pixel of the image at
    [(y mod h, x mod w)], reflected along an axis in the odd-numbered tiles
    of that axis when [mirror] is set. *)
Theorem create_tiled_texture_samples {A} (zero : A) (h w c : nat)
  (img : image A) (tiles_x tiles_y : nat) (mirror : bool) :
  image_shape h w c img -> (0 < h)%nat -> (0 < w)%nat -> tileable c img ->
  exists out,
    create_tiled_texture zero img tiles_x tiles_y mirror = Ok out
    /\ same_kind img out
    /\ image_shape (h * tiles_y) (w * tiles_x) c out
    /\ forall y x k, (y < h * tiles_y)%nat -> (x < w * tiles_x)%nat ->
         sample_at zero out y x k
         = sample_at zero img
             (mirror_index mirror h (y / h) (y mod h))
             (mirror_index mirror w (x / w) (x mod w)) k.
Proof.
  intros Hs Hh Hw Ht.
  destruct (create_tiled_texture_tiles zero h w c img tiles_x tiles_y mirror
              Hs Hh Hw Ht) as (out & E & Hk & Ho & Hget).
  exists out. split; [exact E | split; [exact Hk | split; [exact Ho|]]].
  intros y x k Hy Hx.
  destruct (tile_coordinates h tiles_y y Hh Hy) as (Hty & Hi & Ey).
  destruct (tile_coordinates w tiles_x x Hw Hx) as (Htx & Hj & Ex).
  rewrite Ey at 1. rewrite Ex at 1. apply Hget; auto.
Qed.

Lemma create_tiled_texture_samples_witness :
  exists out,
    create_tiled_texture 0%Z (Gray [[1; 2]; [3; 4]]%Z) 2 2 true = Ok out
    /\ sample_at 0%Z out 3 3 0 = 1%Z.
Proof.
  destruct (create_tiled_texture_samples 0%Z 2 2 1 (Gray [[1; 2]; [3; 4]]%Z)
              2 2 true) as (out & E & _ & _ & Hget).
  - split; [reflexivity | repeat constructor].
  - lia.
  - lia.
  - exact I.
  - exists out; split; [exact E|].
    rewrite (Hget 3 3 0)%nat by lia. reflexivity.
Defined.

(** X2: One tile in each direction gives back the image itself, with or
    without mirroring. *)
Theorem create_tiled_texture_one_tile {A} (zero : A) (h w c : nat)
  (img : image A) (mirror : bool) :
  image_shape h w c img -> (0 < h)%nat -> (0 < w)%nat -> tileable c img ->
  create_tiled_texture zero img 1 1 mirror = Ok img.
Proof.
  intros Hs Hh Hw Ht.
  destruct (create_tiled_texture_tiles zero h w c img 1 1 mirror Hs Hh Hw Ht)
    as (out & E & Hk & Ho & Hget).
  rewrite E; f_equal.
  rewrite !Nat.mul_1_r in Ho.
  apply (image_ext zero h w c); auto.
  intros y x k Hy Hx.
  specialize (Hget 0 0 y x k)%nat. cbn [Nat.mul Nat.add] in Hget.
  rewrite Hget by lia.
  rewrite !mirror_index_first. reflexivity.
Qed.

Lemma create_tiled_texture_one_tile_witness :
  create_tiled_texture 0%Z (Color [[[1; 2; 3]; [4; 5; 6]]]%Z) 1 1 true
  = Ok (Color [[[1; 2; 3]; [4; 5; 6]]]%Z).
Proof.
  apply (create_tiled_texture_one_tile 0%Z 1 2 3); try lia.
  - split; [split; [reflexivity|] |]; repeat constructor.
  - simpl; lia.
Defined.

(** X3: The result repeats along both axes: with period [h] and [w]
    without mirroring, with period [2 h] and [2 w] with it. *)
Theorem create_tiled_texture_periodic {A} (zero : A) (h w c : nat)
  (img : image A) (tiles_x tiles_y : nat) (mirror : bool) :
  image_shape h w c img -> (0 < h)%nat -> (0 < w)%nat -> tileable c img ->
  let p := if mirror then 2%nat else 1%nat in
  exists out,
    create_tiled_texture zero img tiles_x tiles_y mirror = Ok out
    /\ (forall y x k, (y + p * h < h * tiles_y)%nat -> (x < w * tiles_x)%nat ->
          sample_at zero out (y + p * h) x k = sample_at zero out y x k)
    /\ (forall y x k, (y < h * tiles_y)%nat -> (x + p * w < w * tiles_x)%nat ->
          sample_at zero out y (x + p * w) k = sample_at zero out y x k).
Proof.
  intros Hs Hh Hw Ht p.
  destruct (create_tiled_texture_tiles zero h w c img tiles_x tiles_y mirror
              Hs Hh Hw Ht) as (out & E & Hk & Ho & Hget).
  exists out; split; [exact E | split].
  - intros y x k Hy Hx.
    assert (Hy' : (y < h * tiles_y)%nat) by lia.
    destruct (tile_coordinates h tiles_y y Hh Hy') as (Hty & Hi & Ey).
    destruct (tile_coordinates w tiles_x x Hw Hx) as (Htx & Hj & Ex).
    set (ty := (y / h)%nat) in *. set (i := (y mod h)%nat) in *.
    set (tx := (x / w)%nat) in *. set (j := (x mod w)%nat) in *.
    rewrite Ey, Ex.
    replace (ty * h + i + p * h)%nat with ((ty + p) * h + i)%nat by lia.
    rewrite !Hget by (auto; nia).
    unfold p. rewrite mirror_index_period. reflexivity.
  - intros y x k Hy Hx.
    assert (Hx' : (x < w * tiles_x)%nat) by lia.
    destruct (tile_coordinates h tiles_y y Hh Hy) as (Hty & Hi & Ey).
    destruct (tile_coordinates w tiles_x x Hw Hx') as (Htx & Hj & Ex).
    set (ty := (y / h)%nat) in *. set (i := (y mod h)%nat) in *.
    set (tx := (x / w)%nat) in *. set (j := (x mod w)%nat) in *.
    rewrite Ey, Ex.
    replace (tx * w + j + p * w)%nat with ((tx + p) * w + j)%nat by lia.
    rewrite !Hget by (auto; nia).
    unfold p. rewrite mirror_index_period. reflexivity.
Qed.

Lemma create_tiled_texture_periodic_witness :
  exists out,
    create_tiled_texture 0%Z (Gray [[1; 2]; [3; 4]]%Z) 4 4 true = Ok out
    /\ sample_at 0%Z out (1 + 2 * 2) 3 0 = sample_at 0%Z out 1 3 0.
Proof.
  destruct (create_tiled_texture_periodic 0%Z 2 2 1 (Gray [[1; 2]; [3; 4]]%Z)
              4 4 true) as (out & E & Hv & _).
  - split; [reflexivity | repeat constructor].
  - lia.
  - lia.
  - exact I.
  - exists out; split; [exact E|].
    apply (Hv 1 3 0)%nat; lia.
Defined.

(** X4: With mirroring, the pixels on the two sides of every boundary
    between two tiles are equal: the last row of a tile is the first row of
    the tile below it, and the last column of a tile is the first column of
    the tile to its right. *)
Theorem create_tiled_texture_seamless {A} (zero : A) (h w c : nat)
  (img : image A) (tiles_x tiles_y : nat) :
  image_shape h w c img -> (0 < h)%nat -> (0 < w)%nat -> tileable c img ->
  exists out,
    create_tiled_texture zero img tiles_x tiles_y true = Ok out
    /\ (forall ty x k, (S ty < tiles_y)%nat -> (x < w * tiles_x)%nat ->
          sample_at zero out (ty * h + (h - 1)) x k
          = sample_at zero out (S ty * h) x k)
    /\ (forall tx y k, (S tx < tiles_x)%nat -> (y < h * tiles_y)%nat ->
          sample_at zero out y (tx * w + (w - 1)) k
          = sample_at zero out y (S tx * w) k).
Proof.
  intros Hs Hh Hw Ht.
  destruct (create_tiled_texture_tiles zero h w c img tiles_x tiles_y true
              Hs Hh Hw Ht) as (out & E & Hk & Ho & Hget).
  exists out; split; [exact E | split].
  - intros ty x k Hty Hx.
    destruct (tile_coordinates w tiles_x x Hw Hx) as (Htx & Hj & Ex).
    rewrite Ex.
    replace (S ty * h)%nat with (S ty * h + 0)%nat by lia.
    rewrite !Hget by (auto; lia).
    rewrite mirror_index_seam by auto. reflexivity.
  - intros tx y k Htx Hy.
    destruct (tile_coordinates h tiles_y y Hh Hy) as (Hty & Hi & Ey).
    rewrite Ey.
    replace (S tx * w)%nat with (S tx * w + 0)%nat by lia.
    rewrite !Hget by (auto; lia).
    rewrite mirror_index_seam by auto. reflexivity.
Qed.

Lemma create_tiled_texture_seamless_witness :
  exists out,
    create_tiled_texture 0%Z (Gray [[1; 2]; [3; 4]]%Z) 2 2 true = Ok out
    /\ sample_at 0%Z out (0 * 2 + (2 - 1)) 0 0 = sample_at 0%Z out (1 * 2) 0 0.
Proof.
  destruct (create_tiled_texture_seamless 0%Z 2 2 1 (Gray [[1; 2]; [3; 4]]%Z)
              2 2) as (out & E & Hv & _).
  - split; [reflexivity | repeat constructor].
  - lia.
  - lia.
  - exact I.
  - exists out; split; [exact E|].
    apply (Hv 0 0 0)%nat; lia.
Defined.

(** X5: With mirroring and an even number of tiles along an axis, the
    result is symmetric along that axis: reading it from the bottom up, or
    from right to left, gives the same array.  In particular its first and
    last rows (columns) are equal, so the result tiles again without
    seams. *)
Theorem create_tiled_texture_symmetric {A} (zero : A) (h w c : nat)
  (img : image A) (tiles_x tiles_y : nat) :
  image_shape h w c img -> (0 < h)%nat -> (0 < w)%nat -> tileable c img ->
  exists out,
    create_tiled_texture zero img tiles_x tiles_y true = Ok out
    /\ (Nat.even tiles_y = true ->
        forall y x k, (y < h * tiles_y)%nat -> (x < w * tiles_x)%nat ->
          sample_at zero out (h * tiles_y - 1 - y) x k
          = sample_at zero out y x k)
    /\ (Nat.even tiles_x = true ->
        forall y x k, (y < h * tiles_y)%nat -> (x < w * tiles_x)%nat ->
          sample_at zero out y (w * tiles_x - 1 - x) k
          = sample_at zero out y x k).
Proof.
  intros Hs Hh Hw Ht.
  destruct (create_tiled_texture_tiles zero h w c img tiles_x tiles_y true
              Hs Hh Hw Ht) as (out & E & Hk & Ho & Hget).
  exists out; split; [exact E | split].
  - intros He y x k Hy Hx.
    destruct (tile_coordinates h tiles_y y Hh Hy) as (Hty & Hi & Ey).
    destruct (tile_coordinates w tiles_x x Hw Hx) as (Htx & Hj & Ex).
    set (ty := (y / h)%nat) in *. set (i := (y mod h)%nat) in *.
    set (tx := (x / w)%nat) in *. set (j := (x mod w)%nat) in *.
    rewrite Ey, Ex.
    replace (h * tiles_y - 1 - (ty * h + i))%nat
      with ((tiles_y - 1 - ty) * h + (h - 1 - i))%nat by nia.
    rewrite !Hget by (auto; lia).
    rewrite mirror_index_reflect by auto. reflexivity.
  - intros He y x k Hy Hx.
    destruct (tile_coordinates h tiles_y y Hh Hy) as (Hty & Hi & Ey).
    destruct (tile_coordinates w tiles_x x Hw Hx) as (Htx & Hj & Ex).
    set (ty := (y / h)%nat) in *. set (i := (y mod h)%nat) in *.
    set (tx := (x / w)%nat) in *. set (j := (x mod w)%nat) in *.
    rewrite Ey, Ex.
    replace (w * tiles_x - 1 - (tx * w + j))%nat
      with ((tiles_x - 1 - tx) * w + (w - 1 - j))%nat by nia.
    rewrite !Hget by (auto; lia).
    rewrite mirror_index_reflect by auto. reflexivity.
Qed.

Lemma create_tiled_texture_symmetric_witness :
  exists out,
    create_tiled_texture 0%Z (Gray [[1; 2]; [3; 4]]%Z) 2 2 true = Ok out
    /\ sample_at 0%Z out (2 * 2 - 1 - 0) 1 0 = sample_at 0%Z out 0 1 0.
Proof.
  destruct (create_tiled_texture_symmetric 0%Z 2 2 1 (Gray [[1; 2]; [3; 4]]%Z)
              2 2) as (out & E & Hv & _).
  - split; [reflexivity | repeat constructor].
  - lia.
  - lia.
  - exact I.
  - exists out; split; [exact E|].
    apply (Hv eq_refl 0 1 0)%nat; lia.
Defined.

(** X6: A 3-D array with a single channel is handled as a 2-D one and
    gets a fourth axis: unless it is 1 by 1, the block assignment of the
    first tile raises, whatever the tile counts (at least one tile) and the
    mirroring. *)
Theorem create_tiled_texture_single_channel_raises {A} (zero : A) (h w : nat)
  (a : grid (list A)) (tiles_x tiles_y : nat) (mirror : bool) :
  is_grid3 h w 1 a -> (0 < h)%nat -> (0 < w)%nat ->
  (0 < tiles_x)%nat -> (0 < tiles_y)%nat -> (h, w) <> (1, 1)%nat ->
  create_tiled_texture zero (Color a) tiles_x tiles_y mirror
  = Err BroadcastError.
Proof.
  intros Ha Hh Hw Htx Hty Hne. unfold create_tiled_texture.
  pose proof Ha as [Hg _].
  rewrite (is_grid_height h w a Hg), (is_grid_width h w a Hg Hh).
  rewrite (is_grid3_depth h w 1 a Ha Hh Hw). cbn [Nat.eqb].
  assert (Eb : ((h =? 1) && (w =? 1))%nat = false).
  { destruct (Nat.eqb_spec h 1) as [->|]; auto.
    destruct (Nat.eqb_spec w 1) as [->|]; auto. congruence. }
  destruct tiles_y as [|ny]; [lia|]. destruct tiles_x as [|nx]; [lia|].
  unfold tile_loop. cbn [seq for_each]. unfold assign4 at 1. rewrite Eb.
  reflexivity.
Qed.

Lemma create_tiled_texture_single_channel_raises_witness :
  create_tiled_texture 0%Z (Color [[[5]; [6]; [7]]]%Z) 1 1 false
  = Err BroadcastError.
Proof.
  apply (create_tiled_texture_single_channel_raises 0%Z 1 3); try lia.
  - split; [split; [reflexivity|] |]; repeat constructor.
  - congruence.
Defined.

Lemma make_tile_single {P} (mirror : bool) (tx ty : nat) (v : P) :
  make_tile mirror tx ty [[v]] = [[v]].
Proof.
  unfold make_tile; cbv zeta.
  destruct mirror; auto.
  destruct (ty mod 2 =? 1)%nat, (tx mod 2 =? 1)%nat; reflexivity.
Qed.

(** X7: The one 3-D array with a single channel that is tiled without an
    error is the array of shape (1, 1, 1): the result is then a 2-D array,
    of shape [(tiles_y, tiles_x)], filled with the sample; the channel axis
    of the input is lost. *)
Theorem create_tiled_texture_single_pixel {A} (zero v : A)
  (tiles_x tiles_y : nat) (mirror : bool) :
  create_tiled_texture zero (Color [[[v]]]) tiles_x tiles_y mirror
  = Ok (Gray (repeat (repeat v tiles_x) tiles_y)).
Proof.
  unfold create_tiled_texture.
  change (height [[[v]]]) with 1%nat. change (width [[[v]]]) with 1%nat.
  change (depth [[[v]]]) with 1%nat. cbn [Nat.eqb map].
  assert (E : tile_loop 1 1 tiles_x tiles_y mirror [[[[v]]]] (assign4 1 1)
                (zeros3 zero (1 * tiles_y) (1 * tiles_x) 1)
              = Ok (tiles_pure 1 1 tiles_x tiles_y mirror [[[v]]]
                      (zeros3 zero (1 * tiles_y) (1 * tiles_x) 1))).
  { unfold tile_loop, tiles_pure.
    apply for_each_pure; intros ty s _.
    apply for_each_pure; intros tx s' _.
    unfold assign4. cbn [Nat.eqb andb].
    rewrite !make_tile_single. reflexivity. }
  rewrite E; cbn [bind]. do 2 f_equal.
  assert (H1 : is_grid 1 1 [[[v]]])
    by (split; [reflexivity | repeat constructor]).
  assert (Hres : is_grid (1 * tiles_y) (1 * tiles_x)
                   (tiles_pure 1 1 tiles_x tiles_y mirror [[[v]]]
                      (zeros3 zero (1 * tiles_y) (1 * tiles_x) 1)))
    by (apply is_grid_tiles; auto using is_grid_zeros3).
  apply (grid_ext zero (1 * tiles_y) (1 * tiles_x)).
  - apply is_grid_map; auto.
  - rewrite !Nat.mul_1_l. split; [apply repeat_length|].
    apply Forall_forall; intros r Hr. apply repeat_spec in Hr; subst r.
    apply repeat_length.
  - intros y x Hy Hx. unfold get_channel.
    rewrite (get_map (fun px => nth 0 px zero) [] zero
               (1 * tiles_y) (1 * tiles_x)) by auto.
    replace y with (y * 1 + 0)%nat at 1 by lia.
    replace x with (x * 1 + 0)%nat at 1 by lia.
    rewrite (get_tiles [] 1 1) by (auto using is_grid_zeros3; lia).
    rewrite make_tile_single. unfold get at 1. cbn [nth].
    unfold get. rewrite !Nat.mul_1_l in Hy, Hx.
    rewrite (nth_indep _ [] (repeat v tiles_x)) by (rewrite repeat_length; lia).
    rewrite nth_repeat.
    rewrite (nth_indep _ zero v) by (rewrite repeat_length; lia).
    rewrite nth_repeat. reflexivity.
Qed.
(** ** The sum of the samples through the transform *)

Lemma Rsum_ext (n : nat) (f g : nat -> R) :
  (forall i, (i < n)%nat -> f i = g i) -> Rsum n f = Rsum n g.
Proof.
  induction n as [|n IH]; intros Hfg; simpl; auto.
  rewrite IH, Hfg; auto.
Qed.

Lemma RtoC_Rsum (n : nat) (f : nat -> R) :
  RtoC (Rsum n f) = Csum n (fun i => RtoC (f i)).
Proof.
  induction n as [|n IH]; simpl; [reflexivity|].
  rewrite <- IH. apply C_eq; simpl; ring.
Qed.

Lemma Cre_Csum (n : nat) (f : nat -> C) :
  Cre (Csum n f) = Rsum n (fun i => Cre (f i)).
Proof.
  induction n as [|n IH]; simpl; [reflexivity|].
  rewrite <- IH. reflexivity.
Qed.

Lemma total_grid (h w : nat) (a : grid R) :
  is_grid h w a -> (0 < h)%nat ->
  total a = Rsum h (fun y => Rsum w (fun x => get 0%R a y x)).
Proof.
  intros Ha Hh; unfold total.
  rewrite (is_grid_height h w a Ha), (is_grid_width h w a Ha Hh). reflexivity.
Qed.

(** Bin (0, 0) of the transform is the sum of the samples. *)
Lemma fft2_entry_dc (h w : nat) (x : grid R) :
  is_grid h w x -> (0 < h)%nat ->
  fft2_entry h w (map (map RtoC) x) 0 0 = RtoC (total x).
Proof.
  intros Hx Hh. rewrite (total_grid h w x Hx Hh), RtoC_Rsum.
  unfold fft2_entry. apply Csum_ext; intros m Hm.
  rewrite RtoC_Rsum. apply Csum_ext; intros n Hn.
  rewrite !Nat.mul_0_r. cbn [Cpow].
  rewrite (get_map RtoC 0%R C0 h w) by auto. ring.
Qed.

Lemma half_lt (n : nat) : (0 < n)%nat -> (n / 2 < n)%nat.
Proof. intros; apply Nat.div_lt; lia. Qed.

(** The bins of the shifted spectrum. *)
Lemma forward_bins (h w : nat) (x : grid R) :
  is_grid h w x -> (0 < h)%nat -> (0 < w)%nat ->
  exists spectrum,
    forward x = Ok spectrum
    /\ is_grid h w spectrum
    /\ forall i j, (i < h)%nat -> (j < w)%nat ->
         get C0 spectrum i j
         = fft2_entry h w (map (map RtoC) x)
             ((i + (h - h / 2)) mod h) ((j + (w - w / 2)) mod w).
Proof.
  intros Hx Hh Hw.
  destruct (forward_ok h w x Hx Hh Hw) as (X & EX & HX & EF & _).
  rewrite (fft2_ok h w) in EX by auto using is_grid_map.
  inversion EX as [EX'].
  exists (fftshift X).
  split; [exact EF | split; [apply is_grid_fftshift; auto|]].
  intros i j Hi Hj.
  rewrite (get_fftshift C0 h w) by auto.
  rewrite <- EX'.
  apply (get_map_seq C0 h w (fun k l => fft2_entry h w _ k l));
    apply Nat.mod_upper_bound; lia.
Qed.

(** The centre shift brings bin (0, 0) to the bin [(h // 2, w // 2)]. *)
Lemma forward_centre (h w : nat) (x : grid R) :
  is_grid h w x -> (0 < h)%nat -> (0 < w)%nat ->
  exists spectrum,
    forward x = Ok spectrum
    /\ is_grid h w spectrum
    /\ get C0 spectrum (h / 2) (w / 2) = RtoC (total x).
Proof.
  intros Hx Hh Hw.
  destruct (forward_bins h w x Hx Hh Hw) as (s & Es & Hs & Hbin).
  exists s. split; [exact Es | split; [exact Hs|]].
  rewrite Hbin by auto using half_lt.
  replace ((h / 2 + (h - h / 2)) mod h)%nat with 0%nat
    by (symmetry; apply shift_index_zero; auto using half_lt).
  replace ((w / 2 + (w - w / 2)) mod w)%nat with 0%nat
    by (symmetry; apply shift_index_zero; auto using half_lt).
  apply fft2_entry_dc; auto.
Qed.

Lemma get_ifftshift {A} (d : A) (h w : nat) (a : grid A) (i j : nat) :
  is_grid h w a -> (i < h)%nat -> (j < w)%nat ->
  get d (ifftshift a) i j = get d a ((i + h / 2) mod h) ((j + w / 2) mod w).
Proof.
  intros Ha Hi Hj; unfold get, ifftshift, ifftshift1 at 1.
  pose proof Ha as [Hh Hw].
  assert (Hdiv : (h / 2 <= h)%nat) by (apply Nat.Div0.div_le_upper_bound; lia).
  assert (Hdivw : (w / 2 <= w)%nat) by (apply Nat.Div0.div_le_upper_bound; lia).
  rewrite length_map, Hh.
  rewrite nth_roll by (rewrite length_map; lia).
  rewrite length_map, Hh.
  replace (h - (h - h / 2))%nat with (h / 2)%nat by lia.
  set (i' := ((i + h / 2) mod h)%nat).
  assert (Hi' : (i' < h)%nat) by (apply Nat.mod_upper_bound; lia).
  change [] with (@ifftshift1 A []) at 1. rewrite map_nth.
  unfold ifftshift1.
  pose proof (is_grid_nth i' Ha Hi') as Hrow. rewrite Hrow.
  rewrite nth_roll; rewrite Hrow; auto; [|lia].
  replace (w - (w - w / 2))%nat with (w / 2)%nat by lia. reflexivity.
Qed.

Lemma iroot_sum (n k : nat) :
  (k < n)%nat ->
  Csum n (fun m => Cmul (Cpow (iroot n) (m * k)) C1)
  = if (k =? 0)%nat then RtoC (INR n) else C0.
Proof.
  intros Hk. rewrite <- (Nat.eqb_sym 0 k) || rewrite (Nat.eqb_sym k 0).
  rewrite <- (root_orthogonal n 0 k) by lia.
  apply Csum_ext; intros m _. cbn [Nat.mul Cpow].
  rewrite (Nat.mul_comm m k). ring.
Qed.

(** The sum of the samples of an inverse transform is the real part of the
    centre bin of the shifted spectrum. *)
Lemma inverse_total (h w : nat) (s : grid C) :
  is_grid h w s -> (0 < h)%nat -> (0 < w)%nat ->
  exists out,
    inverse s = Ok out /\ is_grid h w out
    /\ total out = Cre (get C0 s (h / 2) (w / 2)).
Proof.
  intros Hs Hh Hw. unfold inverse.
  assert (HG : is_grid h w (ifftshift s)) by (apply is_grid_ifftshift; auto).
  rewrite (ifft2_ok h w) by auto. cbn [bind].
  set (G := ifftshift s) in *.
  eexists; split; [reflexivity|].
  assert (Hout : is_grid h w
            (map (map Cre)
               (map (fun m => map (fun n => ifft2_entry h w G m n) (seq 0 w))
                    (seq 0 h))))
    by apply is_grid_map, is_grid_map_seq.
  split; auto.
  rewrite (total_grid h w _ Hout Hh).
  rewrite (Rsum_ext h _ (fun m => Cre (Csum w (fun n => ifft2_entry h w G m n)))).
  2:{ intros m Hm. rewrite Cre_Csum. apply Rsum_ext; intros n Hn.
      rewrite (get_map Cre C0 0%R h w) by (auto; apply is_grid_map_seq).
      rewrite (get_map_seq C0 h w (fun m n => ifft2_entry h w G m n)) by auto.
      reflexivity. }
  rewrite <- Cre_Csum. f_equal.
  unfold ifft2_entry, Cdiv.
  rewrite (Csum_ext h _
             (fun m => Cmul
                (Csum w (fun n =>
                   Cmul (Csum h (fun k => Csum w (fun l =>
                           Cmul (get C0 G k l)
                                (Cmul (Cpow (iroot h) (m * k))
                                      (Cpow (iroot w) (n * l))))))
                        (Cmul C1 C1)))
                (Cinv (RtoC (INR (h * w)))))).
  2:{ intros m _. rewrite Csum_mul_r. apply Csum_ext; intros n _. ring. }
  rewrite <- Csum_mul_r.
  rewrite (Csum_separate h w (fun k l => get C0 G k l)
             (fun k m => Cpow (iroot h) (m * k))
             (fun l n => Cpow (iroot w) (n * l))
             (fun _ => C1) (fun _ => C1)).
  rewrite (Csum_single h 0); auto.
  - rewrite (Csum_single w 0); auto.
    + rewrite !iroot_sum by auto. cbn [Nat.eqb].
      unfold G. rewrite (get_ifftshift C0 h w) by auto.
      rewrite !Nat.add_0_l, !Nat.mod_small by auto using half_lt.
      rewrite mult_INR, RtoC_mul.
      field. split; apply RtoC_INR_nonzero; auto.
    + intros l Hl Hne. rewrite (iroot_sum w l) by auto.
      replace (l =? 0)%nat with false by (symmetry; apply Nat.eqb_neq; auto).
      ring.
  - intros k Hk Hne.
    rewrite (Csum_ext w _ (fun _ => C0)); [apply Csum_zero|].
    intros l Hl. rewrite (iroot_sum h k) by auto.
    replace (k =? 0)%nat with false by (symmetry; apply Nat.eqb_neq; auto).
    ring.
Qed.

(** Whatever the mask, the sum of the samples of the filtered channel is
    the sum of the samples of the channel times the mask value at the
    centre bin. *)
Lemma masked_total (h w : nat) (x : grid R) (spectrum : grid C)
  (mask : grid R) :
  is_grid h w x -> (0 < h)%nat -> (0 < w)%nat ->
  forward x = Ok spectrum -> is_grid h w mask ->
  exists out,
    inverse (apply_mask spectrum mask) = Ok out
    /\ is_grid h w out
    /\ total out = (get 0%R mask (h / 2) (w / 2) * total x)%R.
Proof.
  intros Hx Hh Hw Es Hm.
  destruct (forward_centre h w x Hx Hh Hw) as (s & Es' & Hs & Hc).
  rewrite Es' in Es; inversion Es; subst spectrum.
  destruct (inverse_total h w (apply_mask s mask)) as (out & Eo & Ho & Ht);
    auto using is_grid_apply_mask.
  exists out. repeat (split; [assumption|]).
  rewrite Ht, (get_apply_mask h w) by auto using half_lt.
  rewrite Hc. unfold Cre, Cmul, RtoC; simpl. ring.
Qed.

(** A mask of ones gives back the channel. *)
Lemma masked_identity (h w : nat) (x : grid R) (spectrum : grid C)
  (mask : grid R) :
  is_grid h w x -> (0 < h)%nat -> (0 < w)%nat ->
  forward x = Ok spectrum -> is_grid h w mask ->
  (forall i j, (i < h)%nat -> (j < w)%nat -> get 0%R mask i j = 1%R) ->
  inverse (apply_mask spectrum mask) = Ok x.
Proof.
  intros Hx Hh Hw Es Hm Hone.
  destruct (forward_ok h w x Hx Hh Hw) as (X & _ & HX & EF & EI).
  rewrite EF in Es; inversion Es; subst spectrum.
  assert (E1 : mask = ones h w).
  { apply (grid_ext 0%R h w); auto using is_grid_ones.
    intros i j Hi Hj. rewrite Hone, get_ones by auto. reflexivity. }
  rewrite E1, (apply_mask_ones h w) by (apply is_grid_fftshift; auto).
  apply inverse_fftshift; auto.
Qed.

(** X8: The shifted spectrum that the two filters build their masks on,
    bin by bin: its bin [(i, j)] is the transform at the frequency
    [((i + h - h // 2) mod h, (j + w - w // 2) mod w)], and its bin
    [(h // 2, w // 2)], the centre of the masks, is the zero-frequency bin:
    the sum of the samples of the channel, a real number. *)
Theorem forward_dc_bin (h w : nat) (x : grid R) :
  is_grid h w x -> (0 < h)%nat -> (0 < w)%nat ->
  exists spectrum,
    forward x = Ok spectrum
    /\ is_grid h w spectrum
    /\ (forall i j, (i < h)%nat -> (j < w)%nat ->
          get C0 spectrum i j
          = fft2_entry h w (map (map RtoC) x)
              ((i + (h - h / 2)) mod h) ((j + (w - w / 2)) mod w))
    /\ get C0 spectrum (h / 2) (w / 2) = RtoC (total x).
Proof.
  intros Hx Hh Hw.
  destruct (forward_bins h w x Hx Hh Hw) as (s & Es & Hs & Hbin).
  exists s. split; [exact Es | split; [exact Hs | split; [exact Hbin|]]].
  rewrite Hbin by auto using half_lt.
  replace ((h / 2 + (h - h / 2)) mod h)%nat with 0%nat
    by (symmetry; apply shift_index_zero; auto using half_lt).
  replace ((w / 2 + (w - w / 2)) mod w)%nat with 0%nat
    by (symmetry; apply shift_index_zero; auto using half_lt).
  apply fft2_entry_dc; auto.
Qed.

Lemma forward_dc_bin_witness :
  exists spectrum,
    forward [[1; 2]; [3; 4]]%R = Ok spectrum
    /\ get C0 spectrum 1 1 = RtoC (total [[1; 2]; [3; 4]]%R).
Proof.
  destruct (forward_dc_bin 2 2 [[1; 2]; [3; 4]]%R) as (s & E & _ & _ & Hc).
  - split; [reflexivity | repeat constructor].
  - lia.
  - lia.
  - exists s; split; [exact E | exact Hc].
Defined.

(** The line filter keeps the sum of the samples of the channel, for every
    line width, protected radius and attenuation. *)
Lemma fft_filter_channel_lines_total (h w : nat) (channel : grid R)
  (line_width protect_center : Z) (attenuation : R) :
  is_grid h w channel -> (0 < h)%nat -> (0 < w)%nat ->
  exists out,
    fft_filter_channel_lines channel line_width protect_center attenuation
    = Ok out
    /\ is_grid h w out
    /\ total out = total channel.
Proof.
  intros Hc Hh Hw.
  destruct (forward_centre h w channel Hc Hh Hw) as (s & Es & Hs & _).
  destruct (masked_total h w channel s
              (lines_mask h w line_width protect_center attenuation))
    as (out & Eo & Ho & Ht); auto using is_grid_lines_mask.
  exists out. unfold fft_filter_channel_lines. rewrite Es; cbn [bind].
  rewrite (is_grid_height h w _ Hc), (is_grid_width h w _ Hc Hh).
  split; [exact Eo | split; [exact Ho|]].
  rewrite Ht.
  rewrite (lines_mask_protects_center 0%R)
    by auto using half_lt, dc_in_center_disc.
  cbn [n1 Num_R]. ring.
Qed.


(** ** The line mask in closed form *)

Lemma get_scale_row {T} `{Num T} (d : T) (h w y' : nat) (c : T) (m : grid T)
  (y x : nat) :
  is_grid h w m -> (y < h)%nat -> (x < w)%nat ->
  get d (scale_row y' c m) y x
  = if (y' =? y)%nat then nmul (get d m y x) c else get d m y x.
Proof.
  intros Hm Hy Hx; unfold get, scale_row.
  pose proof Hm as [Hlen _].
  destruct (Nat.eqb_spec y' y) as [->|Hne].
  - rewrite nth_upd_same by lia.
    rewrite (nth_indep _ d (nmul d c))
      by (rewrite length_map, (is_grid_nth y Hm Hy); auto).
    apply (map_nth (fun v => nmul v c)).
  - rewrite nth_upd_other by auto. reflexivity.
Qed.

Lemma get_scale_col {T} `{Num T} (d : T) (h w x' : nat) (c : T) (m : grid T)
  (y x : nat) :
  is_grid h w m -> (y < h)%nat -> (x < w)%nat ->
  get d (scale_col x' c m) y x
  = if (x' =? x)%nat then nmul (get d m y x) c else get d m y x.
Proof.
  intros Hm Hy Hx; unfold get, scale_col.
  replace (@nil T) with (upd x' (fun v => nmul v c) (@nil T)) at 1
    by (destruct x'; reflexivity).
  rewrite (map_nth (upd x' (fun v => nmul v c))).
  destruct (Nat.eqb_spec x' x) as [->|Hne].
  - rewrite nth_upd_same by (rewrite (is_grid_nth y Hm Hy); auto).
    reflexivity.
  - rewrite nth_upd_other by auto. reflexivity.
Qed.

(** The row loop multiplies the rows at offsets [-2 lw .. 2 lw] from the
    centre row once each. *)
Lemma get_band_rows {T} `{Num T} (d : T) (h w : nat) (lw : Z) (att : T)
  (m : grid T) (y x : nat) :
  is_grid h w m -> (y < h)%nat -> (x < w)%nat ->
  get d (band_rows h lw att m) y x
  = if ((0 <? lw) && (Z.abs (Z.of_nat y - Z.of_nat h / 2) <=? lw * 2))%Z
    then nmul (get d m y x)
              (nsub n1 (band_reduction lw att (Z.of_nat y - Z.of_nat h / 2)))
    else get d m y x.
Proof.
  intros Hm Hy Hx; unfold band_rows.
  destruct (Z.ltb_spec 0 lw) as [Hlw|Hlw]; cbn [andb]; [|reflexivity].
  set (cy := (Z.of_nat h / 2)%Z).
  rewrite (get_fold d h w _ _
             (fun dy v =>
                if (dy =? Z.of_nat y - cy)%Z
                then nmul v (nsub n1 (band_reduction lw att dy))
                else v) y x); auto.
  - rewrite (fold_range_single _ _ (Z.of_nat y - cy)%Z).
    + rewrite Z.eqb_refl.
      destruct (Z.leb_spec (Z.abs (Z.of_nat y - cy)) (lw * 2)) as [Ha|Ha].
      * replace ((- lw * 2 <=? Z.of_nat y - cy)
                 && (Z.of_nat y - cy <? lw * 2 + 1))%Z with true; auto.
        symmetry; apply andb_true_iff; split;
          [apply Z.leb_le | apply Z.ltb_lt]; lia.
      * replace ((- lw * 2 <=? Z.of_nat y - cy)
                 && (Z.of_nat y - cy <? lw * 2 + 1))%Z with false; auto.
        symmetry; apply andb_false_iff.
        destruct (Z.leb_spec (- lw * 2) (Z.of_nat y - cy)); auto.
        right; apply Z.ltb_ge; lia.
    + intros dy v Hne.
      destruct (Z.eqb_spec dy (Z.of_nat y - cy)); [contradiction | reflexivity].
  - intros dy s Hs. cbv zeta.
    destruct ((0 <=? cy + dy) && (cy + dy <? Z.of_nat h))%Z; auto.
    apply is_grid_scale_row; auto.
  - intros dy s Hs. cbv zeta.
    destruct (Z.eqb_spec dy (Z.of_nat y - cy)) as [->|Hne].
    + replace (cy + (Z.of_nat y - cy))%Z with (Z.of_nat y) by lia.
      replace ((0 <=? Z.of_nat y) && (Z.of_nat y <? Z.of_nat h))%Z with true
        by (symmetry; apply andb_true_iff; split;
            [apply Z.leb_le | apply Z.ltb_lt]; lia).
      rewrite (get_scale_row d h w) by auto.
      rewrite Nat2Z.id, Nat.eqb_refl. reflexivity.
    + destruct ((0 <=? cy + dy) && (cy + dy <? Z.of_nat h))%Z eqn:Eb; auto.
      rewrite (get_scale_row d h w) by auto.
      apply andb_true_iff in Eb as [E1 E2].
      apply Z.leb_le in E1.
      destruct (Nat.eqb_spec (Z.to_nat (cy + dy)) y) as [E|E]; auto.
      exfalso; apply Hne. lia.
Qed.

Lemma get_band_cols {T} `{Num T} (d : T) (h w : nat) (lw : Z) (att : T)
  (m : grid T) (y x : nat) :
  is_grid h w m -> (y < h)%nat -> (x < w)%nat ->
  get d (band_cols w lw att m) y x
  = if ((0 <? lw) && (Z.abs (Z.of_nat x - Z.of_nat w / 2) <=? lw * 2))%Z
    then nmul (get d m y x)
              (nsub n1 (band_reduction lw att (Z.of_nat x - Z.of_nat w / 2)))
    else get d m y x.
Proof.
  intros Hm Hy Hx; unfold band_cols.
  destruct (Z.ltb_spec 0 lw) as [Hlw|Hlw]; cbn [andb]; [|reflexivity].
  set (cx := (Z.of_nat w / 2)%Z).
  rewrite (get_fold d h w _ _
             (fun dx v =>
                if (dx =? Z.of_nat x - cx)%Z
                then nmul v (nsub n1 (band_reduction lw att dx))
                else v) y x); auto.
  - rewrite (fold_range_single _ _ (Z.of_nat x - cx)%Z).
    + rewrite Z.eqb_refl.
      destruct (Z.leb_spec (Z.abs (Z.of_nat x - cx)) (lw * 2)) as [Ha|Ha].
      * replace ((- lw * 2 <=? Z.of_nat x - cx)
                 && (Z.of_nat x - cx <? lw * 2 + 1))%Z with true; auto.
        symmetry; apply andb_true_iff; split;
          [apply Z.leb_le | apply Z.ltb_lt]; lia.
      * replace ((- lw * 2 <=? Z.of_nat x - cx)
                 && (Z.of_nat x - cx <? lw * 2 + 1))%Z with false; auto.
        symmetry; apply andb_false_iff.
        destruct (Z.leb_spec (- lw * 2) (Z.of_nat x - cx)); auto.
        right; apply Z.ltb_ge; lia.
    + intros dx v Hne.
      destruct (Z.eqb_spec dx (Z.of_nat x - cx)); [contradiction | reflexivity].
  - intros dx s Hs. cbv zeta.
    destruct ((0 <=? cx + dx) && (cx + dx <? Z.of_nat w))%Z; auto.
    apply is_grid_scale_col; auto.
  - intros dx s Hs. cbv zeta.
    destruct (Z.eqb_spec dx (Z.of_nat x - cx)) as [->|Hne].
    + replace (cx + (Z.of_nat x - cx))%Z with (Z.of_nat x) by lia.
      replace ((0 <=? Z.of_nat x) && (Z.of_nat x <? Z.of_nat w))%Z with true
        by (symmetry; apply andb_true_iff; split;
            [apply Z.leb_le | apply Z.ltb_lt]; lia).
      rewrite (get_scale_col d h w) by auto.
      rewrite Nat2Z.id, Nat.eqb_refl. reflexivity.
    + destruct ((0 <=? cx + dx) && (cx + dx <? Z.of_nat w))%Z eqn:Eb; auto.
      rewrite (get_scale_col d h w) by auto.
      apply andb_true_iff in Eb as [E1 E2].
      apply Z.leb_le in E1.
      destruct (Nat.eqb_spec (Z.to_nat (cx + dx)) x) as [E|E]; auto.
      exfalso; apply Hne. lia.
Qed.

(** Every entry of the line mask over the reals. *)
Lemma lines_mask_gains (h w : nat) (lw pc : Z) (att : R) (y x : nat) :
  (y < h)%nat -> (x < w)%nat ->
  get 0%R (lines_mask h w lw pc att) y x
  = if get false (center_disc h w pc) y x then 1%R
    else (line_gain h lw att y * line_gain w lw att x)%R.
Proof.
  intros Hy Hx. rewrite get_lines_mask by auto.
  destruct (get false (center_disc h w pc) y x); [reflexivity|].
  rewrite (get_band_cols 0%R h w) by auto using is_grid_band_rows, is_grid_ones.
  rewrite (get_band_rows 0%R h w) by auto using is_grid_ones.
  rewrite get_ones by auto. unfold line_gain. cbv zeta.
  destruct ((0 <? lw) && (Z.abs (Z.of_nat y - Z.of_nat h / 2) <=? lw * 2))%Z;
    destruct ((0 <? lw) && (Z.abs (Z.of_nat x - Z.of_nat w / 2) <=? lw * 2))%Z;
    cbn [nmul nsub n1 Num_R]; ring.
Qed.

Lemma band_reduction_zero_width (lw : Z) (att : R) (d : Z) :
  (0 < lw)%Z -> (lw * 2 <= Z.abs d)%Z -> band_reduction lw att d = 0%R.
Proof.
  intros Hlw Hd; unfold band_reduction; cbv zeta.
  destruct (Z.leb_spec (Z.abs d) lw); [lia|].
  destruct (Z.ltb_spec (Z.abs d) (lw * 2)); [lia|].
  cbn [nmul n0 Num_R]. ring.
Qed.

(** X9: The mask of the line policy in closed form.  Its entry at
    [(y, x)] is 1 inside the protected disc, and elsewhere the product of a
    factor of the row and a factor of the column.  The factor at offset [d]
    from the centre row (column) is 1 for [line_width <= 0] and for
    [|d| >= 2 line_width]; [1 - attenuation] for [|d| <= line_width]; and
    [1 - attenuation * (2 line_width - |d|) / line_width] in between. *)
Theorem lines_mask_entry (h w : nat) (line_width protect_center : Z)
  (attenuation : R) :
  (forall y x, (y < h)%nat -> (x < w)%nat ->
     get 0%R (lines_mask h w line_width protect_center attenuation) y x
     = if get false (center_disc h w protect_center) y x then 1%R
       else (line_gain h line_width attenuation y
             * line_gain w line_width attenuation x)%R)
  /\ forall n i,
       let d := (Z.of_nat i - Z.of_nat n / 2)%Z in
       ((line_width <= 0 \/ line_width * 2 <= Z.abs d)%Z ->
        line_gain n line_width attenuation i = 1%R)
       /\ ((0 < line_width)%Z -> (Z.abs d <= line_width)%Z ->
           line_gain n line_width attenuation i = (1 - attenuation)%R)
       /\ ((0 < line_width)%Z -> (line_width < Z.abs d < line_width * 2)%Z ->
           line_gain n line_width attenuation i
           = (1 - attenuation
                  * (IZR (line_width * 2 - Z.abs d) / IZR line_width))%R).
Proof.
  split; [intros y x; apply lines_mask_gains|].
  intros n i d; unfold line_gain; fold d; cbv zeta.
  split; [|split].
  - intros [Hlw|Hd].
    + destruct (Z.ltb_spec 0 line_width); [lia | reflexivity].
    + destruct (Z.ltb_spec 0 line_width) as [Hlw|Hlw]; [|reflexivity].
      destruct (Z.leb_spec (Z.abs d) (line_width * 2)); [|reflexivity].
      cbn [andb]. rewrite band_reduction_zero_width by auto.
      cbn [nsub n1 Num_R]. ring.
  - intros Hlw Hd.
    destruct (Z.ltb_spec 0 line_width); [|lia].
    destruct (Z.leb_spec (Z.abs d) (line_width * 2)); [|lia].
    cbn [andb]. unfold band_reduction; cbv zeta.
    destruct (Z.leb_spec (Z.abs d) line_width); [reflexivity | lia].
  - intros Hlw Hd.
    destruct (Z.ltb_spec 0 line_width); [|lia].
    destruct (Z.leb_spec (Z.abs d) (line_width * 2)); [|lia].
    cbn [andb]. unfold band_reduction; cbv zeta.
    destruct (Z.leb_spec (Z.abs d) line_width); [lia|].
    destruct (Z.ltb_spec (Z.abs d) (line_width * 2)); [reflexivity | lia].
Qed.

Lemma lines_mask_entry_witness :
  get 0%R (lines_mask 8 8 1 0 (1 / 2)%R) 4 7 = (1 - 1 / 2)%R.
Proof.
  destruct (lines_mask_entry 8 8 1 0 (1 / 2)%R) as [Hget Hgain].
  rewrite Hget by lia.
  rewrite get_center_disc by lia.
  replace ((Z.of_nat 4 - Z.of_nat 8 / 2) ^ 2
           + (Z.of_nat 7 - Z.of_nat 8 / 2) ^ 2 <=? 0 ^ 2)%Z
    with false by reflexivity.
  destruct (Hgain 8 4)%nat as (_ & H4 & _).
  destruct (Hgain 8 7)%nat as (H7 & _ & _).
  rewrite H4 by (try lia; discriminate).
  rewrite H7 by (right; discriminate).
  ring.
Defined.

(** ** The detected peaks and the protected disc *)

Lemma get_true_bounds (h w : nat) (g : grid bool) (y x : nat) :
  is_grid h w g -> get false g y x = true -> (y < h)%nat /\ (x < w)%nat.
Proof.
  intros Hg Ht; unfold get in Ht.
  destruct (Nat.lt_ge_cases y h) as [Hy|Hy].
  - split; auto.
    destruct (Nat.lt_ge_cases x w) as [Hx|Hx]; auto.
    rewrite nth_overflow in Ht by (rewrite (is_grid_nth y Hg Hy); auto).
    discriminate.
  - destruct Hg as [Hlen _].
    rewrite (nth_overflow g) in Ht by lia.
    destruct x; discriminate.
Qed.

(** The coordinates that [np.where(peaks)] lists: the bins outside the
    disc whose magnitude is over the threshold. *)
Lemma in_peaks {T} `{Num T} (h w : nat) (magnitude : grid T) (t : T) (pc : Z)
  (y x : nat) :
  is_grid h w magnitude -> (0 < h)%nat ->
  In (y, x) (where_true (peaks_of magnitude t pc))
  <-> (y < h)%nat /\ (x < w)%nat
      /\ get false (center_disc h w pc) y x = false
      /\ nltb t (get n0 magnitude y x) = true.
Proof.
  intros Hm Hh. rewrite in_where_true. unfold peaks_of.
  rewrite (is_grid_height h w _ Hm), (is_grid_width h w _ Hm Hh).
  assert (Hb : is_grid h w (map (map (fun m => nltb t m)) magnitude))
    by (apply is_grid_map; auto).
  assert (Hs : is_grid h w
                 (set_where (center_disc h w pc) false
                            (map (map (fun m => nltb t m)) magnitude)))
    by (apply is_grid_set_where; auto using is_grid_center_disc).
  split.
  - intros Ht.
    destruct (get_true_bounds h w _ y x Hs Ht) as [Hy Hx].
    rewrite (get_set_where false h w) in Ht
      by auto using is_grid_center_disc.
    destruct (get false (center_disc h w pc) y x); [discriminate|].
    rewrite (get_map (fun m => nltb t m) n0 false h w) in Ht by auto.
    auto.
  - intros (Hy & Hx & Hd & Ht).
    rewrite (get_set_where false h w) by auto using is_grid_center_disc.
    rewrite Hd.
    rewrite (get_map (fun m => nltb t m) n0 false h w) by auto.
    exact Ht.
Qed.

(** The triangle inequality on squared integer distances. *)
Lemma triangle_sq (a1 a2 b1 b2 s t : Z) :
  (0 <= s)%Z -> (0 <= t)%Z ->
  (a1 ^ 2 + a2 ^ 2 <= s ^ 2)%Z -> (b1 ^ 2 + b2 ^ 2 <= t ^ 2)%Z ->
  ((a1 + b1) ^ 2 + (a2 + b2) ^ 2 <= (s + t) ^ 2)%Z.
Proof.
  intros Hs Ht Ha Hb.
  set (A := (a1 ^ 2 + a2 ^ 2)%Z) in *. set (B := (b1 ^ 2 + b2 ^ 2)%Z) in *.
  set (P := (a1 * b1 + a2 * b2)%Z).
  assert (HA : (0 <= A)%Z) by (unfold A; nia).
  assert (HB : (0 <= B)%Z) by (unfold B; nia).
  assert (Hcs : (P * P <= A * B)%Z).
  { pose proof (Z.square_nonneg (a1 * b2 - a2 * b1)) as Hsq.
    replace (A * B)%Z
      with (P * P + (a1 * b2 - a2 * b1) * (a1 * b2 - a2 * b1))%Z
      by (unfold A, B, P; ring).
    lia. }
  assert (Hab : (A * B <= (s * t) * (s * t))%Z).
  { replace ((s * t) * (s * t))%Z with (s ^ 2 * t ^ 2)%Z by ring.
    apply Z.mul_le_mono_nonneg; auto. }
  assert (Hp : (P <= s * t)%Z).
  { destruct (Z.le_gt_cases P (s * t)) as [|Hgt]; auto.
    exfalso.
    assert (0 <= s * t)%Z by (apply Z.mul_nonneg_nonneg; auto).
    assert (s * t * (s * t) < P * P)%Z
      by (apply Z.mul_lt_mono_nonneg; lia).
    lia. }
  replace ((a1 + b1) ^ 2 + (a2 + b2) ^ 2)%Z with (A + B + 2 * P)%Z
    by (unfold A, B, P; ring).
  replace ((s + t) ^ 2)%Z with (s ^ 2 + t ^ 2 + 2 * (s * t))%Z by ring.
  lia.
Qed.

(** No detected peak is within [r] of a bin whose distance from the centre
    is at most [pc - r]. *)
Lemma peaks_far_from_margin {T} `{Num T} (h w : nat) (magnitude : grid T)
  (t : T) (r pc : Z) (y x : nat) :
  is_grid h w magnitude -> (0 < h)%nat -> (r <= pc)%Z ->
  (y < h)%nat -> (x < w)%nat ->
  ((Z.of_nat y - Z.of_nat h / 2) ^ 2 + (Z.of_nat x - Z.of_nat w / 2) ^ 2
   <= (pc - r) ^ 2)%Z ->
  forall p, In p (where_true (peaks_of magnitude t pc)) ->
            near r (fst p) (snd p) y x = false.
Proof.
  intros Hm Hh Hr Hy Hx Hd [py px] Hin. cbn [fst snd].
  apply (in_peaks h w) in Hin as (Hpy & Hpx & Hdisc & _); auto.
  rewrite get_center_disc in Hdisc by auto.
  apply Z.leb_gt in Hdisc.
  unfold near.
  destruct (Z.leb_spec 0 r) as [Hr0|Hr0]; cbn [andb]; [|reflexivity].
  apply Z.leb_gt.
  destruct (Z.le_gt_cases
              ((Z.of_nat y - Z.of_nat py) ^ 2 + (Z.of_nat x - Z.of_nat px) ^ 2)
              (r ^ 2)) as [Hle|]; auto.
  exfalso.
  pose proof (triangle_sq (Z.of_nat py - Z.of_nat y) (Z.of_nat px - Z.of_nat x)
                (Z.of_nat y - Z.of_nat h / 2) (Z.of_nat x - Z.of_nat w / 2)
                r (pc - r)) as Htri.
  replace (Z.of_nat py - Z.of_nat y + (Z.of_nat y - Z.of_nat h / 2))%Z
    with (Z.of_nat py - Z.of_nat h / 2)%Z in Htri by lia.
  replace (Z.of_nat px - Z.of_nat x + (Z.of_nat x - Z.of_nat w / 2))%Z
    with (Z.of_nat px - Z.of_nat w / 2)%Z in Htri by lia.
  replace (r + (pc - r))%Z with pc in Htri by lia.
  assert (((Z.of_nat py - Z.of_nat h / 2) ^ 2
           + (Z.of_nat px - Z.of_nat w / 2) ^ 2 <= pc ^ 2)%Z); [|lia].
  apply Htri; auto; lia.
Qed.

(** The peak mask, when it is built, is the fold of the notches. *)
Lemma peaks_mask_fold {T} `{Num T} (magnitude : grid T) (q : T) (r pc : Z)
  (mask : grid T) :
  peaks_mask magnitude q r pc = Ok mask ->
  exists t,
    threshold_of magnitude q pc = Ok t
    /\ mask = fold_left (notch_at_pure (height magnitude) (width magnitude) r)
                (where_true (peaks_of magnitude t pc))
                (ones (height magnitude) (width magnitude)).
Proof.
  unfold peaks_mask.
  destruct (threshold_of magnitude q pc) as [t|e]; cbn [bind]; [|discriminate].
  rewrite notch_mask_ok. intros E; inversion E; subst.
  exists t; auto.
Qed.

(** The mask entry at a bin that no peak is near. *)
Lemma peaks_mask_far {T} `{Num T} (d : T) (h w : nat) (magnitude : grid T)
  (q : T) (r pc : Z) (mask : grid T) (y x : nat) :
  is_grid h w magnitude -> (0 < h)%nat ->
  peaks_mask magnitude q r pc = Ok mask ->
  (y < h)%nat -> (x < w)%nat ->
  (forall t p, In p (where_true (peaks_of magnitude t pc)) ->
               near r (fst p) (snd p) y x = false) ->
  get d mask y x = n1.
Proof.
  intros Hm Hh E Hy Hx Hfar.
  destruct (peaks_mask_fold magnitude q r pc mask E) as (t & _ & ->).
  rewrite (is_grid_height h w _ Hm), (is_grid_width h w _ Hm Hh).
  rewrite (get_notch_fold d h w) by auto using is_grid_ones.
  rewrite notch_entry_far by (apply Hfar).
  apply get_ones; auto.
Qed.

(** X10: When the notch radius does not exceed the protected radius, the
    mask of the peak policy is 1 at every bin whose distance from the
    centre is at most [protect_center - notch_radius]: the notches, which
    are cut around peaks outside the protected disc, do not reach that
    far in. *)
Theorem peaks_mask_protected_margin {T} `{Num T} (d : T) (h w : nat)
  (magnitude : grid T) (threshold_percentile : T)
  (notch_radius protect_center : Z) (mask : grid T) (y x : nat) :
  is_grid h w magnitude -> (0 < h)%nat ->
  peaks_mask magnitude threshold_percentile notch_radius protect_center
  = Ok mask ->
  (notch_radius <= protect_center)%Z ->
  (y < h)%nat -> (x < w)%nat ->
  ((Z.of_nat y - Z.of_nat h / 2) ^ 2 + (Z.of_nat x - Z.of_nat w / 2) ^ 2
   <= (protect_center - notch_radius) ^ 2)%Z ->
  get d mask y x = n1.
Proof.
  intros Hm Hh E Hr Hy Hx Hd.
  apply (peaks_mask_far d h w magnitude threshold_percentile notch_radius
           protect_center); auto.
  intros t. apply (peaks_far_from_margin h w); auto.
Qed.

Lemma peaks_mask_protected_margin_witness :
  exists mask,
    peaks_mask [[9; 0; 0; 0]; [0; 1; 0; 0]; [0; 0; 5; 0]; [0; 0; 0; 0]]%Q
               50%Q 1 2
    = Ok mask
    /\ get 0%Q mask 2 1 = 1%Q.
Proof.
  eexists; split; [vm_compute; reflexivity|].
  change 1%Q with (@n1 Q Num_Q).
  apply (peaks_mask_protected_margin 0%Q 4 4
           [[9; 0; 0; 0]; [0; 1; 0; 0]; [0; 0; 5; 0]; [0; 0; 0; 0]]%Q
           50%Q 1 2); try lia.
  - split; [reflexivity | repeat constructor].
  - vm_compute; reflexivity.
  - vm_compute; discriminate.
Defined.

(** ** Configurations under which the filters change nothing *)

Lemma band_reduction_zero_attenuation (lw : Z) (d : Z) :
  band_reduction lw 0%R d = 0%R.
Proof.
  unfold band_reduction; cbv zeta.
  destruct (Z.abs d <=? lw)%Z; [reflexivity|].
  cbn [nmul Num_R]. ring.
Qed.

Lemma line_gain_one (n : nat) (lw : Z) (att : R) (i : nat) :
  (lw <= 0)%Z \/ att = 0%R -> line_gain n lw att i = 1%R.
Proof.
  intros [Hlw|Hz]; [|subst att]; unfold line_gain; cbv zeta.
  - destruct (Z.ltb_spec 0 lw); [lia | reflexivity].
  - destruct ((0 <? lw)
              && (Z.abs (Z.of_nat i - Z.of_nat n / 2) <=? lw * 2))%Z;
      [|reflexivity].
    rewrite band_reduction_zero_attenuation. cbn [nsub n1 Num_R]. ring.
Qed.

(** With [line_width <= 0] (the two loops are skipped) or with
    [attenuation = 0] (every factor is 1), the line filter returns the
    channel itself. *)
Lemma fft_filter_channel_lines_identity (h w : nat) (channel : grid R)
  (line_width protect_center : Z) (attenuation : R) :
  is_grid h w channel -> (0 < h)%nat -> (0 < w)%nat ->
  (line_width <= 0)%Z \/ attenuation = 0%R ->
  fft_filter_channel_lines channel line_width protect_center attenuation
  = Ok channel.
Proof.
  intros Hc Hh Hw Hcfg.
  destruct (forward_centre h w channel Hc Hh Hw) as (s & Es & Hs & _).
  unfold fft_filter_channel_lines. rewrite Es; cbn [bind].
  rewrite (is_grid_height h w _ Hc), (is_grid_width h w _ Hc Hh).
  apply (masked_identity h w); auto using is_grid_lines_mask.
  intros i j Hi Hj. rewrite lines_mask_gains by auto.
  destruct (get false (center_disc h w protect_center) i j); auto.
  rewrite !line_gain_one by auto. ring.
Qed.


Lemma peaks_mask_ok_R (h w : nat) (magnitude : grid R) (q : R) (r pc : Z) :
  is_grid h w magnitude -> (0 < h)%nat -> (0 <= q <= 100)%R ->
  exists mask, peaks_mask magnitude q r pc = Ok mask /\ is_grid h w mask.
Proof.
  intros Hm Hh Hq. unfold peaks_mask, threshold_of.
  destruct (percentile_ok_R
              (concat (magnitude_for_threshold magnitude pc)) q Hq) as [t Et].
  rewrite Et; cbn [bind]. rewrite notch_mask_ok.
  eexists; split; [reflexivity|].
  rewrite (is_grid_height h w _ Hm), (is_grid_width h w _ Hm Hh).
  apply is_grid_notch_fold, is_grid_ones.
Qed.

(** The peak filter, from the spectrum and the mask it builds. *)
Lemma fft_filter_channel_steps (h w : nat) (channel : grid R) (q : R)
  (r pc : Z) :
  is_grid h w channel -> (0 < h)%nat -> (0 < w)%nat -> (0 <= q <= 100)%R ->
  exists spectrum mask,
    forward channel = Ok spectrum
    /\ is_grid h w spectrum
    /\ peaks_mask (map (map Cabs) spectrum) q r pc = Ok mask
    /\ is_grid h w mask
    /\ fft_filter_channel channel q r pc
       = inverse (apply_mask spectrum mask).
Proof.
  intros Hc Hh Hw Hq.
  destruct (forward_centre h w channel Hc Hh Hw) as (s & Es & Hs & _).
  destruct (peaks_mask_ok_R h w (map (map Cabs) s) q r pc) as (mask & Em & Hm);
    auto using is_grid_map.
  exists s, mask. repeat (split; [assumption|]).
  unfold fft_filter_channel. rewrite Es; cbn [bind]. rewrite Em; reflexivity.
Qed.

(** When the notch radius does not exceed the protected radius, the peak
    filter keeps the sum of the samples of the channel: no notch reaches
    the zero-frequency bin. *)
Lemma fft_filter_channel_total (h w : nat) (channel : grid R)
  (threshold_percentile : R) (notch_radius protect_center : Z) :
  is_grid h w channel -> (0 < h)%nat -> (0 < w)%nat ->
  (0 <= threshold_percentile <= 100)%R ->
  (notch_radius <= protect_center)%Z ->
  exists out,
    fft_filter_channel channel threshold_percentile notch_radius
                       protect_center
    = Ok out
    /\ is_grid h w out
    /\ total out = total channel.
Proof.
  intros Hc Hh Hw Hq Hr.
  destruct (fft_filter_channel_steps h w channel threshold_percentile
              notch_radius protect_center Hc Hh Hw Hq)
    as (s & mask & Es & Hs & Em & Hm & ->).
  destruct (masked_total h w channel s mask) as (out & Eo & Ho & Ht); auto.
  exists out. split; [exact Eo | split; [exact Ho|]].
  rewrite Ht.
  rewrite (peaks_mask_far 0%R h w (map (map Cabs) s) threshold_percentile
             notch_radius protect_center mask);
    auto using is_grid_map, half_lt.
  - cbn [n1 Num_R]. ring.
  - intros t. apply (peaks_far_from_margin h w);
      auto using is_grid_map, half_lt.
    rewrite !Nat2Z.inj_div. change (Z.of_nat 2) with 2%Z.
    rewrite !Z.sub_diag. nia.
Qed.


(** With a negative notch radius no notch is cut. *)
Lemma fft_filter_channel_negative_radius (h w : nat) (channel : grid R)
  (threshold_percentile : R) (notch_radius protect_center : Z) :
  is_grid h w channel -> (0 < h)%nat -> (0 < w)%nat ->
  (0 <= threshold_percentile <= 100)%R ->
  (notch_radius < 0)%Z ->
  fft_filter_channel channel threshold_percentile notch_radius protect_center
  = Ok channel.
Proof.
  intros Hc Hh Hw Hq Hr.
  destruct (fft_filter_channel_steps h w channel threshold_percentile
              notch_radius protect_center Hc Hh Hw Hq)
    as (s & mask & Es & Hs & Em & Hm & ->).
  apply (masked_identity h w); auto.
  intros i j Hi Hj. change 1%R with (@n1 R Num_R).
  apply (peaks_mask_far 0%R h w (map (map Cabs) s) threshold_percentile
           notch_radius protect_center mask); auto using is_grid_map.
  intros t p _. unfold near.
  destruct (Z.leb_spec 0 notch_radius); [lia | reflexivity].
Qed.


(** ** The percentile at its ends, and spectra with nothing to remove *)

Lemma in_insert_sorted {T} `{Num T} (a v : T) (l : list T) :
  In v (insert_sorted a l) <-> v = a \/ In v l.
Proof.
  induction l as [|b l IH]; simpl.
  - intuition auto.
  - destruct (nleb a b); simpl; [intuition auto|].
    rewrite IH. intuition auto.
Qed.

Lemma in_sort {T} `{Num T} (v : T) (l : list T) : In v (sort l) <-> In v l.
Proof.
  induction l as [|a l IH]; simpl; [reflexivity|].
  rewrite in_insert_sorted, IH. intuition auto.
Qed.

Lemma length_insert_sorted {T} `{Num T} (a : T) (l : list T) :
  length (insert_sorted a l) = S (length l).
Proof.
  induction l as [|b l IH]; simpl; auto.
  destruct (nleb a b); simpl; auto.
Qed.

Lemma length_sort {T} `{Num T} (l : list T) : length (sort l) = length l.
Proof.
  induction l as [|a l IH]; simpl; auto.
  rewrite length_insert_sorted, IH. reflexivity.
Qed.

Lemma insert_sorted_not_nil {T} `{Num T} (a : T) (l : list T) :
  insert_sorted a l <> [].
Proof. destruct l as [|b l]; simpl; [|destruct (nleb a b)]; discriminate. Qed.

(** The insertion keeps the last element an upper bound. *)
Lemma last_insert_sorted (a : R) (l : list R) :
  (forall v, In v l -> (v <= last l 0)%R) ->
  forall v, In v (insert_sorted a l) -> (v <= last (insert_sorted a l) 0)%R.
Proof.
  induction l as [|b l IH]; intros Hl v Hv.
  - simpl in *. destruct Hv as [<-|[]]; lra.
  - cbn [insert_sorted] in *. cbn [nleb Num_R] in *. unfold Rleb in *.
    destruct (Rle_dec a b) as [Hab|Hab].
    + change (last (a :: b :: l) 0%R) with (last (b :: l) 0%R).
      destruct Hv as [<-|Hv]; auto.
      apply Rle_trans with b; auto. apply Hl; simpl; auto.
    + assert (Hl' : forall u, In u l -> (u <= last l 0)%R).
      { intros u Hu. destruct l as [|c l]; [destruct Hu|].
        change (last (b :: c :: l) 0%R) with (last (c :: l) 0%R) in Hl.
        apply Hl; simpl; auto. }
      specialize (IH Hl').
      assert (Elast : last (b :: insert_sorted a l) 0%R
                      = last (insert_sorted a l) 0%R).
      { pose proof (insert_sorted_not_nil a l).
        destruct (insert_sorted a l); [congruence | reflexivity]. }
      rewrite Elast.
      destruct Hv as [<-|Hv]; auto.
      apply Rle_trans with a; [lra|].
      apply IH, in_insert_sorted; auto.
Qed.

Lemma last_sort_upper (l : list R) :
  forall v, In v (sort l) -> (v <= last (sort l) 0)%R.
Proof.
  induction l as [|a l IH]; simpl; [intros v []|].
  apply last_insert_sorted; auto.
Qed.

Lemma nth_last {A} (d : A) (l : list A) :
  nth (length l - 1) l d = last l d.
Proof.
  induction l as [|a l IH]; [reflexivity|].
  destruct l as [|b l]; [reflexivity|].
  change (last (a :: b :: l) d) with (last (b :: l) d).
  rewrite <- IH. simpl. rewrite Nat.sub_0_r. reflexivity.
Qed.

(** At 100 the percentile is the largest value. *)
Lemma percentile_100 (a : list R) :
  a <> [] ->
  exists t, percentile a 100%R = Ok t /\ forall v, In v a -> (v <= t)%R.
Proof.
  intros Hne. unfold percentile.
  replace (nltb 100%R n0 || nltb (nofZ 100) 100%R) with false.
  2:{ cbn [nltb nofZ n0 Num_R].
      rewrite !Rltb_false by lra. reflexivity. }
  cbv zeta. rewrite length_sort.
  set (n := Z.of_nat (length a)).
  assert (Hn : (1 <= n)%Z)
    by (unfold n; destruct a; [congruence | simpl length; lia]).
  cbn [nmul ndiv nofZ nfloor nsub nadd n0 Num_R].
  replace (100 / 100 * IZR (n - 1))%R with (IZR (n - 1)) by field.
  rewrite (Int_part_val (IZR (n - 1)) (n - 1)) by lra.
  rewrite Z.min_r by lia.
  eexists; split; [reflexivity|].
  intros v Hv.
  replace (Z.to_nat (n - 1)) with (length (sort a) - 1)%nat
    by (rewrite length_sort; unfold n; lia).
  rewrite nth_last.
  apply in_sort in Hv. apply last_sort_upper in Hv. lra.
Qed.

Lemma in_concat_grid {A} (d : A) (h w : nat) (g : grid A) (y x : nat) :
  is_grid h w g -> (y < h)%nat -> (x < w)%nat ->
  In (get d g y x) (concat g).
Proof.
  intros Hg Hy Hx.
  rewrite <- (nth_concat_grid d h w) by auto.
  apply nth_In. rewrite (length_concat_grid h w) by auto. nia.
Qed.

Lemma nil_of_no_member {A} (l : list A) : (forall a, ~ In a l) -> l = [].
Proof.
  destruct l as [|a l]; auto. intros Hn; exfalso; apply (Hn a); simpl; auto.
Qed.

(** Without peaks the mask is made of ones. *)
Lemma peaks_mask_no_peaks (h w : nat) (magnitude : grid R) (q t : R)
  (r pc : Z) :
  is_grid h w magnitude -> (0 < h)%nat ->
  threshold_of magnitude q pc = Ok t ->
  (forall y x, (y < h)%nat -> (x < w)%nat ->
               get false (center_disc h w pc) y x = false ->
               (get 0%R magnitude y x <= t)%R) ->
  peaks_mask magnitude q r pc = Ok (ones h w).
Proof.
  intros Hm Hh Et Hle. unfold peaks_mask. rewrite Et; cbn [bind].
  cbv zeta.
  rewrite (nil_of_no_member (where_true (peaks_of magnitude t pc))).
  - rewrite (is_grid_height h w _ Hm), (is_grid_width h w _ Hm Hh).
    reflexivity.
  - intros [y x] Hin.
    apply (in_peaks h w) in Hin as (Hy & Hx & Hd & Ht); auto.
    cbn [nltb n0 Num_R] in Ht.
    rewrite Rltb_false in Ht by (apply Hle; auto). discriminate.
Qed.

Lemma filter_no_peaks (h w : nat) (channel : grid R) (spectrum : grid C)
  (q : R) (r pc : Z) :
  is_grid h w channel -> (0 < h)%nat -> (0 < w)%nat ->
  forward channel = Ok spectrum ->
  peaks_mask (map (map Cabs) spectrum) q r pc = Ok (ones h w) ->
  fft_filter_channel channel q r pc = Ok channel.
Proof.
  intros Hc Hh Hw Es Em.
  unfold fft_filter_channel. rewrite Es; cbn [bind]. rewrite Em; cbn [bind].
  apply (masked_identity h w); auto using is_grid_ones.
  intros i j Hi Hj. rewrite get_ones by auto. reflexivity.
Qed.

(** At [threshold_percentile = 100] the threshold is the largest magnitude
    outside the protected disc and no bin is strictly above it. *)
Lemma fft_filter_channel_percentile_100 (h w : nat) (channel : grid R)
  (notch_radius protect_center : Z) :
  is_grid h w channel -> (0 < h)%nat -> (0 < w)%nat ->
  fft_filter_channel channel 100 notch_radius protect_center = Ok channel.
Proof.
  intros Hc Hh Hw.
  destruct (forward_centre h w channel Hc Hh Hw) as (s & Es & Hs & _).
  set (magnitude := map (map Cabs) s).
  assert (Hm : is_grid h w magnitude) by (apply is_grid_map; auto).
  assert (Hz : is_grid h w (magnitude_for_threshold magnitude protect_center)).
  { unfold magnitude_for_threshold.
    rewrite (is_grid_height h w _ Hm), (is_grid_width h w _ Hm Hh).
    apply is_grid_set_where; auto using is_grid_center_disc. }
  destruct (percentile_100
              (concat (magnitude_for_threshold magnitude protect_center)))
    as (t & Et & Hmax).
  { intros E. apply (f_equal (@length R)) in E.
    rewrite (length_concat_grid h w) in E by auto. simpl in E. nia. }
  apply (filter_no_peaks h w channel s); auto.
  apply (peaks_mask_no_peaks h w magnitude 100%R t); auto.
  intros y x Hy Hx Hd. apply Hmax.
  replace (get 0%R magnitude y x)
    with (get 0%R (magnitude_for_threshold magnitude protect_center) y x).
  - apply (in_concat_grid 0%R h w); auto.
  - unfold magnitude_for_threshold.
    rewrite (is_grid_height h w _ Hm), (is_grid_width h w _ Hm Hh).
    rewrite (get_set_where 0%R h w) by auto using is_grid_center_disc.
    rewrite Hd. reflexivity.
Qed.


Lemma nth_all_zero (l : list R) (i : nat) :
  (forall v, In v l -> v = 0%R) -> nth i l 0%R = 0%R.
Proof.
  intros Hz. destruct (nth_in_or_default i l 0%R) as [Hin|E]; auto.
Qed.

(** Every percentile of an array of zeros is zero. *)
Lemma percentile_zeros (a : list R) (q : R) :
  (0 <= q <= 100)%R -> (forall v, In v a -> v = 0%R) ->
  percentile a q = Ok 0%R.
Proof.
  intros Hq Hz. unfold percentile.
  replace (nltb q n0 || nltb (nofZ 100) q) with false.
  2:{ cbn [nltb nofZ n0 Num_R].
      rewrite !Rltb_false by lra. reflexivity. }
  cbv zeta. cbn [n0 Num_R].
  assert (Hs : forall v, In v (sort a) -> v = 0%R)
    by (intros v Hv; apply Hz, in_sort; auto).
  rewrite !nth_all_zero by auto.
  cbn [nadd nmul nsub Num_R]. f_equal. ring.
Qed.

(** X11: Peak detection on a spectrum whose magnitudes are exactly zero
    outside the protected disc (inside the disc they may be anything): for
    every percentile that [np.percentile] accepts the threshold is 0, the
    strict comparison [magnitude > threshold] selects no bin, and the mask
    stays all ones for every notch radius.  The hypothesis asks for exact
    zeros; the rounding noise that a float64 transform of a constant image
    leaves off the centre is not covered. *)
Theorem peaks_mask_zero_outside (h w : nat) (magnitude : grid R)
  (threshold_percentile : R) (notch_radius protect_center : Z) :
  is_grid h w magnitude -> (0 < h)%nat ->
  (0 <= threshold_percentile <= 100)%R ->
  (forall y x, (y < h)%nat -> (x < w)%nat ->
     get false (center_disc h w protect_center) y x = false ->
     get 0%R magnitude y x = 0%R) ->
  threshold_of magnitude threshold_percentile protect_center = Ok 0%R
  /\ where_true (peaks_of magnitude 0%R protect_center) = []
  /\ peaks_mask magnitude threshold_percentile notch_radius protect_center
     = Ok (ones h w).
Proof.
  intros Hm Hh Hq Hout.
  assert (Hz : is_grid h w (magnitude_for_threshold magnitude protect_center)).
  { unfold magnitude_for_threshold.
    rewrite (is_grid_height h w _ Hm), (is_grid_width h w _ Hm Hh).
    apply is_grid_set_where; auto using is_grid_center_disc. }
  assert (Et : threshold_of magnitude threshold_percentile protect_center
               = Ok 0%R).
  { unfold threshold_of. apply percentile_zeros; auto.
    intros v Hv.
    destruct (In_nth _ _ 0%R Hv) as (n & Hn & <-).
    rewrite (length_concat_grid h w) in Hn by auto.
    assert (Hw : (0 < w)%nat) by nia.
    assert (Hdiv : (n / w < h)%nat)
      by (apply Nat.Div0.div_lt_upper_bound; lia).
    assert (Hmod : (n mod w < w)%nat) by (apply Nat.mod_upper_bound; lia).
    rewrite (Nat.div_mod_eq n w), (Nat.mul_comm w).
    rewrite (nth_concat_grid 0%R h w) by auto.
    unfold magnitude_for_threshold.
    rewrite (is_grid_height h w _ Hm), (is_grid_width h w _ Hm Hh).
    rewrite (get_set_where 0%R h w) by auto using is_grid_center_disc.
    destruct (get false (center_disc h w protect_center) (n / w) (n mod w))
      eqn:Hd; [reflexivity|].
    apply Hout; auto. }
  split; [exact Et|]. split.
  - apply nil_of_no_member. intros [y x] Hin.
    apply (in_peaks h w) in Hin as (Hy & Hx & Hd & Ht); auto.
    cbn [nltb n0 Num_R] in Ht.
    rewrite Rltb_false in Ht by (rewrite Hout by auto; lra). discriminate.
  - apply (peaks_mask_no_peaks h w magnitude threshold_percentile 0%R); auto.
    intros y x Hy Hx Hd. rewrite Hout by auto. lra.
Qed.

Lemma peaks_mask_zero_outside_witness :
  threshold_of [[0; 3; 7; 3; 0]]%R 90%R 1 = Ok 0%R
  /\ where_true (peaks_of [[0; 3; 7; 3; 0]]%R 0%R 1) = []
  /\ peaks_mask [[0; 3; 7; 3; 0]]%R 90%R 2 1 = Ok (ones 1 5).
Proof.
  apply (peaks_mask_zero_outside 1 5); try lia.
  - split; [reflexivity|]. repeat constructor.
  - lra.
  - intros [|y] x Hy Hx Hd; [|lia].
    destruct x as [|[|[|[|[|x]]]]]; try reflexivity; try discriminate Hd.
    lia.
Defined.

(** ** The line filter is linear *)

Lemma is_grid_lincomb (h w : nat) (a b : R) (x y : grid R) :
  is_grid h w x -> is_grid h w y -> is_grid h w (lincomb a x b y).
Proof. apply is_grid_zip_with. Qed.

Lemma get_lincomb (h w : nat) (a b : R) (x y : grid R) (i j : nat) :
  is_grid h w x -> is_grid h w y -> (i < h)%nat -> (j < w)%nat ->
  get 0%R (lincomb a x b y) i j
  = (a * get 0%R x i j + b * get 0%R y i j)%R.
Proof.
  intros Hx Hy Hi Hj; unfold lincomb.
  apply (get_zip_with (fun u v => (a * u + b * v)%R) 0%R 0%R 0%R h w); auto.
Qed.

Lemma fft2_entry_lincomb (h w : nat) (a b : R) (x y : grid R) (k l : nat) :
  is_grid h w x -> is_grid h w y ->
  fft2_entry h w (map (map RtoC) (lincomb a x b y)) k l
  = Cadd (Cmul (RtoC a) (fft2_entry h w (map (map RtoC) x) k l))
         (Cmul (RtoC b) (fft2_entry h w (map (map RtoC) y) k l)).
Proof.
  intros Hx Hy; unfold fft2_entry.
  rewrite !Csum_mul_l, <- Csum_add. apply Csum_ext; intros m Hm.
  rewrite !Csum_mul_l, <- Csum_add. apply Csum_ext; intros n Hn.
  rewrite !(get_map RtoC 0%R C0 h w) by auto using is_grid_lincomb.
  rewrite (get_lincomb h w) by auto.
  apply C_eq; unfold Cadd, Cmul, RtoC; simpl; ring.
Qed.

(** The inverse transform of a masked combination of two spectra. *)
Lemma inverse_mask_linear (h w : nat) (a b : R) (s sx sy : grid C)
  (mask : grid R) :
  is_grid h w s -> is_grid h w sx -> is_grid h w sy -> is_grid h w mask ->
  (0 < h)%nat -> (0 < w)%nat ->
  (forall i j, (i < h)%nat -> (j < w)%nat ->
     get C0 s i j
     = Cadd (Cmul (RtoC a) (get C0 sx i j)) (Cmul (RtoC b) (get C0 sy i j))) ->
  exists o ox oy,
    inverse (apply_mask s mask) = Ok o
    /\ inverse (apply_mask sx mask) = Ok ox
    /\ inverse (apply_mask sy mask) = Ok oy
    /\ o = lincomb a ox b oy.
Proof.
  intros Hs Hsx Hsy Hm Hh Hw Hcomb. unfold inverse.
  rewrite !(ifft2_ok h w) by auto using is_grid_ifftshift, is_grid_apply_mask.
  cbn [bind]. do 3 eexists. do 3 (split; [reflexivity|]).
  apply (grid_ext 0%R h w).
  - apply is_grid_map, is_grid_map_seq.
  - apply is_grid_lincomb; apply is_grid_map, is_grid_map_seq.
  - intros m n Hm' Hn'.
    rewrite (get_lincomb h w)
      by (auto; apply is_grid_map, is_grid_map_seq).
    rewrite !(get_map Cre C0 0%R h w) by (auto; apply is_grid_map_seq).
    rewrite !(get_map_seq C0 h w (fun m n => ifft2_entry h w _ m n)) by auto.
    assert (E : ifft2_entry h w (ifftshift (apply_mask s mask)) m n
                = Cadd (Cmul (RtoC a)
                          (ifft2_entry h w (ifftshift (apply_mask sx mask)) m n))
                       (Cmul (RtoC b)
                          (ifft2_entry h w (ifftshift (apply_mask sy mask)) m n))).
    { unfold ifft2_entry, Cdiv.
      match goal with
      | |- Cmul (Csum h ?F) ?c
           = Cadd (Cmul ?A (Cmul (Csum h ?Fx) ?c))
                  (Cmul ?B (Cmul (Csum h ?Fy) ?c)) =>
          assert (Es : Csum h F
                       = Cadd (Cmul A (Csum h Fx)) (Cmul B (Csum h Fy)));
            [|rewrite Es; ring]
      end.
      rewrite !Csum_mul_l, <- Csum_add.
      apply Csum_ext; intros k Hk.
      rewrite !Csum_mul_l, <- Csum_add. apply Csum_ext; intros l Hl.
      assert (Hk' : ((k + h / 2) mod h < h)%nat)
        by (apply Nat.mod_upper_bound; lia).
      assert (Hl' : ((l + w / 2) mod w < w)%nat)
        by (apply Nat.mod_upper_bound; lia).
      rewrite !(get_ifftshift C0 h w) by auto using is_grid_apply_mask.
      rewrite !(get_apply_mask h w) by auto.
      rewrite Hcomb by auto.
      apply C_eq; unfold Cadd, Cmul, RtoC; simpl; ring. }
    rewrite E. unfold Cre, Cadd, Cmul, RtoC; simpl. ring.
Qed.

(** X12: The line filter is a linear operator: for two channels of one
    shape and two real coefficients, filtering [a x + b y] gives
    [a] times the filtered [x] plus [b] times the filtered [y], whatever
    the configuration (the mask does not depend on the data). *)
Theorem fft_filter_channel_lines_linear (h w : nat) (x y : grid R) (a b : R)
  (line_width protect_center : Z) (attenuation : R) :
  is_grid h w x -> is_grid h w y -> (0 < h)%nat -> (0 < w)%nat ->
  exists ox oy,
    fft_filter_channel_lines x line_width protect_center attenuation = Ok ox
    /\ fft_filter_channel_lines y line_width protect_center attenuation
       = Ok oy
    /\ fft_filter_channel_lines (lincomb a x b y) line_width protect_center
                                attenuation
       = Ok (lincomb a ox b oy).
Proof.
  intros Hx Hy Hh Hw.
  assert (Hxy : is_grid h w (lincomb a x b y)) by (apply is_grid_lincomb; auto).
  destruct (forward_bins h w x Hx Hh Hw) as (sx & Ex & Hsx & Bx).
  destruct (forward_bins h w y Hy Hh Hw) as (sy & Ey & Hsy & By).
  destruct (forward_bins h w _ Hxy Hh Hw) as (s & Es & Hs & Bs).
  destruct (inverse_mask_linear h w a b s sx sy
              (lines_mask h w line_width protect_center attenuation))
    as (o & ox & oy & Eo & Eox & Eoy & ->); auto using is_grid_lines_mask.
  { intros i j Hi Hj. rewrite Bs, Bx, By by auto.
    apply fft2_entry_lincomb; auto. }
  exists ox, oy. unfold fft_filter_channel_lines.
  rewrite Ex, Ey, Es; cbn [bind].
  rewrite !(is_grid_height h w) by auto.
  rewrite !(is_grid_width h w) by auto.
  auto.
Qed.

Lemma fft_filter_channel_lines_linear_witness :
  exists ox oy,
    fft_filter_channel_lines [[1; 2]; [3; 4]]%R 1 0 (1 / 2) = Ok ox
    /\ fft_filter_channel_lines [[0; 1]; [1; 0]]%R 1 0 (1 / 2) = Ok oy
    /\ fft_filter_channel_lines
         (lincomb 2 [[1; 2]; [3; 4]]%R 3 [[0; 1]; [1; 0]]%R) 1 0 (1 / 2)
       = Ok (lincomb 2 ox 3 oy).
Proof.
  apply (fft_filter_channel_lines_linear 2 2); try lia;
    (split; [reflexivity | repeat constructor]).
Defined.

(** ** The whole-image filter, channel by channel *)

(** What the channel filter guarantees for every channel holds of every
    channel of the filtered image. *)
Lemma fft_remove_pattern_lift (P : grid R -> grid R -> Prop) (img : image R)
  (h w c : nat) (threshold_percentile : R) (notch_radius protect_center : Z)
  (method : string) (line_width : Z) (attenuation : R) :
  image_shape h w c img -> (0 < h)%nat -> (0 < w)%nat ->
  (forall ch, is_grid h w ch ->
     exists out,
       filter_channel method threshold_percentile notch_radius protect_center
                      line_width attenuation ch
       = Ok out
       /\ is_grid h w out /\ P ch out) ->
  exists out,
    fft_remove_pattern img threshold_percentile notch_radius protect_center
                       method line_width attenuation
    = Ok out
    /\ same_kind img out
    /\ image_shape h w c out
    /\ forall k, (k < channel_count c img)%nat ->
         P (channel_of k img) (channel_of k out).
Proof.
  intros Hshape Hh Hw Hf.
  destruct img as [a|a]; simpl in Hshape; unfold fft_remove_pattern.
  - destruct (Hf a Hshape) as (out & E & Hout & HP).
    rewrite E; cbn [bind]. exists (Gray out); simpl.
    split; [reflexivity | split; [exact I | split; [exact Hout|]]].
    intros k _; exact HP.
  - rewrite (is_grid3_depth h w c a Hshape Hh Hw).
    destruct (channel_loop h w c
                (filter_channel method threshold_percentile notch_radius
                                protect_center line_width attenuation)
                a (seq 0 c) (map (map (map (fun _ => 0%R))) a))
      as (res & E & Hres & Hin & _).
    + intros ch Hch. destruct (Hf ch Hch) as (out & Eo & Ho & _).
      exists out; auto.
    + auto.
    + apply is_grid3_zeros_like; auto.
    + apply seq_NoDup.
    + intros k Hk; apply in_seq in Hk; lia.
    + rewrite E; cbn [bind]. exists (Color res); simpl.
      split; [reflexivity | split; [exact I | split; [exact Hres|]]].
      intros k Hk.
      destruct (Hf (get_channel 0%R k a)) as (out & Eo & Ho & HP).
      { apply (is_grid_get_channel 0%R h w c); auto. }
      rewrite Hin in Eo by (apply in_seq; lia).
      inversion Eo; subst out. exact HP.
Qed.

(** Two images of one shape with the same channels are equal. *)
Lemma image_channels_ext (h w c : nat) (img out : image R) :
  same_kind img out -> image_shape h w c img -> image_shape h w c out ->
  (forall k, (k < channel_count c img)%nat ->
             channel_of k out = channel_of k img) ->
  out = img.
Proof.
  intros Hk Hi Ho Hch.
  destruct img as [a|a], out as [b|b]; simpl in *; try contradiction; f_equal.
  - apply (Hch 0%nat); lia.
  - pose proof Hi as [Ha Hpa]. pose proof Ho as [Hb Hpb].
    apply (grid_ext [] h w); auto. intros y x Hy Hx.
    assert (La : length (get [] a y x) = c)
      by (apply (grid_all_get (fun px => length px = c) [] h w); auto).
    assert (Lb : length (get [] b y x) = c)
      by (apply (grid_all_get (fun px => length px = c) [] h w); auto).
    apply (list_ext 0%R); [lia|]. intros k Hk'.
    rewrite <- !(get_get_channel 0%R h w c) by auto.
    rewrite Hch by lia. reflexivity.
Qed.

Lemma fft_remove_pattern_unchanged (img : image R) (h w c : nat)
  (threshold_percentile : R) (notch_radius protect_center : Z)
  (method : string) (line_width : Z) (attenuation : R) :
  image_shape h w c img -> (0 < h)%nat -> (0 < w)%nat ->
  (forall ch, is_grid h w ch ->
     filter_channel method threshold_percentile notch_radius protect_center
                    line_width attenuation ch
     = Ok ch) ->
  fft_remove_pattern img threshold_percentile notch_radius protect_center
                     method line_width attenuation
  = Ok img.
Proof.
  intros Hs Hh Hw Hf.
  destruct (fft_remove_pattern_lift (fun ch out => out = ch) img h w c
              threshold_percentile notch_radius protect_center method
              line_width attenuation Hs Hh Hw)
    as (out & E & Hk & Ho & Hch).
  - intros ch Hch. exists ch; auto.
  - rewrite E; f_equal. apply (image_channels_ext h w c); auto.
Qed.

Lemma filter_channel_lines (q : R) (r pc lw : Z) (att : R) (ch : grid R) :
  filter_channel "lines" q r pc lw att ch
  = fft_filter_channel_lines ch lw pc att.
Proof. reflexivity. Qed.

Lemma filter_channel_peaks (method : string) (q : R) (r pc lw : Z) (att : R)
  (ch : grid R) :
  method <> "lines"%string ->
  filter_channel method q r pc lw att ch = fft_filter_channel ch q r pc.
Proof.
  intros Hm; unfold filter_channel.
  destruct (String.eqb_spec method "lines"); [contradiction | reflexivity].
Qed.

(** X13: The line policy keeps the mean brightness: for every image with
    non-empty axes (2-D or 3-D) and every line width, protected radius and
    attenuation, [fft_remove_pattern] with [method = "lines"] returns an
    image of the same shape in which the samples of every channel have the
    same sum as in the input. *)
Theorem fft_remove_pattern_lines_total (img : image R) (h w c : nat)
  (threshold_percentile : R) (notch_radius protect_center line_width : Z)
  (attenuation : R) :
  image_shape h w c img -> (0 < h)%nat -> (0 < w)%nat ->
  exists out,
    fft_remove_pattern img threshold_percentile notch_radius protect_center
                       "lines" line_width attenuation
    = Ok out
    /\ same_kind img out
    /\ image_shape h w c out
    /\ forall k, (k < channel_count c img)%nat ->
         total (channel_of k out) = total (channel_of k img).
Proof.
  intros Hs Hh Hw.
  apply (fft_remove_pattern_lift (fun ch out => total out = total ch));
    auto.
  intros ch Hch. rewrite filter_channel_lines.
  apply fft_filter_channel_lines_total; auto.
Qed.

Lemma fft_remove_pattern_lines_total_witness :
  exists out,
    fft_remove_pattern (Color [[[1; 2; 3]; [4; 5; 6]]]%R) 50 3 15 "lines" 2
                       (99 / 100)
    = Ok out
    /\ total (channel_of 1 out)
       = total (channel_of 1 (Color [[[1; 2; 3]; [4; 5; 6]]]%R)).
Proof.
  destruct (fft_remove_pattern_lines_total
              (Color [[[1; 2; 3]; [4; 5; 6]]]%R) 1 2 3 50 3 15 2 (99 / 100))
    as (out & E & _ & _ & Ht).
  - split; [split; [reflexivity|] |]; repeat constructor.
  - lia.
  - lia.
  - exists out; split; [exact E | apply Ht; simpl; lia].
Defined.

(** X14: The peak policy keeps the mean brightness when the notch radius
    does not exceed the protected radius: for a percentile in [0, 100] and
    [notch_radius <= protect_center], [fft_remove_pattern] with a method
    other than ["lines"] returns an image of the same shape in which the
    samples of every channel have the same sum as in the input. *)
Theorem fft_remove_pattern_peaks_total (img : image R) (h w c : nat)
  (threshold_percentile : R) (notch_radius protect_center : Z)
  (method : string) (line_width : Z) (attenuation : R) :
  image_shape h w c img -> (0 < h)%nat -> (0 < w)%nat ->
  method <> "lines"%string ->
  (0 <= threshold_percentile <= 100)%R ->
  (notch_radius <= protect_center)%Z ->
  exists out,
    fft_remove_pattern img threshold_percentile notch_radius protect_center
                       method line_width attenuation
    = Ok out
    /\ same_kind img out
    /\ image_shape h w c out
    /\ forall k, (k < channel_count c img)%nat ->
         total (channel_of k out) = total (channel_of k img).
Proof.
  intros Hs Hh Hw Hm Hq Hr.
  apply (fft_remove_pattern_lift (fun ch out => total out = total ch));
    auto.
  intros ch Hch. rewrite filter_channel_peaks by auto.
  apply fft_filter_channel_total; auto.
Qed.

Lemma fft_remove_pattern_peaks_total_witness :
  exists out,
    fft_remove_pattern (Gray [[1; 2]; [3; 4]]%R) 50 1 2 "peaks" 2 (99 / 100)
    = Ok out
    /\ total (channel_of 0 out) = total [[1; 2]; [3; 4]]%R.
Proof.
  destruct (fft_remove_pattern_peaks_total
              (Gray [[1; 2]; [3; 4]]%R) 2 2 1 50 1 2 "peaks" 2 (99 / 100))
    as (out & E & _ & _ & Ht).
  - split; [reflexivity | repeat constructor].
  - lia.
  - lia.
  - discriminate.
  - lra.
  - lia.
  - exists out; split; [exact E | apply (Ht 0%nat); simpl; lia].
Defined.

(** X15: With [line_width <= 0] (the two loops are skipped) or with
    [attenuation = 0] (every factor is 1), [fft_remove_pattern] with
    [method = "lines"] returns the image itself, whatever the other
    parameters. *)
Theorem fft_remove_pattern_lines_identity (img : image R) (h w c : nat)
  (threshold_percentile : R) (notch_radius protect_center line_width : Z)
  (attenuation : R) :
  image_shape h w c img -> (0 < h)%nat -> (0 < w)%nat ->
  (line_width <= 0)%Z \/ attenuation = 0%R ->
  fft_remove_pattern img threshold_percentile notch_radius protect_center
                     "lines" line_width attenuation
  = Ok img.
Proof.
  intros Hs Hh Hw Hcfg.
  apply (fft_remove_pattern_unchanged img h w c); auto.
  intros ch Hch. rewrite filter_channel_lines.
  apply (fft_filter_channel_lines_identity h w); auto.
Qed.

Lemma fft_remove_pattern_lines_identity_witness :
  fft_remove_pattern (Color [[[1; 2; 3]; [4; 5; 6]]]%R) 50 3 15 "lines" 2 0
  = Ok (Color [[[1; 2; 3]; [4; 5; 6]]]%R).
Proof.
  apply (fft_remove_pattern_lines_identity _ 1 2 3); try lia.
  - split; [split; [reflexivity|] |]; repeat constructor.
  - right; reflexivity.
Defined.

(** X16: With a negative notch radius no notch is cut: for a percentile
    in [0, 100], [fft_remove_pattern] with a method other than ["lines"]
    returns the image itself. *)
Theorem fft_remove_pattern_negative_radius (img : image R) (h w c : nat)
  (threshold_percentile : R) (notch_radius protect_center : Z)
  (method : string) (line_width : Z) (attenuation : R) :
  image_shape h w c img -> (0 < h)%nat -> (0 < w)%nat ->
  method <> "lines"%string ->
  (0 <= threshold_percentile <= 100)%R ->
  (notch_radius < 0)%Z ->
  fft_remove_pattern img threshold_percentile notch_radius protect_center
                     method line_width attenuation
  = Ok img.
Proof.
  intros Hs Hh Hw Hm Hq Hr.
  apply (fft_remove_pattern_unchanged img h w c); auto.
  intros ch Hch. rewrite filter_channel_peaks by auto.
  apply (fft_filter_channel_negative_radius h w); auto.
Qed.

Lemma fft_remove_pattern_negative_radius_witness :
  fft_remove_pattern (Gray [[1; 2]; [3; 4]]%R) 50 (-1) 0 "peaks" 2 (99 / 100)
  = Ok (Gray [[1; 2]; [3; 4]]%R).
Proof.
  apply (fft_remove_pattern_negative_radius _ 2 2 1); try lia.
  - split; [reflexivity | repeat constructor].
  - discriminate.
  - lra.
Defined.

(** X17: At [threshold_percentile = 100] the threshold is the largest
    magnitude outside the protected disc and no bin is strictly above it:
    [fft_remove_pattern] with a method other than ["lines"] returns the
    image itself, whatever the notch radius and the protected radius. *)
Theorem fft_remove_pattern_percentile_100 (img : image R) (h w c : nat)
  (notch_radius protect_center : Z) (method : string) (line_width : Z)
  (attenuation : R) :
  image_shape h w c img -> (0 < h)%nat -> (0 < w)%nat ->
  method <> "lines"%string ->
  fft_remove_pattern img 100 notch_radius protect_center method line_width
                     attenuation
  = Ok img.
Proof.
  intros Hs Hh Hw Hm.
  apply (fft_remove_pattern_unchanged img h w c); auto.
  intros ch Hch. rewrite filter_channel_peaks by auto.
  apply (fft_filter_channel_percentile_100 h w); auto.
Qed.

Lemma fft_remove_pattern_percentile_100_witness :
  fft_remove_pattern (Color [[[1; 2; 3]; [4; 5; 6]]]%R) 100 3 0 "peaks" 2
                     (99 / 100)
  = Ok (Color [[[1; 2; 3]; [4; 5; 6]]]%R).
Proof.
  apply (fft_remove_pattern_percentile_100 _ 1 2 3); try lia.
  - split; [split; [reflexivity|] |]; repeat constructor.
  - discriminate.
Defined.

(** ** Saving: the quantisation of the samples *)

Lemma clip_R (v : R) :
  clip v 0%R 255%R
  = if Rlt_dec v 0 then 0%R else if Rlt_dec 255 v then 255%R else v.
Proof.
  unfold clip, minimum, maximum. cbn [nltb Num_R]. unfold Rltb.
  destruct (Rlt_dec v 0) as [H0|H0].
  - destruct (Rlt_dec 255 0); [lra | reflexivity].
  - destruct (Rlt_dec 255 v); reflexivity.
Qed.

Lemma quantize_R (v : R) :
  quantize v
  = Int_part (if Rlt_dec v 0 then 0%R else if Rlt_dec 255 v then 255%R else v).
Proof. unfold quantize. cbn [nfloor n0 nofZ Num_R]. rewrite clip_R. reflexivity. Qed.

Lemma Int_part_IZR (z : Z) : Int_part (IZR z) = z.
Proof. apply Int_part_val; lra. Qed.

Lemma Int_part_bounds (r : R) : (IZR (Int_part r) <= r < IZR (Int_part r) + 1)%R.
Proof. destruct (base_Int_part r); lra. Qed.

Lemma Int_part_monotone (a b : R) : (a <= b)%R -> (Int_part a <= Int_part b)%Z.
Proof.
  intros Hab.
  pose proof (Int_part_bounds a) as Ha. pose proof (Int_part_bounds b) as Hb.
  assert (H : (IZR (Int_part a) < IZR (Int_part b + 1))%R)
    by (rewrite plus_IZR; lra).
  apply lt_IZR in H. lia.
Qed.

Lemma quantize_byte (z : Z) : (0 <= z <= 255)%Z -> quantize (IZR z) = z.
Proof.
  intros Hz. rewrite quantize_R.
  assert (Hz0 : (0 <= IZR z)%R) by (apply (IZR_le 0); lia).
  assert (Hz1 : (IZR z <= 255)%R) by (apply (IZR_le z 255); lia).
  destruct (Rlt_dec (IZR z) 0); [lra|].
  destruct (Rlt_dec 255 (IZR z)); [lra|].
  apply Int_part_IZR.
Qed.

Lemma quantize_le (u v : R) : (u <= v)%R -> (quantize u <= quantize v)%Z.
Proof.
  intros Huv. rewrite !quantize_R. apply Int_part_monotone.
  destruct (Rlt_dec u 0), (Rlt_dec v 0); try lra;
    destruct (Rlt_dec 255 u), (Rlt_dec 255 v); lra.
Qed.

(** X18: The sample that [save_image] stores: a byte, 0 for a value of at
    most 0, 255 for a value of at least 255, the value rounded down in
    between, and the value itself when it already is an integer between 0
    and 255. *)
Theorem quantize_spec (v : R) :
  (0 <= quantize v <= 255)%Z
  /\ ((v <= 0)%R -> quantize v = 0%Z)
  /\ ((255 <= v)%R -> quantize v = 255%Z)
  /\ ((0 <= v <= 255)%R ->
      (IZR (quantize v) <= v < IZR (quantize v) + 1)%R)
  /\ forall z, (0 <= z <= 255)%Z -> quantize (IZR z) = z.
Proof.
  assert (Hlow : (v <= 0)%R -> quantize v = 0%Z).
  { intros Hv. rewrite quantize_R.
    destruct (Rlt_dec v 0); [apply (Int_part_IZR 0)|].
    destruct (Rlt_dec 255 v); [lra|].
    replace v with 0%R by lra. apply (Int_part_IZR 0). }
  assert (Hhigh : (255 <= v)%R -> quantize v = 255%Z).
  { intros Hv. rewrite quantize_R.
    destruct (Rlt_dec v 0); [lra|].
    destruct (Rlt_dec 255 v); [apply (Int_part_IZR 255)|].
    replace v with 255%R by lra. apply (Int_part_IZR 255). }
  assert (Hmid : (0 <= v <= 255)%R ->
                 (IZR (quantize v) <= v < IZR (quantize v) + 1)%R).
  { intros Hv. rewrite quantize_R.
    destruct (Rlt_dec v 0); [lra|].
    destruct (Rlt_dec 255 v); [lra|].
    apply Int_part_bounds. }
  split; [|split; [exact Hlow | split; [exact Hhigh | split; [exact Hmid|]]]].
  - destruct (Rle_lt_dec v 0) as [H0|H0]; [rewrite Hlow by auto; lia|].
    destruct (Rle_lt_dec 255 v) as [H1|H1]; [rewrite Hhigh by auto; lia|].
    destruct Hmid as [Ha Hb]; [lra|].
    assert (H2 : (IZR (-1) < IZR (quantize v))%R) by lra.
    assert (H3 : (IZR (quantize v) < IZR 255)%R) by lra.
    apply lt_IZR in H2, H3. lia.
  - apply quantize_byte.
Qed.

(** X19: The quantisation is monotone: a larger sample is never stored
    as a smaller byte. *)
Theorem quantize_monotone (u v : R) :
  (u <= v)%R -> (quantize u <= quantize v)%Z.
Proof.
  intros Huv. rewrite !quantize_R. apply Int_part_monotone.
  destruct (Rlt_dec u 0), (Rlt_dec v 0); try lra;
    destruct (Rlt_dec 255 u), (Rlt_dec 255 v); lra.
Qed.

Lemma quantize_monotone_witness :
  (quantize (3 / 2)%R <= quantize 300%R)%Z.
Proof. apply quantize_monotone. lra. Defined.

(** X20: [save_image] keeps the shape of the array it is given, and each
    stored sample is the quantised sample at the same place, a byte. *)
Theorem save_image_samples (img : image R) (h w c : nat) :
  image_shape h w c img ->
  same_axes img (save_image img)
  /\ image_shape h w c (save_image img)
  /\ forall y x k, (y < h)%nat -> (x < w)%nat -> (k < channel_count c img)%nat ->
       sample_at 0%Z (save_image img) y x k
       = quantize (sample_at 0%R img y x k)
       /\ (0 <= sample_at 0%Z (save_image img) y x k <= 255)%Z.
Proof.
  intros Hs.
  assert (Hq : forall v : R, (0 <= quantize v <= 255)%Z).
  { intros v. rewrite quantize_R.
    set (u := if Rlt_dec v 0 then 0%R
              else if Rlt_dec 255 v then 255%R else v).
    assert (Hu : (0 <= u <= 255)%R)
      by (unfold u; destruct (Rlt_dec v 0); [lra|];
          destruct (Rlt_dec 255 v); lra).
    pose proof (Int_part_monotone 0 u (proj1 Hu)) as H0.
    pose proof (Int_part_monotone u 255 (proj2 Hu)) as H1.
    rewrite (Int_part_IZR 0) in H0. rewrite (Int_part_IZR 255) in H1. lia. }
  destruct img as [a|a]; simpl in Hs; cbn [save_image same_axes image_shape].
  - split; [exact I | split; [apply is_grid_map; auto|]].
    intros y x k Hy Hx _. cbn [sample_at].
    rewrite (get_map quantize 0%R 0%Z h w) by auto. auto.
  - destruct Hs as [Ha Hpx].
    split; [exact I | split].
    + split; [apply is_grid_map; auto|].
      apply Forall_forall; intros row Hrow.
      apply in_map_iff in Hrow as [row0 [<- Hrow0]].
      apply Forall_forall; intros px Hin.
      apply in_map_iff in Hin as [px0 [<- Hpx0]].
      rewrite length_map.
      rewrite Forall_forall in Hpx. specialize (Hpx row0 Hrow0).
      rewrite Forall_forall in Hpx; auto.
    + intros y x k Hy Hx Hk. cbn [sample_at channel_count] in *.
      rewrite (get_map (map quantize) [] [] h w) by auto.
      assert (Hlen : length (get [] a y x) = c)
        by (apply (grid_all_get (fun px => length px = c) [] h w); auto).
      rewrite (nth_indep _ 0%Z (quantize 0%R))
        by (rewrite length_map; lia).
      rewrite map_nth. auto.
Qed.

Lemma save_image_samples_witness :
  sample_at 0%Z (save_image (Gray [[1 / 2; 300]; [- 4; 200]]%R)) 0 1 0
  = quantize (sample_at 0%R (Gray [[1 / 2; 300]; [- 4; 200]]%R) 0 1 0).
Proof.
  destruct (save_image_samples (Gray [[1 / 2; 300]; [- 4; 200]]%R) 2 2 1)
    as (_ & _ & Hget).
  - split; [reflexivity | repeat constructor].
  - apply (Hget 0 1 0)%nat; simpl; lia.
Defined.

(** ** The spectrum visualisation *)

Lemma fold_Rmin_spec (l : list R) (v : R) :
  In (fold_left Rmin l v) (v :: l)
  /\ forall u, In u (v :: l) -> (fold_left Rmin l v <= u)%R.
Proof.
  revert v; induction l as [|a l IH]; intros v; simpl.
  - split; auto. intros u [<-|[]]; lra.
  - destruct (IH (Rmin v a)) as [Hin Hle]. split.
    + destruct Hin as [E|Hin]; auto.
      rewrite <- E. unfold Rmin. destruct (Rle_dec v a); auto.
    + intros u Hu.
      assert (H0 : (fold_left Rmin l (Rmin v a) <= Rmin v a)%R)
        by (apply Hle; simpl; auto).
      destruct Hu as [<-|[<-|Hu]].
      * pose proof (Rmin_l v a). lra.
      * pose proof (Rmin_r v a). lra.
      * apply Hle; simpl; auto.
Qed.

Lemma fold_Rmax_spec (l : list R) (v : R) :
  In (fold_left Rmax l v) (v :: l)
  /\ forall u, In u (v :: l) -> (u <= fold_left Rmax l v)%R.
Proof.
  revert v; induction l as [|a l IH]; intros v; simpl.
  - split; auto. intros u [<-|[]]; lra.
  - destruct (IH (Rmax v a)) as [Hin Hle]. split.
    + destruct Hin as [E|Hin]; auto.
      rewrite <- E. unfold Rmax. destruct (Rle_dec v a); auto.
    + intros u Hu.
      assert (H0 : (Rmax v a <= fold_left Rmax l (Rmax v a))%R)
        by (apply Hle; simpl; auto).
      destruct Hu as [<-|[<-|Hu]].
      * pose proof (Rmax_l v a). lra.
      * pose proof (Rmax_r v a). lra.
      * apply Hle; simpl; auto.
Qed.

Lemma in_concat_coordinates {A} (d : A) (h w : nat) (g : grid A) (v : A) :
  is_grid h w g -> In v (concat g) ->
  exists y x, (y < h)%nat /\ (x < w)%nat /\ get d g y x = v.
Proof.
  intros Hg Hv.
  destruct (In_nth _ _ d Hv) as (n & Hn & E).
  rewrite (length_concat_grid h w) in Hn by auto.
  assert (Hw : (0 < w)%nat) by nia.
  exists (n / w)%nat, (n mod w)%nat.
  assert (Hdiv : (n / w < h)%nat)
    by (apply Nat.Div0.div_lt_upper_bound; lia).
  assert (Hmod : (n mod w < w)%nat) by (apply Nat.mod_upper_bound; lia).
  split; auto. split; auto.
  rewrite <- (nth_concat_grid d h w) by auto.
  rewrite <- E. f_equal.
  rewrite (Nat.div_mod_eq n w) at 3. lia.
Qed.

(** The smallest and the largest value of a non-empty array are values of
    the array and bound every value. *)
Lemma amin_spec (h w : nat) (g : grid R) :
  is_grid h w g -> (0 < h)%nat -> (0 < w)%nat ->
  (exists y x, (y < h)%nat /\ (x < w)%nat /\ get 0%R g y x = amin g)
  /\ forall y x, (y < h)%nat -> (x < w)%nat -> (amin g <= get 0%R g y x)%R.
Proof.
  intros Hg Hh Hw. unfold amin.
  pose proof (length_concat_grid h w g Hg) as Hlen.
  destruct (concat g) as [|v l] eqn:Ec; [simpl in Hlen; nia|].
  destruct (fold_Rmin_spec l v) as [Hin Hle]. split.
  - apply (in_concat_coordinates 0%R h w); auto. rewrite Ec; exact Hin.
  - intros y x Hy Hx. apply Hle. rewrite <- Ec.
    apply (in_concat_grid 0%R h w); auto.
Qed.

Lemma amax_spec (h w : nat) (g : grid R) :
  is_grid h w g -> (0 < h)%nat -> (0 < w)%nat ->
  (exists y x, (y < h)%nat /\ (x < w)%nat /\ get 0%R g y x = amax g)
  /\ forall y x, (y < h)%nat -> (x < w)%nat -> (get 0%R g y x <= amax g)%R.
Proof.
  intros Hg Hh Hw. unfold amax.
  pose proof (length_concat_grid h w g Hg) as Hlen.
  destruct (concat g) as [|v l] eqn:Ec; [simpl in Hlen; nia|].
  destruct (fold_Rmax_spec l v) as [Hin Hle]. split.
  - apply (in_concat_coordinates 0%R h w); auto. rewrite Ec; exact Hin.
  - intros y x Hy Hx. apply Hle. rewrite <- Ec.
    apply (in_concat_grid 0%R h w); auto.
Qed.

Lemma is_grid_to_gray (h w c : nat) (img : image R) :
  image_shape h w c img -> is_grid h w (to_gray img).
Proof.
  destruct img as [a|a]; simpl; auto.
  intros [Ha _]. apply is_grid_map; auto.
Qed.

Lemma Cabs_nonneg (z : C) : (0 <= Cabs z)%R.
Proof. apply sqrt_pos. Qed.

Lemma log_magnitude_le (a b : C) :
  (Cabs a <= Cabs b)%R -> (ln (1 + Cabs a) <= ln (1 + Cabs b))%R.
Proof.
  intros Hab. pose proof (Cabs_nonneg a).
  destruct (Rle_lt_or_eq_dec _ _ Hab) as [Hlt|E].
  - left. apply ln_increasing; lra.
  - rewrite E. lra.
Qed.

(** The pixels of the visualisation, from the spectrum. *)
Lemma visualize_fft_pixels (img : image R) (h w c : nat) :
  image_shape h w c img -> (0 < h)%nat -> (0 < w)%nat ->
  exists spectrum out,
    forward (to_gray img) = Ok spectrum
    /\ is_grid h w spectrum
    /\ get C0 spectrum (h / 2) (w / 2) = RtoC (total (to_gray img))
    /\ visualize_fft img = Ok (Gray out)
    /\ is_grid h w out
    /\ forall y x, (y < h)%nat -> (x < w)%nat ->
         get 0%Z out y x
         = quantize
             ((ln (1 + Cabs (get C0 spectrum y x))
               - amin (log_magnitude spectrum))
              / (amax (log_magnitude spectrum) - amin (log_magnitude spectrum))
              * 255)%R.
Proof.
  intros Hs Hh Hw.
  destruct (forward_centre h w (to_gray img)) as (s & Es & Hgs & Hc);
    eauto using is_grid_to_gray.
  exists s. eexists. split; [exact Es | split; [exact Hgs | split; [exact Hc|]]].
  unfold visualize_fft. rewrite Es; cbn [bind save_image].
  split; [reflexivity|].
  assert (Hm : is_grid h w (log_magnitude s)) by (apply is_grid_map; auto).
  assert (Hn : is_grid h w (normalize (log_magnitude s)))
    by (apply is_grid_map; auto).
  split; [apply is_grid_map; auto|].
  intros y x Hy Hx.
  rewrite (get_map quantize 0%R 0%Z h w) by auto.
  unfold normalize at 1. cbv zeta.
  rewrite (get_map _ 0%R 0%R h w) by auto.
  unfold log_magnitude at 1.
  rewrite (get_map _ C0 0%R h w) by auto.
  reflexivity.
Qed.

(** X21: The visualisation of the spectrum of an image with non-empty
    axes is a 2-D array of the height and width of the image.  When the
    magnitudes of the spectrum are not all equal, it uses the full range:
    some pixel is 0 and some pixel is 255; and it is monotone in the
    magnitude: a bin of larger magnitude never gets a darker pixel. *)
Theorem visualize_fft_contrast (img : image R) (h w c : nat) :
  image_shape h w c img -> (0 < h)%nat -> (0 < w)%nat ->
  exists spectrum out,
    forward (to_gray img) = Ok spectrum
    /\ visualize_fft img = Ok (Gray out)
    /\ is_grid h w out
    /\ ((amin (log_magnitude spectrum) < amax (log_magnitude spectrum))%R ->
        (exists y x, (y < h)%nat /\ (x < w)%nat /\ get 0%Z out y x = 0%Z)
        /\ (exists y x, (y < h)%nat /\ (x < w)%nat /\ get 0%Z out y x = 255%Z)
        /\ forall y x y' x',
             (y < h)%nat -> (x < w)%nat -> (y' < h)%nat -> (x' < w)%nat ->
             (Cabs (get C0 spectrum y x) <= Cabs (get C0 spectrum y' x'))%R ->
             (get 0%Z out y x <= get 0%Z out y' x')%Z).
Proof.
  intros Hs Hh Hw.
  destruct (visualize_fft_pixels img h w c Hs Hh Hw)
    as (s & out & Es & Hgs & _ & Ev & Ho & Hpix).
  exists s, out. split; [exact Es | split; [exact Ev | split; [exact Ho|]]].
  intros Hlt.
  assert (Hm : is_grid h w (log_magnitude s)) by (apply is_grid_map; auto).
  assert (Hval : forall y x, (y < h)%nat -> (x < w)%nat ->
            get 0%R (log_magnitude s) y x = ln (1 + Cabs (get C0 s y x)))
    by (intros y x Hy Hx; unfold log_magnitude;
        apply (get_map (fun z => ln (1 + Cabs z)) C0 0%R h w); auto).
  set (lo := amin (log_magnitude s)) in *.
  set (hi := amax (log_magnitude s)) in *.
  destruct (amin_spec h w _ Hm Hh Hw) as [(y0 & x0 & Hy0 & Hx0 & E0) _].
  destruct (amax_spec h w _ Hm Hh Hw) as [(y1 & x1 & Hy1 & Hx1 & E1) _].
  split; [|split].
  - exists y0, x0. split; auto. split; auto.
    rewrite Hpix, <- Hval, E0 by auto. fold lo.
    replace ((lo - lo) / (hi - lo) * 255)%R with (IZR 0) by (field; lra).
    apply quantize_byte; lia.
  - exists y1, x1. split; auto. split; auto.
    rewrite Hpix, <- Hval, E1 by auto. fold hi.
    replace ((hi - lo) / (hi - lo) * 255)%R with (IZR 255) by (field; lra).
    apply quantize_byte; lia.
  - intros y x y' x' Hy Hx Hy' Hx' Hle.
    rewrite !Hpix by auto. apply quantize_le.
    apply log_magnitude_le in Hle.
    apply Rmult_le_compat_r; [lra|].
    apply Rmult_le_compat_r; [left; apply Rinv_0_lt_compat; lra | lra].
Qed.

Lemma visualize_fft_contrast_witness :
  exists out,
    visualize_fft (Gray [[1; 2]; [3; 4]]%R) = Ok (Gray out)
    /\ is_grid 2 2 out.
Proof.
  destruct (visualize_fft_contrast (Gray [[1; 2]; [3; 4]]%R) 2 2 1)
    as (s & out & _ & Ev & Ho & _).
  - split; [reflexivity | repeat constructor].
  - lia.
  - lia.
  - exists out; split; [exact Ev | exact Ho].
Defined.

(** *** The centre of the visualisation *)

Lemma Cabs_mul (a b : C) : Cabs (Cmul a b) = (Cabs a * Cabs b)%R.
Proof.
  unfold Cabs, Cmul; simpl.
  rewrite <- sqrt_mult by nra. f_equal. ring.
Qed.

Lemma Cabs_sqr (a : C) : (Cabs a * Cabs a = fst a ^ 2 + snd a ^ 2)%R.
Proof. unfold Cabs. apply sqrt_sqrt. nra. Qed.

Lemma Cabs_triangle (a b : C) : (Cabs (Cadd a b) <= Cabs a + Cabs b)%R.
Proof.
  pose proof (Cabs_nonneg a) as Ha. pose proof (Cabs_nonneg b) as Hb.
  pose proof (Cabs_nonneg (Cadd a b)) as Hab.
  pose proof (Cabs_sqr a) as Sa. pose proof (Cabs_sqr b) as Sb.
  pose proof (Cabs_sqr (Cadd a b)) as Sab.
  destruct a as [a1 a2], b as [b1 b2]; unfold Cadd in *; cbn [fst snd] in *.
  set (x := Cabs (a1, a2)) in *. set (y := Cabs (b1, b2)) in *.
  set (z := Cabs ((a1 + b1)%R, (a2 + b2)%R)) in *.
  assert (Hcs : (a1 * b1 + a2 * b2 <= x * y)%R).
  { destruct (Rle_lt_dec (a1 * b1 + a2 * b2) (x * y)) as [|Hgt]; auto.
    exfalso.
    assert (H0 : (0 <= x * y)%R) by (apply Rmult_le_pos; auto).
    assert (H1 : ((x * y) * (x * y) < (a1 * b1 + a2 * b2) * (a1 * b1 + a2 * b2))%R)
      by (apply Rmult_le_0_lt_compat; lra).
    assert (H2 : ((x * y) * (x * y)
                  = (a1 ^ 2 + a2 ^ 2) * (b1 ^ 2 + b2 ^ 2))%R)
      by (rewrite <- Sa, <- Sb; ring).
    pose proof (pow2_ge_0 (a1 * b2 - a2 * b1)).
    nra. }
  destruct (Rle_lt_dec z (x + y)) as [|Hgt]; auto.
  exfalso.
  assert (H1 : ((x + y) * (x + y) < z * z)%R)
    by (apply Rmult_le_0_lt_compat; lra).
  nra.
Qed.

Lemma Cabs_one : Cabs C1 = 1%R.
Proof.
  unfold Cabs, C1; simpl.
  replace (1 * (1 * 1) + 0 * (0 * 1))%R with 1%R by ring. apply sqrt_1.
Qed.

Lemma Cabs_root (n : nat) : Cabs (root n) = 1%R.
Proof.
  unfold Cabs, root; simpl.
  replace (cos (2 * PI / INR n) * (cos (2 * PI / INR n) * 1)
           + - sin (2 * PI / INR n) * (- sin (2 * PI / INR n) * 1))%R
    with (Rsqr (sin (2 * PI / INR n)) + Rsqr (cos (2 * PI / INR n)))%R
    by (unfold Rsqr; ring).
  rewrite sin2_cos2. apply sqrt_1.
Qed.

Lemma Cabs_Cpow_root (n k : nat) : Cabs (Cpow (root n) k) = 1%R.
Proof.
  induction k as [|k IH]; simpl; [apply Cabs_one|].
  rewrite Cabs_mul, IH, Cabs_root. ring.
Qed.

Lemma Cabs_Csum (n : nat) (f : nat -> C) :
  (Cabs (Csum n f) <= Rsum n (fun i => Cabs (f i)))%R.
Proof.
  induction n as [|n IH]; simpl.
  - unfold C0. rewrite Cabs_real, Rabs_R0. lra.
  - pose proof (Cabs_triangle (Csum n f) (f n)). lra.
Qed.

Lemma Rsum_le (n : nat) (f g : nat -> R) :
  (forall i, (i < n)%nat -> (f i <= g i)%R) -> (Rsum n f <= Rsum n g)%R.
Proof.
  induction n as [|n IH]; intros Hfg; simpl; [lra|].
  pose proof (Hfg n (Nat.lt_succ_diag_r n)).
  assert (Rsum n f <= Rsum n g)%R by (apply IH; intros; apply Hfg; lia).
  lra.
Qed.

(** No bin of the transform of an array of non-negative samples exceeds
    the sum of the samples in magnitude. *)
Lemma fft2_entry_bound (h w : nat) (x : grid R) (k l : nat) :
  is_grid h w x -> (0 < h)%nat ->
  (forall m n, (m < h)%nat -> (n < w)%nat -> (0 <= get 0%R x m n)%R) ->
  (Cabs (fft2_entry h w (map (map RtoC) x) k l) <= total x)%R.
Proof.
  intros Hx Hh Hpos. rewrite (total_grid h w x Hx Hh). unfold fft2_entry.
  eapply Rle_trans; [apply Cabs_Csum|].
  apply Rsum_le; intros m Hm.
  eapply Rle_trans; [apply Cabs_Csum|].
  apply Rsum_le; intros n Hn.
  rewrite (get_map RtoC 0%R C0 h w) by auto.
  rewrite !Cabs_mul, !Cabs_Cpow_root.
  unfold RtoC. rewrite Cabs_real, Rabs_pos_eq by auto. lra.
Qed.

Lemma Rsum_nonneg (n : nat) (f : nat -> R) :
  (forall i, (i < n)%nat -> (0 <= f i)%R) -> (0 <= Rsum n f)%R.
Proof.
  induction n as [|n IH]; intros Hf; simpl; [lra|].
  pose proof (Hf n (Nat.lt_succ_diag_r n)).
  assert (0 <= Rsum n f)%R by (apply IH; intros; apply Hf; lia).
  lra.
Qed.

Lemma fold_right_Rplus_nonneg (l : list R) :
  Forall (fun v => (0 <= v)%R) l -> (0 <= fold_right Rplus 0 l)%R.
Proof.
  induction 1 as [|v l Hv _ IH]; simpl; lra.
Qed.

(** The grayscale version of an image of non-negative samples has
    non-negative samples. *)
Lemma to_gray_nonneg (img : image R) (h w c : nat) :
  image_shape h w c img ->
  (forall y x k, (y < h)%nat -> (x < w)%nat -> (k < channel_count c img)%nat ->
                 (0 <= sample_at 0%R img y x k)%R) ->
  forall y x, (y < h)%nat -> (x < w)%nat ->
              (0 <= get 0%R (to_gray img) y x)%R.
Proof.
  intros Hs Hpos y x Hy Hx.
  destruct img as [a|a]; simpl in *.
  - apply (Hpos y x 0%nat); auto.
  - destruct Hs as [Ha Hpx]. unfold mean_channels.
    rewrite (get_map _ [] 0%R h w) by auto.
    assert (Hlen : length (get [] a y x) = c)
      by (apply (grid_all_get (fun px => length px = c) [] h w); auto).
    assert (Hall : Forall (fun v => (0 <= v)%R) (get [] a y x)).
    { apply Forall_forall; intros v Hv.
      destruct (In_nth _ _ 0%R Hv) as (k & Hk & <-).
      apply Hpos; auto. lia. }
    apply fold_right_Rplus_nonneg in Hall.
    unfold Rdiv. apply Rmult_le_pos; auto.
    destruct (get [] a y x) as [|v l]; simpl length.
    + simpl. rewrite Rinv_0. lra.
    + left. apply Rinv_0_lt_compat. apply lt_0_INR. lia.
Qed.

(** X22: For an image whose samples are not negative, no bin of the
    spectrum exceeds the zero-frequency bin in magnitude, so (when the
    magnitudes are not all equal) the centre pixel [(h // 2, w // 2)] of
    the visualisation is 255, the brightest value. *)
Theorem visualize_fft_centre (img : image R) (h w c : nat) :
  image_shape h w c img -> (0 < h)%nat -> (0 < w)%nat ->
  (forall y x k, (y < h)%nat -> (x < w)%nat -> (k < channel_count c img)%nat ->
                 (0 <= sample_at 0%R img y x k)%R) ->
  exists spectrum out,
    forward (to_gray img) = Ok spectrum
    /\ visualize_fft img = Ok (Gray out)
    /\ (forall y x, (y < h)%nat -> (x < w)%nat ->
          (Cabs (get C0 spectrum y x)
           <= Cabs (get C0 spectrum (h / 2) (w / 2)))%R)
    /\ ((amin (log_magnitude spectrum) < amax (log_magnitude spectrum))%R ->
        get 0%Z out (h / 2) (w / 2) = 255%Z).
Proof.
  intros Hs Hh Hw Hpos.
  pose proof (is_grid_to_gray h w c img Hs) as Hg.
  pose proof (to_gray_nonneg img h w c Hs Hpos) as Hgpos.
  destruct (visualize_fft_pixels img h w c Hs Hh Hw)
    as (s & out & Es & Hgs & Hc & Ev & Ho & Hpix).
  destruct (forward_bins h w (to_gray img) Hg Hh Hw) as (s' & Es' & _ & Hbin).
  rewrite Es in Es'; inversion Es'; subst s'.
  assert (Htot : (0 <= total (to_gray img))%R).
  { rewrite (total_grid h w _ Hg Hh).
    apply Rsum_nonneg; intros y Hy. apply Rsum_nonneg; intros x Hx. auto. }
  assert (Hmax : forall y x, (y < h)%nat -> (x < w)%nat ->
            (Cabs (get C0 s y x) <= Cabs (get C0 s (h / 2) (w / 2)))%R).
  { intros y x Hy Hx. rewrite Hc, Hbin by auto.
    unfold RtoC. rewrite Cabs_real, Rabs_pos_eq by auto.
    apply fft2_entry_bound; auto. }
  exists s, out. split; [exact Es | split; [exact Ev | split; [exact Hmax|]]].
  intros Hlt.
  assert (Hm : is_grid h w (log_magnitude s)) by (apply is_grid_map; auto).
  assert (Hval : forall y x, (y < h)%nat -> (x < w)%nat ->
            get 0%R (log_magnitude s) y x = ln (1 + Cabs (get C0 s y x)))
    by (intros y x Hy Hx; unfold log_magnitude;
        apply (get_map (fun z => ln (1 + Cabs z)) C0 0%R h w); auto).
  destruct (amax_spec h w _ Hm Hh Hw) as [(y1 & x1 & Hy1 & Hx1 & E1) Hub].
  assert (Ec : ln (1 + Cabs (get C0 s (h / 2) (w / 2)))
               = amax (log_magnitude s)).
  { apply Rle_antisym.
    - rewrite <- Hval by auto using half_lt. apply Hub; auto using half_lt.
    - rewrite <- E1, Hval by auto. apply log_magnitude_le, Hmax; auto. }
  rewrite Hpix, Ec by auto using half_lt.
  set (lo := amin (log_magnitude s)) in *.
  set (hi := amax (log_magnitude s)) in *.
  replace ((hi - lo) / (hi - lo) * 255)%R with (IZR 255) by (field; lra).
  apply quantize_byte; lia.
Qed.

Lemma visualize_fft_centre_witness :
  exists spectrum out,
    forward (to_gray (Gray [[1; 2]; [3; 4]]%R)) = Ok spectrum
    /\ visualize_fft (Gray [[1; 2]; [3; 4]]%R) = Ok (Gray out)
    /\ (Cabs (get C0 spectrum 0 0) <= Cabs (get C0 spectrum 1 1))%R.
Proof.
  destruct (visualize_fft_centre (Gray [[1; 2]; [3; 4]]%R) 2 2 1)
    as (s & out & Es & Ev & Hmax & _).
  - split; [reflexivity | repeat constructor].
  - lia.
  - lia.
  - intros y x k Hy Hx _.
    destruct y as [|[|y]]; [| |lia]; (destruct x as [|[|x]]; [| |lia]);
      unfold sample_at, get; simpl; lra.
  - exists s, out. split; [exact Es | split; [exact Ev|]].
    apply (Hmax 0 0)%nat; lia.
Defined.

(** ** The line filter discards no imaginary part *)

Lemma Cconj_add (a b : C) : Cconj (Cadd a b) = Cadd (Cconj a) (Cconj b).
Proof. apply C_eq; unfold Cconj, Cadd; simpl; ring. Qed.

Lemma Cconj_mul (a b : C) : Cconj (Cmul a b) = Cmul (Cconj a) (Cconj b).
Proof. apply C_eq; unfold Cconj, Cmul; simpl; ring. Qed.

Lemma Cconj_RtoC (r : R) : Cconj (RtoC r) = RtoC r.
Proof. apply C_eq; unfold Cconj, RtoC; simpl; ring. Qed.

Lemma Cconj_Csum (n : nat) (f : nat -> C) :
  Cconj (Csum n f) = Csum n (fun i => Cconj (f i)).
Proof.
  induction n as [|n IH]; simpl.
  - apply C_eq; unfold Cconj, C0; simpl; ring.
  - rewrite Cconj_add, IH. reflexivity.
Qed.

Lemma Cconj_root_pow (n k : nat) :
  Cconj (Cpow (root n) k) = Cpow (iroot n) k.
Proof.
  rewrite Cpow_root, Cpow_iroot. apply C_eq; unfold Cconj; simpl; ring.
Qed.

Lemma Cconj_iroot_pow (n k : nat) :
  Cconj (Cpow (iroot n) k) = Cpow (root n) k.
Proof.
  rewrite Cpow_root, Cpow_iroot. apply C_eq; unfold Cconj; simpl; ring.
Qed.

Lemma Cconj_inv_real (r : R) : Cconj (Cinv (RtoC r)) = Cinv (RtoC r).
Proof. apply C_eq; unfold Cconj, Cinv, RtoC; simpl; [reflexivity|]. unfold Rdiv. ring. Qed.

Lemma opposite_lt (n k : nat) : (0 < n)%nat -> (opposite n k < n)%nat.
Proof. intros; apply Nat.mod_upper_bound; lia. Qed.

Lemma opposite_cases (n k : nat) :
  (k < n)%nat ->
  (k = 0%nat /\ opposite n k = 0%nat)
  \/ ((0 < k)%nat /\ opposite n k = (n - k)%nat).
Proof.
  intros Hk; unfold opposite. destruct k as [|k].
  - left. split; auto. rewrite Nat.sub_0_r. apply Nat.Div0.mod_same.
  - right. split; [lia|]. apply Nat.mod_small; lia.
Qed.

(** The kernel of the transform at the opposite frequency is the kernel of
    the inverse transform. *)
Lemma root_opposite (n m k : nat) :
  (k < n)%nat -> Cpow (root n) (m * opposite n k) = Cpow (iroot n) (m * k).
Proof.
  intros Hk.
  destruct (opposite_cases n k Hk) as [[-> ->]|[Hpos ->]].
  - rewrite Nat.mul_0_r. reflexivity.
  - assert (E1 : Cmul (Cpow (root n) (m * k)) (Cpow (iroot n) (m * k)) = C1)
      by (rewrite <- Cpow_mul_distr, root_iroot; apply Cpow_one).
    assert (E2 : Cmul (Cpow (root n) (m * (n - k))) (Cpow (root n) (m * k))
                 = C1).
    { rewrite <- Cpow_add.
      replace (m * (n - k) + m * k)%nat with (n * m)%nat by nia.
      rewrite Cpow_mul, root_pow_order by lia. apply Cpow_one. }
    transitivity (Cmul (Cmul (Cpow (root n) (m * (n - k)))
                             (Cpow (root n) (m * k)))
                       (Cpow (iroot n) (m * k))).
    + transitivity (Cmul (Cpow (root n) (m * (n - k)))
                         (Cmul (Cpow (root n) (m * k))
                               (Cpow (iroot n) (m * k)))); [|ring].
      rewrite E1. ring.
    + rewrite E2. ring.
Qed.

Lemma iroot_opposite (n m k : nat) :
  (k < n)%nat -> Cpow (iroot n) (m * opposite n k) = Cpow (root n) (m * k).
Proof.
  intros Hk. rewrite <- Cconj_root_pow, root_opposite by auto.
  apply Cconj_iroot_pow.
Qed.

Lemma Csum_shift (n : nat) (f : nat -> C) :
  Csum (S n) f = Cadd (f 0%nat) (Csum n (fun k => f (S k))).
Proof.
  induction n as [|n IH].
  - simpl. ring.
  - change (Csum (S (S n)) f) with (Cadd (Csum (S n) f) (f (S n))).
    rewrite IH. simpl. ring.
Qed.

Lemma Csum_reverse (n : nat) (f : nat -> C) :
  Csum n (fun k => f (n - 1 - k)%nat) = Csum n f.
Proof.
  induction n as [|n IH]; [reflexivity|].
  rewrite Csum_shift. cbn [Csum].
  replace (S n - 1 - 0)%nat with n by lia.
  rewrite <- IH.
  rewrite (Csum_ext n (fun k => f (S n - 1 - S k)%nat)
             (fun k => f (n - 1 - k)%nat))
    by (intros k Hk; f_equal; lia).
  ring.
Qed.

(** Summing over the opposite frequencies is summing over the
    frequencies. *)
Lemma Csum_opposite (n : nat) (f : nat -> C) :
  Csum n (fun k => f (opposite n k)) = Csum n f.
Proof.
  destruct n as [|n]; [reflexivity|].
  rewrite !Csum_shift.
  replace (opposite (S n) 0) with 0%nat
    by (unfold opposite; rewrite Nat.sub_0_r, Nat.Div0.mod_same; reflexivity).
  f_equal.
  rewrite <- (Csum_reverse n (fun k => f (S k))).
  apply Csum_ext; intros k Hk. f_equal.
  unfold opposite. rewrite Nat.mod_small by lia. lia.
Qed.

(** The transform of a real array at the opposite frequency is the
    conjugate. *)
Lemma fft2_entry_conj (h w : nat) (x : grid R) (k l : nat) :
  is_grid h w x -> (k < h)%nat -> (l < w)%nat ->
  Cconj (fft2_entry h w (map (map RtoC) x) k l)
  = fft2_entry h w (map (map RtoC) x) (opposite h k) (opposite w l).
Proof.
  intros Hx Hk Hl. unfold fft2_entry.
  rewrite Cconj_Csum. apply Csum_ext; intros m Hm.
  rewrite Cconj_Csum. apply Csum_ext; intros n Hn.
  rewrite (get_map RtoC 0%R C0 h w) by auto.
  rewrite !Cconj_mul, Cconj_RtoC, !Cconj_root_pow.
  rewrite !root_opposite by auto. reflexivity.
Qed.

Lemma shift_roundtrip (n k : nat) :
  (k < n)%nat -> (((k + n / 2) mod n + (n - n / 2)) mod n = k)%nat.
Proof.
  intros Hk.
  assert (Hd : (n / 2 < n)%nat) by (apply Nat.div_lt; lia).
  rewrite Nat.Div0.add_mod_idemp_l.
  replace (k + n / 2 + (n - n / 2))%nat with (k + 1 * n)%nat by lia.
  rewrite Nat.Div0.mod_add. apply Nat.mod_small; auto.
Qed.

(** The signed frequency of a shifted index, up to sign, is that of the
    opposite frequency. *)
Lemma shifted_offset_opposite (n k : nat) :
  (k < n)%nat ->
  Z.abs (Z.of_nat ((opposite n k + n / 2) mod n) - Z.of_nat n / 2)
  = Z.abs (Z.of_nat ((k + n / 2) mod n) - Z.of_nat n / 2).
Proof.
  intros Hk.
  assert (Hd : (n / 2 < n)%nat) by (apply Nat.div_lt; lia).
  assert (Hc : Z.of_nat (n / 2) = (Z.of_nat n / 2)%Z)
    by (rewrite Nat2Z.inj_div; reflexivity).
  assert (H2 : (2 * (n / 2) <= n < 2 * (n / 2) + 2)%nat).
  { pose proof (Nat.div_mod_eq n 2). pose proof (Nat.mod_upper_bound n 2).
    lia. }
  assert (Hshift : forall j, (j < n)%nat ->
            ((j + n / 2) mod n
             = if (j + n / 2 <? n)%nat then j + n / 2 else j + n / 2 - n)%nat).
  { intros j Hj. destruct (Nat.ltb_spec (j + n / 2) n) as [Hlt|Hge].
    - apply Nat.mod_small; auto.
    - replace (j + n / 2)%nat with ((j + n / 2 - n) + 1 * n)%nat at 1 by lia.
      rewrite Nat.Div0.mod_add. apply Nat.mod_small; lia. }
  rewrite (Hshift k Hk), (Hshift (opposite n k)) by (apply opposite_lt; lia).
  rewrite <- Hc.
  destruct (opposite_cases n k Hk) as [[-> ->]|[Hpos ->]]; [reflexivity|].
  destruct (Nat.ltb_spec (n - k + n / 2) n);
    destruct (Nat.ltb_spec (k + n / 2) n); lia.
Qed.

Lemma line_gain_abs (n n' : nat) (lw : Z) (att : R) (i i' : nat) :
  Z.abs (Z.of_nat i - Z.of_nat n / 2) = Z.abs (Z.of_nat i' - Z.of_nat n' / 2) ->
  line_gain n lw att i = line_gain n' lw att i'.
Proof.
  intros E. unfold line_gain, band_reduction. cbv zeta. rewrite E.
  reflexivity.
Qed.

(** The line mask takes the same value at a frequency and at the opposite
    frequency. *)
Lemma lines_mask_opposite (h w : nat) (lw pc : Z) (att : R) (k l : nat) :
  (k < h)%nat -> (l < w)%nat ->
  get 0%R (lines_mask h w lw pc att)
      ((opposite h k + h / 2) mod h) ((opposite w l + w / 2) mod w)
  = get 0%R (lines_mask h w lw pc att) ((k + h / 2) mod h) ((l + w / 2) mod w).
Proof.
  intros Hk Hl.
  assert (B1 : ((opposite h k + h / 2) mod h < h)%nat)
    by (apply Nat.mod_upper_bound; lia).
  assert (B2 : ((opposite w l + w / 2) mod w < w)%nat)
    by (apply Nat.mod_upper_bound; lia).
  assert (B3 : ((k + h / 2) mod h < h)%nat)
    by (apply Nat.mod_upper_bound; lia).
  assert (B4 : ((l + w / 2) mod w < w)%nat)
    by (apply Nat.mod_upper_bound; lia).
  pose proof (shifted_offset_opposite h k Hk) as Ey.
  pose proof (shifted_offset_opposite w l Hl) as Ex.
  rewrite !lines_mask_gains, !get_center_disc by auto.
  rewrite (line_gain_abs h h lw att _ _ Ey), (line_gain_abs w w lw att _ _ Ex).
  set (dy' := (Z.of_nat ((opposite h k + h / 2) mod h) - Z.of_nat h / 2)%Z) in *.
  set (dx' := (Z.of_nat ((opposite w l + w / 2) mod w) - Z.of_nat w / 2)%Z) in *.
  set (dy := (Z.of_nat ((k + h / 2) mod h) - Z.of_nat h / 2)%Z) in *.
  set (dx := (Z.of_nat ((l + w / 2) mod w) - Z.of_nat w / 2)%Z) in *.
  replace (dy' ^ 2 + dx' ^ 2)%Z with (dy ^ 2 + dx ^ 2)%Z; [reflexivity|].
  rewrite !Z.pow_2_r.
  rewrite <- (Z.abs_square dy), <- (Z.abs_square dx),
          <- (Z.abs_square dy'), <- (Z.abs_square dx').
  rewrite Ey, Ex. reflexivity.
Qed.

(** The inverse transform of the spectrum of a real channel, masked by a
    mask that agrees at opposite frequencies, is real. *)
Lemma masked_inverse_real (h w : nat) (x : grid R) (spectrum : grid C)
  (mask : grid R) :
  is_grid h w x -> (0 < h)%nat -> (0 < w)%nat ->
  forward x = Ok spectrum -> is_grid h w mask ->
  (forall k l, (k < h)%nat -> (l < w)%nat ->
     get 0%R mask ((opposite h k + h / 2) mod h) ((opposite w l + w / 2) mod w)
     = get 0%R mask ((k + h / 2) mod h) ((l + w / 2) mod w)) ->
  exists img_back,
    ifft2 (ifftshift (apply_mask spectrum mask)) = Ok img_back
    /\ is_grid h w img_back
    /\ forall m n, (m < h)%nat -> (n < w)%nat ->
         Cim (get C0 img_back m n) = 0%R.
Proof.
  intros Hx Hh Hw Es Hm Hsym.
  destruct (forward_bins h w x Hx Hh Hw) as (s & Es' & Hs & Hbin).
  rewrite Es in Es'; inversion Es'; subst s.
  set (X := fun k l => fft2_entry h w (map (map RtoC) x) k l).
  set (M := fun k l => get 0%R mask ((k + h / 2) mod h) ((l + w / 2) mod w)).
  set (G := ifftshift (apply_mask spectrum mask)).
  assert (HG : is_grid h w G)
    by (apply is_grid_ifftshift, is_grid_apply_mask; auto).
  assert (EG : forall k l, (k < h)%nat -> (l < w)%nat ->
            get C0 G k l = Cmul (X k l) (RtoC (M k l))).
  { intros k l Hk Hl. unfold G.
    assert (Hk' : ((k + h / 2) mod h < h)%nat)
      by (apply Nat.mod_upper_bound; lia).
    assert (Hl' : ((l + w / 2) mod w < w)%nat)
      by (apply Nat.mod_upper_bound; lia).
    rewrite (get_ifftshift C0 h w) by auto using is_grid_apply_mask.
    rewrite (get_apply_mask h w) by auto.
    rewrite Hbin by auto. rewrite !shift_roundtrip by auto. reflexivity. }
  rewrite (ifft2_ok h w) by auto.
  eexists; split; [reflexivity | split; [apply is_grid_map_seq|]].
  intros m n Hm' Hn'.
  rewrite (get_map_seq C0 h w (fun m n => ifft2_entry h w G m n)) by auto.
  assert (Econj : Cconj (ifft2_entry h w G m n) = ifft2_entry h w G m n).
  { unfold ifft2_entry, Cdiv.
    rewrite Cconj_mul, Cconj_inv_real. f_equal.
    rewrite Cconj_Csum.
    rewrite <- (Csum_opposite h
                  (fun k => Csum w (fun l =>
                     Cmul (get C0 G k l)
                          (Cmul (Cpow (iroot h) (m * k))
                                (Cpow (iroot w) (n * l)))))).
    apply Csum_ext; intros k Hk.
    rewrite Cconj_Csum.
    rewrite <- (Csum_opposite w
                  (fun l =>
                     Cmul (get C0 G (opposite h k) l)
                          (Cmul (Cpow (iroot h) (m * opposite h k))
                                (Cpow (iroot w) (n * l))))).
    apply Csum_ext; intros l Hl.
    rewrite !EG by auto using opposite_lt.
    rewrite !Cconj_mul, Cconj_RtoC, !Cconj_iroot_pow.
    rewrite !iroot_opposite by auto.
    unfold X. rewrite fft2_entry_conj by auto.
    unfold M. rewrite Hsym by auto. reflexivity. }
  set (z := ifft2_entry h w G m n) in *.
  apply (f_equal snd) in Econj. unfold Cconj in Econj; cbn [snd] in Econj.
  unfold Cim. lra.
Qed.

(** X23: In the line filter, taking the real part of the inverse
    transform discards nothing: the mask takes equal values at opposite
    frequencies, so the inverse transform of the masked spectrum of a real
    channel has imaginary part exactly 0 at every sample (in exact
    arithmetic), for every configuration. *)
Theorem fft_filter_channel_lines_real (h w : nat) (channel : grid R)
  (line_width protect_center : Z) (attenuation : R) :
  is_grid h w channel -> (0 < h)%nat -> (0 < w)%nat ->
  exists spectrum img_back,
    forward channel = Ok spectrum
    /\ ifft2 (ifftshift
               (apply_mask spectrum
                  (lines_mask h w line_width protect_center attenuation)))
       = Ok img_back
    /\ is_grid h w img_back
    /\ (forall m n, (m < h)%nat -> (n < w)%nat ->
          Cim (get C0 img_back m n) = 0%R)
    /\ fft_filter_channel_lines channel line_width protect_center attenuation
       = Ok (map (map Cre) img_back).
Proof.
  intros Hc Hh Hw.
  destruct (forward_centre h w channel Hc Hh Hw) as (s & Es & Hs & _).
  destruct (masked_inverse_real h w channel s
              (lines_mask h w line_width protect_center attenuation))
    as (img_back & Ei & Hi & Him); auto using is_grid_lines_mask.
  { intros k l Hk Hl. apply lines_mask_opposite; auto. }
  exists s, img_back.
  split; [exact Es | split; [exact Ei | split; [exact Hi | split; [exact Him|]]]].
  unfold fft_filter_channel_lines. rewrite Es; cbn [bind].
  rewrite (is_grid_height h w _ Hc), (is_grid_width h w _ Hc Hh).
  unfold inverse. rewrite Ei. reflexivity.
Qed.

Lemma fft_filter_channel_lines_real_witness :
  exists spectrum img_back,
    forward [[1; 2]; [3; 4]]%R = Ok spectrum
    /\ ifft2 (ifftshift (apply_mask spectrum (lines_mask 2 2 1 0 (1 / 2)%R)))
       = Ok img_back
    /\ Cim (get C0 img_back 1 0) = 0%R.
Proof.
  destruct (fft_filter_channel_lines_real 2 2 [[1; 2]; [3; 4]]%R 1 0 (1 / 2))
    as (s & img_back & Es & Ei & _ & Him & _).
  - split; [reflexivity | repeat constructor].
  - lia.
  - lia.
  - exists s, img_back. split; [exact Es | split; [exact Ei|]].
    apply Him; lia.
Defined.

(** ** Images inside the protected disc, and empty images *)

(** When the protected disc reaches the corner (0, 0) it covers the whole
    spectrum. *)
Lemma center_disc_covers (h w : nat) (pc : Z) (y x : nat) :
  ((Z.of_nat h / 2) ^ 2 + (Z.of_nat w / 2) ^ 2 <= pc ^ 2)%Z ->
  (y < h)%nat -> (x < w)%nat ->
  get false (center_disc h w pc) y x = true.
Proof.
  intros Hpc Hy Hx. rewrite get_center_disc by auto. apply Z.leb_le.
  assert (Hh : (0 <= Z.of_nat h / 2 /\ Z.of_nat h <= 2 * (Z.of_nat h / 2) + 1)%Z).
  { pose proof (Z.div_mod (Z.of_nat h) 2).
    pose proof (Z.mod_pos_bound (Z.of_nat h) 2).
    split; [apply Z.div_pos|]; lia. }
  assert (Hw : (0 <= Z.of_nat w / 2 /\ Z.of_nat w <= 2 * (Z.of_nat w / 2) + 1)%Z).
  { pose proof (Z.div_mod (Z.of_nat w) 2).
    pose proof (Z.mod_pos_bound (Z.of_nat w) 2).
    split; [apply Z.div_pos|]; lia. }
  set (cy := (Z.of_nat h / 2)%Z) in *. set (cx := (Z.of_nat w / 2)%Z) in *.
  assert (Ey : ((Z.of_nat y - cy) ^ 2 <= cy ^ 2)%Z).
  { rewrite !Z.pow_2_r, <- Z.abs_square.
    apply Z.square_le_mono_nonneg; lia. }
  assert (Ex : ((Z.of_nat x - cx) ^ 2 <= cx ^ 2)%Z).
  { rewrite !Z.pow_2_r, <- Z.abs_square.
    apply Z.square_le_mono_nonneg; lia. }
  lia.
Qed.

(** X24: An image small enough for the protected disc to cover its whole
    spectrum ([(h // 2)^2 + (w // 2)^2 <= protect_center^2]) passes
    [fft_remove_pattern] unchanged under both policies (with a percentile
    in [0, 100] for the peak policy): every bin is protected. *)
Theorem fft_remove_pattern_small_image (img : image R) (h w c : nat)
  (threshold_percentile : R) (notch_radius protect_center : Z)
  (method : string) (line_width : Z) (attenuation : R) :
  image_shape h w c img -> (0 < h)%nat -> (0 < w)%nat ->
  method = "lines"%string \/ (0 <= threshold_percentile <= 100)%R ->
  ((Z.of_nat h / 2) ^ 2 + (Z.of_nat w / 2) ^ 2 <= protect_center ^ 2)%Z ->
  fft_remove_pattern img threshold_percentile notch_radius protect_center
                     method line_width attenuation
  = Ok img.
Proof.
  intros Hs Hh Hw Hcfg Hpc.
  apply (fft_remove_pattern_unchanged img h w c); auto.
  intros ch Hch. unfold filter_channel.
  destruct (String.eqb_spec method "lines") as [Em|Em].
  - destruct (forward_centre h w ch Hch Hh Hw) as (s & Es & Hgs & _).
    unfold fft_filter_channel_lines. rewrite Es; cbn [bind].
    rewrite (is_grid_height h w _ Hch), (is_grid_width h w _ Hch Hh).
    apply (masked_identity h w); auto using is_grid_lines_mask.
    intros i j Hi Hj. rewrite lines_mask_gains by auto.
    rewrite center_disc_covers by auto. reflexivity.
  - destruct Hcfg as [Hm|Hq]; [contradiction|].
    destruct (fft_filter_channel_steps h w ch threshold_percentile
                notch_radius protect_center Hch Hh Hw Hq)
      as (s & mask & Es & Hgs & Emask & Hm & ->).
    apply (masked_identity h w); auto.
    intros i j Hi Hj. change 1%R with (@n1 R Num_R).
    apply (peaks_mask_far 0%R h w (map (map Cabs) s) threshold_percentile
             notch_radius protect_center mask); auto using is_grid_map.
    intros t [py px] Hin. exfalso.
    apply (in_peaks h w) in Hin as (Hpy & Hpx & Hd & _);
      auto using is_grid_map.
    rewrite center_disc_covers in Hd by auto. discriminate.
Qed.

Lemma fft_remove_pattern_small_image_witness :
  fft_remove_pattern (Gray [[1; 2]; [3; 4]]%R) (995 / 10) 5 20 "peaks" 2
                     (99 / 100)
  = Ok (Gray [[1; 2]; [3; 4]]%R).
Proof.
  apply (fft_remove_pattern_small_image _ 2 2 1); try lia.
  - split; [reflexivity | repeat constructor].
  - right; lra.
  - vm_compute; discriminate.
Defined.

(** X25: A 2-D image with an empty axis is rejected by the transform:
    [fft_remove_pattern] raises under both policies, whatever the
    configuration. *)
Theorem fft_remove_pattern_empty_raises (a : grid R) (h w : nat)
  (threshold_percentile : R) (notch_radius protect_center : Z)
  (method : string) (line_width : Z) (attenuation : R) :
  is_grid h w a -> h = 0%nat \/ w = 0%nat ->
  fft_remove_pattern (Gray a) threshold_percentile notch_radius
                     protect_center method line_width attenuation
  = Err InvalidFFTSize.
Proof.
  intros Ha He.
  assert (Ef : forward a = Err InvalidFFTSize).
  { unfold forward, fft2.
    assert (Hz : ((height (map (map RtoC) a) =? 0)
                  || (width (map (map RtoC) a) =? 0))%nat = true).
    { destruct Ha as [Hlen Hrows]. unfold height, width.
      rewrite length_map, Hlen.
      destruct (Nat.eqb_spec h 0) as [|Hh]; [reflexivity|].
      destruct He as [He|He]; [contradiction|]. subst w. cbn [orb].
      destruct a as [|r a']; [reflexivity|].
      inversion Hrows as [|? ? Hr _]; subst.
      cbn [map hd]. rewrite length_map, Hr. reflexivity. }
    rewrite Hz. reflexivity. }
  unfold fft_remove_pattern, filter_channel.
  destruct (method =? "lines")%string;
    unfold fft_filter_channel_lines, fft_filter_channel;
    rewrite Ef; reflexivity.
Qed.

Lemma fft_remove_pattern_empty_raises_witness :
  fft_remove_pattern (Gray [[]; []]) 50 3 15 "lines" 2 (99 / 100)
  = Err InvalidFFTSize.
Proof.
  apply (fft_remove_pattern_empty_raises _ 2 0).
  - split; [reflexivity | repeat constructor].
  - right; reflexivity.
Defined.

(** ** C6: the bins of the returned image *)

(** *** Opposite bins of the shifted spectrum *)

Lemma mod_cases (a n : nat) :
  (0 < n)%nat -> (a < 2 * n)%nat ->
  (a mod n = if (a <? n)%nat then a else a - n)%nat.
Proof.
  intros Hn Ha. destruct (Nat.ltb_spec a n) as [Hlt|Hge].
  - apply Nat.mod_small; auto.
  - replace a with ((a - n) + 1 * n)%nat at 1 by lia.
    rewrite Nat.Div0.mod_add. apply Nat.mod_small; lia.
Qed.

Lemma half_bounds (n : nat) : (2 * (n / 2) <= n < 2 * (n / 2) + 2)%nat.
Proof.
  pose proof (Nat.div_mod_eq n 2). pose proof (Nat.mod_upper_bound n 2). lia.
Qed.

Lemma opposite_bin_lt (n i : nat) : (0 < n)%nat -> (opposite_bin n i < n)%nat.
Proof. intros; apply Nat.mod_upper_bound; lia. Qed.

(** The opposite bin is the shifted index of the opposite frequency. *)
Lemma opposite_bin_shift (n i : nat) :
  (i < n)%nat ->
  opposite_bin n i
  = ((opposite n ((i + (n - n / 2)) mod n) + n / 2) mod n)%nat.
Proof.
  intros Hi. pose proof (half_bounds n) as Hc.
  unfold opposite_bin, opposite.
  rewrite (mod_cases (i + (n - n / 2)) n) by lia.
  destruct (Nat.ltb_spec (i + (n - n / 2)) n) as [H1|H1].
  - rewrite (mod_cases (n - (i + (n - n / 2))) n) by lia.
    destruct (Nat.ltb_spec (n - (i + (n - n / 2))) n) as [H2|H2]; [|lia].
    rewrite (mod_cases (n - (i + (n - n / 2)) + n / 2) n) by lia.
    rewrite (mod_cases (2 * (n / 2) - i) n) by lia.
    destruct (Nat.ltb_spec (n - (i + (n - n / 2)) + n / 2) n);
      destruct (Nat.ltb_spec (2 * (n / 2) - i) n); lia.
  - rewrite (mod_cases (n - (i + (n - n / 2) - n)) n) by lia.
    destruct (Nat.ltb_spec (n - (i + (n - n / 2) - n)) n) as [H2|H2].
    + rewrite (mod_cases (n - (i + (n - n / 2) - n) + n / 2) n) by lia.
      rewrite (mod_cases (2 * (n / 2) - i) n) by lia.
      destruct (Nat.ltb_spec (n - (i + (n - n / 2) - n) + n / 2) n);
        destruct (Nat.ltb_spec (2 * (n / 2) - i) n); lia.
    + rewrite (mod_cases (n - (i + (n - n / 2) - n) - n + n / 2) n) by lia.
      rewrite (mod_cases (2 * (n / 2) - i) n) by lia.
      destruct (Nat.ltb_spec (n - (i + (n - n / 2) - n) - n + n / 2) n);
        destruct (Nat.ltb_spec (2 * (n / 2) - i) n); lia.
Qed.

Lemma shift_unshift (n i : nat) :
  (i < n)%nat -> (((i + (n - n / 2)) mod n + n / 2) mod n = i)%nat.
Proof.
  intros Hi. pose proof (half_bounds n) as Hc.
  rewrite Nat.Div0.add_mod_idemp_l.
  replace (i + (n - n / 2) + n / 2)%nat with (i + 1 * n)%nat by lia.
  rewrite Nat.Div0.mod_add. apply Nat.mod_small; auto.
Qed.

Lemma unshift_opposite_bin (n i : nat) :
  (i < n)%nat ->
  ((opposite_bin n i + (n - n / 2)) mod n
   = opposite n ((i + (n - n / 2)) mod n))%nat.
Proof.
  intros Hi. rewrite opposite_bin_shift by auto.
  apply shift_roundtrip. apply opposite_lt; lia.
Qed.

(** A bin and its opposite are at the same distance from the centre. *)
Lemma opposite_bin_offset (n i : nat) :
  (i < n)%nat ->
  Z.abs (Z.of_nat (opposite_bin n i) - Z.of_nat n / 2)
  = Z.abs (Z.of_nat i - Z.of_nat n / 2).
Proof.
  intros Hi.
  assert (Hk : ((i + (n - n / 2)) mod n < n)%nat)
    by (apply Nat.mod_upper_bound; lia).
  pose proof (shifted_offset_opposite n _ Hk) as E.
  rewrite <- opposite_bin_shift, shift_unshift in E by auto. exact E.
Qed.

(** *** The transform of the inverse transform *)

Lemma iroot_orthogonal (n p q : nat) :
  (p < n)%nat -> (q < n)%nat ->
  Csum n (fun m => Cmul (Cpow (iroot n) (m * p)) (Cpow (root n) (m * q)))
  = if (p =? q)%nat then RtoC (INR n) else C0.
Proof.
  intros Hp Hq. rewrite (Nat.eqb_sym p q).
  rewrite <- (root_orthogonal n q p) by auto.
  apply Csum_ext; intros m _.
  rewrite (Nat.mul_comm m p), (Nat.mul_comm m q). ring.
Qed.

Lemma fft2_ifft2 (h w : nat) (X : grid C) :
  is_grid h w X -> (0 < h)%nat -> (0 < w)%nat ->
  fft2 (map (fun m => map (fun n => ifft2_entry h w X m n) (seq 0 w))
            (seq 0 h))
  = Ok X.
Proof.
  intros HX Hh Hw.
  rewrite (fft2_ok h w) by (auto; apply is_grid_map_seq). f_equal.
  apply (grid_ext C0 h w); auto; [apply is_grid_map_seq|].
  intros k' l' Hk' Hl'.
  rewrite (get_map_seq C0 h w (fun k l => fft2_entry h w _ k l)) by auto.
  unfold fft2_entry.
  rewrite (Csum_ext h _
             (fun m => Cmul
                (Csum w (fun n =>
                   Cmul (Csum h (fun k => Csum w (fun l =>
                           Cmul (get C0 X k l)
                                (Cmul (Cpow (iroot h) (m * k))
                                      (Cpow (iroot w) (n * l))))))
                        (Cmul (Cpow (root h) (m * k'))
                              (Cpow (root w) (n * l')))))
                (Cinv (RtoC (INR (h * w)))))).
  2:{ intros m Hm. rewrite Csum_mul_r. apply Csum_ext; intros n Hn.
      rewrite (get_map_seq C0 h w (fun m n => ifft2_entry h w X m n)) by auto.
      unfold ifft2_entry, Cdiv. ring. }
  rewrite <- Csum_mul_r.
  rewrite (Csum_separate h w (fun k l => get C0 X k l)
             (fun k m => Cpow (iroot h) (m * k))
             (fun l n => Cpow (iroot w) (n * l))
             (fun m => Cpow (root h) (m * k'))
             (fun n => Cpow (root w) (n * l'))).
  rewrite (Csum_single h k').
  - rewrite (Csum_single w l').
    + rewrite !iroot_orthogonal, !Nat.eqb_refl by auto.
      rewrite mult_INR, RtoC_mul.
      field. split; apply RtoC_INR_nonzero; auto.
    + auto.
    + intros l Hl Hne.
      rewrite (iroot_orthogonal w l l') by auto.
      replace (l =? l')%nat with false by (symmetry; apply Nat.eqb_neq; auto).
      ring.
  - auto.
  - intros k Hk Hne.
    rewrite (Csum_ext w _ (fun _ => C0)); [apply Csum_zero|].
    intros l Hl.
    rewrite (iroot_orthogonal h k k') by auto.
    replace (k =? k')%nat with false by (symmetry; apply Nat.eqb_neq; auto).
    ring.
Qed.

(** *** The real part of an inverse transform *)

Lemma Cconj_involutive (z : C) : Cconj (Cconj z) = z.
Proof. apply C_eq; unfold Cconj; simpl; ring. Qed.

Lemma Cabs_conj (z : C) : Cabs (Cconj z) = Cabs z.
Proof. unfold Cabs, Cconj; simpl. f_equal. ring. Qed.

Lemma RtoC_Cre (z : C) :
  RtoC (Cre z) = Cmul (RtoC (1 / 2)) (Cadd z (Cconj z)).
Proof.
  apply C_eq; unfold RtoC, Cre, Cmul, Cadd, Cconj; simpl; field.
Qed.

(** The conjugate of an inverse transform is the inverse transform of the
    conjugates taken at the opposite frequencies. *)
Lemma ifft2_entry_conj (h w : nat) (G : grid C) (m n : nat) :
  (0 < h)%nat -> (0 < w)%nat ->
  Cconj (ifft2_entry h w G m n)
  = ifft2_entry h w
      (map (fun k =>
              map (fun l => Cconj (get C0 G (opposite h k) (opposite w l)))
                  (seq 0 w))
           (seq 0 h)) m n.
Proof.
  intros Hh Hw. unfold ifft2_entry, Cdiv.
  rewrite Cconj_mul, Cconj_inv_real. f_equal.
  rewrite Cconj_Csum.
  rewrite <- (Csum_opposite h
                (fun k => Cconj (Csum w (fun l =>
                   Cmul (get C0 G k l)
                        (Cmul (Cpow (iroot h) (m * k))
                              (Cpow (iroot w) (n * l))))))).
  apply Csum_ext; intros k Hk.
  rewrite Cconj_Csum.
  rewrite <- (Csum_opposite w
                (fun l => Cconj
                   (Cmul (get C0 G (opposite h k) l)
                         (Cmul (Cpow (iroot h) (m * opposite h k))
                               (Cpow (iroot w) (n * l)))))).
  apply Csum_ext; intros l Hl.
  rewrite (get_map_seq C0 h w
             (fun k l => Cconj (get C0 G (opposite h k) (opposite w l))))
    by auto.
  rewrite !Cconj_mul, !Cconj_iroot_pow.
  rewrite !root_opposite by auto. reflexivity.
Qed.

(** What [np.real] does to the spectrum: the transform of the real part of
    an inverse transform is the half-sum of each bin and the conjugate of
    the opposite bin. *)
Lemma inverse_spectrum (h w : nat) (F : grid C) :
  is_grid h w F -> (0 < h)%nat -> (0 < w)%nat ->
  exists out S,
    inverse F = Ok out
    /\ is_grid h w out
    /\ forward out = Ok S
    /\ is_grid h w S
    /\ forall i j, (i < h)%nat -> (j < w)%nat ->
         get C0 S i j
         = Cmul (RtoC (1 / 2))
                (Cadd (get C0 F i j)
                      (Cconj (get C0 F (opposite_bin h i)
                                       (opposite_bin w j)))).
Proof.
  intros HF Hh Hw.
  set (G := ifftshift F).
  assert (HG : is_grid h w G) by (apply is_grid_ifftshift; auto).
  set (H := map (fun k =>
                   map (fun l =>
                          Cmul (RtoC (1 / 2))
                               (Cadd (get C0 G k l)
                                     (Cconj (get C0 G (opposite h k)
                                                      (opposite w l)))))
                       (seq 0 w))
                (seq 0 h)).
  assert (HH : is_grid h w H) by apply is_grid_map_seq.
  set (Y := map (fun m => map (fun n => ifft2_entry h w G m n) (seq 0 w))
                (seq 0 h)).
  assert (HY : is_grid h w Y) by apply is_grid_map_seq.
  assert (Eout : map (map RtoC) (map (map Cre) Y)
                 = map (fun m => map (fun n => ifft2_entry h w H m n) (seq 0 w))
                       (seq 0 h)).
  { apply (grid_ext C0 h w).
    - apply is_grid_map, is_grid_map; auto.
    - apply is_grid_map_seq.
    - intros m n Hm Hn.
      rewrite (get_map RtoC 0%R C0 h w) by (auto; apply is_grid_map; auto).
      rewrite (get_map Cre C0 0%R h w) by auto.
      unfold Y at 1.
      rewrite !(get_map_seq C0 h w (fun m n => ifft2_entry h w _ m n)) by auto.
      rewrite RtoC_Cre, ifft2_entry_conj by auto.
      unfold ifft2_entry, Cdiv.
      match goal with
      | |- Cmul ?a (Cadd (Cmul (Csum h ?F1) ?c) (Cmul (Csum h ?F2) ?c))
           = Cmul (Csum h ?F3) ?c =>
          assert (Es : Csum h F3
                       = Cmul a (Cadd (Csum h F1) (Csum h F2)));
            [|rewrite Es; ring]
      end.
      rewrite <- Csum_add, Csum_mul_l. apply Csum_ext; intros k Hk.
      rewrite <- Csum_add, Csum_mul_l. apply Csum_ext; intros l Hl.
      unfold H.
      rewrite !(get_map_seq C0 h w) by auto.
      ring. }
  exists (map (map Cre) Y). eexists.
  split; [unfold inverse; fold G; rewrite (ifft2_ok h w) by auto; reflexivity|].
  split; [apply is_grid_map; auto|].
  split; [unfold forward; rewrite Eout, (fft2_ifft2 h w H) by auto;
          reflexivity|].
  split; [apply is_grid_fftshift; auto|].
  intros i j Hi Hj.
  assert (Hui : ((i + (h - h / 2)) mod h < h)%nat)
    by (apply Nat.mod_upper_bound; lia).
  assert (Huj : ((j + (w - w / 2)) mod w < w)%nat)
    by (apply Nat.mod_upper_bound; lia).
  rewrite (get_fftshift C0 h w) by auto.
  unfold H. rewrite (get_map_seq C0 h w) by auto.
  unfold G.
  rewrite !(get_ifftshift C0 h w) by auto using opposite_lt.
  rewrite !shift_unshift by auto.
  rewrite <- !opposite_bin_shift by auto. reflexivity.
Qed.

(** *** The spectrum of a real channel and its peaks at opposite bins *)

Lemma forward_hermitian (h w : nat) (x : grid R) (s : grid C) (i j : nat) :
  is_grid h w x -> (0 < h)%nat -> (0 < w)%nat -> forward x = Ok s ->
  (i < h)%nat -> (j < w)%nat ->
  get C0 s (opposite_bin h i) (opposite_bin w j) = Cconj (get C0 s i j).
Proof.
  intros Hx Hh Hw Es Hi Hj.
  destruct (forward_bins h w x Hx Hh Hw) as (s' & Es' & _ & Hbin).
  rewrite Es in Es'; inversion Es'; subst s'.
  assert (Hui : ((i + (h - h / 2)) mod h < h)%nat)
    by (apply Nat.mod_upper_bound; lia).
  assert (Huj : ((j + (w - w / 2)) mod w < w)%nat)
    by (apply Nat.mod_upper_bound; lia).
  rewrite !Hbin by auto using opposite_bin_lt.
  rewrite !unshift_opposite_bin by auto.
  symmetry. apply fft2_entry_conj; auto.
Qed.

Lemma center_disc_opposite (h w : nat) (pc : Z) (y x : nat) :
  (y < h)%nat -> (x < w)%nat ->
  get false (center_disc h w pc) (opposite_bin h y) (opposite_bin w x)
  = get false (center_disc h w pc) y x.
Proof.
  intros Hy Hx.
  rewrite !get_center_disc by (auto; apply opposite_bin_lt; lia).
  pose proof (opposite_bin_offset h y Hy) as Ey.
  pose proof (opposite_bin_offset w x Hx) as Ex.
  set (dy' := (Z.of_nat (opposite_bin h y) - Z.of_nat h / 2)%Z) in *.
  set (dx' := (Z.of_nat (opposite_bin w x) - Z.of_nat w / 2)%Z) in *.
  set (dy := (Z.of_nat y - Z.of_nat h / 2)%Z) in *.
  set (dx := (Z.of_nat x - Z.of_nat w / 2)%Z) in *.
  replace (dy' ^ 2 + dx' ^ 2)%Z with (dy ^ 2 + dx ^ 2)%Z; [reflexivity|].
  rewrite !Z.pow_2_r.
  rewrite <- (Z.abs_square dy), <- (Z.abs_square dx),
          <- (Z.abs_square dy'), <- (Z.abs_square dx').
  rewrite Ey, Ex. reflexivity.
Qed.

(** The opposite of a detected peak is a detected peak. *)
Lemma peaks_opposite (h w : nat) (x : grid R) (s : grid C) (t : R) (pc : Z)
  (py px : nat) :
  is_grid h w x -> (0 < h)%nat -> (0 < w)%nat -> forward x = Ok s ->
  is_grid h w s ->
  In (py, px) (where_true (peaks_of (map (map Cabs) s) t pc)) ->
  In (opposite_bin h py, opposite_bin w px)
     (where_true (peaks_of (map (map Cabs) s) t pc)).
Proof.
  intros Hx Hh Hw Es Hs Hin.
  assert (Hm : is_grid h w (map (map Cabs) s)) by (apply is_grid_map; auto).
  apply (in_peaks h w) in Hin as (Hy & Hx' & Hd & Ht); auto.
  apply (in_peaks h w); auto.
  split; [apply opposite_bin_lt; auto|].
  split; [apply opposite_bin_lt; auto|].
  split; [rewrite center_disc_opposite; auto|].
  rewrite (get_map Cabs C0 _ h w) in * by (auto using opposite_bin_lt).
  rewrite (forward_hermitian h w x s) by auto.
  rewrite Cabs_conj. exact Ht.
Qed.

(** The spectrum of the image that the peak filter returns. *)
Lemma returned_spectrum (h w : nat) (x : grid R) (s : grid C) (mask : grid R) :
  is_grid h w x -> (0 < h)%nat -> (0 < w)%nat -> forward x = Ok s ->
  is_grid h w s -> is_grid h w mask ->
  exists out returned,
    inverse (apply_mask s mask) = Ok out
    /\ is_grid h w out
    /\ forward out = Ok returned
    /\ is_grid h w returned
    /\ forall i j, (i < h)%nat -> (j < w)%nat ->
         get C0 returned i j
         = Cmul (get C0 s i j)
                (RtoC ((get 0%R mask i j
                        + get 0%R mask (opposite_bin h i) (opposite_bin w j))
                       / 2)).
Proof.
  intros Hx Hh Hw Es Hs Hm.
  destruct (inverse_spectrum h w (apply_mask s mask))
    as (out & S & Eo & Ho & ES & HS & Hbin); auto using is_grid_apply_mask.
  exists out, S. do 4 (split; [assumption|]).
  intros i j Hi Hj. rewrite Hbin by auto.
  rewrite !(get_apply_mask h w) by auto using opposite_bin_lt.
  rewrite (forward_hermitian h w x s) by auto.
  rewrite Cconj_mul, Cconj_involutive, Cconj_RtoC.
  apply C_eq; unfold Cmul, Cadd, RtoC; simpl; field.
Qed.

(** C6 (amended): in the peak-notch policy with [notch_radius = r > 0] and
    a percentile in [0, 100], the mask value at each bin [b] is the product,
    over the detected peaks [p] with [d(b, p) <= r], each listed once, of
    [(d(b, p) / r)^2] (0 for [d(b, p) = 0]); a bin farther than [r] from
    every peak has mask value exactly 1 and is left unchanged by the
    multiplication [f_shift * mask], and a peak bin has mask value 0 and is
    zeroed by it.  In the image that is returned, the real part of the
    inverse transform, the spectrum at bin [b] is the original value times
    the mean of the mask values at [b] and at the bin of the opposite
    frequency: a peak bin is fully suppressed (the opposite of a peak is a
    peak), and a bin farther than [r] from every peak is unchanged when its
    opposite bin is farther than [r] from every peak too. *)
Theorem notch_filter_bins (h w : nat) (channel : grid R)
  (threshold_percentile : R) (notch_radius protect_center : Z) :
  is_grid h w channel -> (0 < h)%nat -> (0 < w)%nat ->
  (0 < notch_radius)%Z -> (0 <= threshold_percentile <= 100)%R ->
  exists spectrum threshold mask out returned,
    forward channel = Ok spectrum
    /\ threshold_of (map (map Cabs) spectrum) threshold_percentile
                    protect_center
       = Ok threshold
    /\ peaks_mask (map (map Cabs) spectrum) threshold_percentile notch_radius
                  protect_center
       = Ok mask
    /\ is_grid h w mask
    /\ fft_filter_channel channel threshold_percentile notch_radius
                          protect_center
       = Ok out
    /\ is_grid h w out
    /\ forward out = Ok returned
    /\ let peaks :=
         where_true (peaks_of (map (map Cabs) spectrum) threshold
                              protect_center) in
       NoDup peaks
       /\ forall y x, (y < h)%nat -> (x < w)%nat ->
            get 0%R mask y x
            = fold_left Rmult
                (map (fun p => notch_ratio notch_radius p y x)
                     (filter (fun p => within notch_radius p y x) peaks))
                1%R
            /\ (far_from_peaks notch_radius peaks y x ->
                get 0%R mask y x = 1%R
                /\ get C0 (apply_mask spectrum mask) y x
                   = get C0 spectrum y x)
            /\ (In (y, x) peaks ->
                get 0%R mask y x = 0%R
                /\ get C0 (apply_mask spectrum mask) y x = C0)
            /\ get C0 returned y x
               = Cmul (get C0 spectrum y x)
                      (RtoC ((get 0%R mask y x
                              + get 0%R mask (opposite_bin h y)
                                             (opposite_bin w x))
                             / 2))
            /\ (In (y, x) peaks -> get C0 returned y x = C0)
            /\ (far_from_peaks notch_radius peaks y x ->
                far_from_peaks notch_radius peaks
                               (opposite_bin h y) (opposite_bin w x) ->
                get C0 returned y x = get C0 spectrum y x).
Proof.
  intros Hc Hh Hw Hr Hq.
  destruct (forward_centre h w channel Hc Hh Hw) as (s & Es & Hs & _).
  set (magnitude := map (map Cabs) s).
  assert (Hmag : is_grid h w magnitude) by (apply is_grid_map; auto).
  destruct (notch_mask_entries magnitude threshold_percentile notch_radius
              protect_center Hr Hq)
    as (t & mask & Et & Em & Hm & Hnd & Hent).
  rewrite (is_grid_height h w _ Hmag), (is_grid_width h w _ Hmag Hh)
    in Hm, Hent.
  destruct (returned_spectrum h w channel s mask Hc Hh Hw Es Hs Hm)
    as (out & returned & Eo & Ho & Er & Hret & Hbin).
  exists s, t, mask, out, returned.
  split; [exact Es|]. split; [exact Et|]. split; [exact Em|].
  split; [exact Hm|].
  split; [unfold fft_filter_channel; rewrite Es; cbn [bind];
          fold magnitude; rewrite Em; exact Eo|].
  split; [exact Ho|]. split; [exact Er|].
  fold magnitude. cbv zeta.
  set (peaks := where_true (peaks_of magnitude t protect_center)) in *.
  split; [exact Hnd|].
  intros y x Hy Hx.
  destruct (Hent y x Hy Hx) as (Hprod & Hfar & Hpeak).
  assert (Hzero : forall y' x', In (y', x') peaks ->
            get 0%R mask y' x' = 0%R).
  { intros y' x' Hin.
    assert (Hb : (y' < h)%nat /\ (x' < w)%nat).
    { apply (in_peaks h w) in Hin as (H1 & H2 & _); auto. }
    destruct Hb as [Hy' Hx'].
    destruct (Hent y' x' Hy' Hx') as (_ & _ & Hp). apply Hp; auto. }
  assert (Hone : forall y' x', (y' < h)%nat -> (x' < w)%nat ->
            far_from_peaks notch_radius peaks y' x' ->
            get 0%R mask y' x' = 1%R).
  { intros y' x' Hy' Hx' Hf.
    destruct (Hent y' x' Hy' Hx') as (_ & Hf' & _). apply Hf'; auto. }
  split; [exact Hprod|].
  split; [intros Hf; destruct (Hfar Hf) as [H1 H2]; split; auto|].
  split; [intros Hin; destruct (Hpeak Hin) as [H1 H2]; split; auto|].
  split; [apply Hbin; auto|].
  split.
  - intros Hin. rewrite Hbin by auto.
    rewrite (Hzero y x Hin).
    rewrite (Hzero _ _ (peaks_opposite h w channel s t protect_center y x
                          Hc Hh Hw Es Hs Hin)).
    replace ((0 + 0) / 2)%R with 0%R by field. apply Cmul_RtoC_zero.
  - intros Hf Hf'. rewrite Hbin by auto.
    rewrite (Hone y x Hy Hx Hf).
    rewrite (Hone _ _ (opposite_bin_lt h y Hh) (opposite_bin_lt w x Hw) Hf').
    replace ((1 + 1) / 2)%R with 1%R by field. apply Cmul_RtoC_one.
Qed.

(** *** A 1 by 4 channel, transformed by hand *)

Lemma root_four : root 4 = (0, -1)%R.
Proof.
  unfold root.
  replace (2 * PI / INR 4)%R with (PI / 2)%R by (simpl; field).
  rewrite cos_PI2, sin_PI2. reflexivity.
Qed.

Lemma iroot_four : iroot 4 = (0, 1)%R.
Proof.
  unfold iroot.
  replace (2 * PI / INR 4)%R with (PI / 2)%R by (simpl; field).
  rewrite cos_PI2, sin_PI2. reflexivity.
Qed.

Lemma Cmul_minus_i (x y : R) : Cmul (0, -1)%R (x, y) = (y, (- x)%R).
Proof. apply C_eq; unfold Cmul; cbn [fst snd]; ring. Qed.

Lemma Cmul_plus_i (x y : R) : Cmul (0, 1)%R (x, y) = ((- y)%R, x).
Proof. apply C_eq; unfold Cmul; cbn [fst snd]; ring. Qed.

Lemma Cmul_one_l (z : C) : Cmul C1 z = z.
Proof. apply C_eq; unfold Cmul, C1; cbn [fst snd]; ring. Qed.

Lemma Cmul_one_r (z : C) : Cmul z C1 = z.
Proof. apply C_eq; unfold Cmul, C1; cbn [fst snd]; ring. Qed.

Lemma Cmul_RtoC_pair (a x y : R) : Cmul (RtoC a) (x, y) = ((a * x)%R, (a * y)%R).
Proof. apply C_eq; unfold Cmul, RtoC; cbn [fst snd]; ring. Qed.

Lemma Cmul_pair_l (f : C) (x y : R) :
  Cmul f (x, y) = ((fst f * x - snd f * y)%R, (fst f * y + snd f * x)%R).
Proof. reflexivity. Qed.

Lemma grid_of_four {A} (a b c d a' b' c' d' : A) :
  a = a' -> b = b' -> c = c' -> d = d' ->
  [[a; b; c; d]] = [[a'; b'; c'; d']].
Proof. intros; subst; reflexivity. Qed.

Lemma row_of_four {A} (a b c d a' b' c' d' : A) :
  a = a' -> b = b' -> c = c' -> d = d' ->
  Ok [[a; b; c; d]] = Ok [[a'; b'; c'; d']].
Proof. intros; subst; reflexivity. Qed.

Lemma forward_1x4 (a b c d : R) :
  forward [[a; b; c; d]]
  = Ok [[(a - b + c - d, 0); (a - c, b - d);
         (a + b + c + d, 0); (a - c, d - b)]]%R.
Proof.
  unfold forward, fft2.
  cbn [height width length hd map Nat.eqb orb bind seq].
  rewrite root_four.
  cbn [Csum Nat.mul Nat.add Cpow get nth].
  unfold fftshift, fftshift1, roll.
  cbn [map length Nat.div Nat.divmod fst Nat.sub skipn firstn app].
  rewrite ?Cmul_one_r. repeat rewrite Cmul_minus_i.
  rewrite ?Cmul_one_l, ?Cmul_one_r. repeat rewrite Cmul_RtoC_pair.
  apply row_of_four; apply C_eq; unfold RtoC, Cadd, C0; cbn [fst snd]; ring.
Qed.

Lemma inverse_1x4 (f0 f1 f2 f3 : C) :
  inverse [[f0; f1; f2; f3]]
  = Ok [[(fst f0 + fst f1 + fst f2 + fst f3) / 4;
         (fst f2 - snd f3 - fst f0 + snd f1) / 4;
         (fst f2 - fst f3 + fst f0 - fst f1) / 4;
         (fst f2 + snd f3 - fst f0 - snd f1) / 4]]%R.
Proof.
  unfold inverse, ifftshift, ifftshift1, roll.
  cbn [map length Nat.div Nat.divmod fst Nat.sub skipn firstn app].
  unfold ifft2.
  cbn [height width length hd map Nat.eqb orb bind seq].
  rewrite iroot_four.
  cbn [Csum Nat.mul Nat.add Cpow get nth].
  replace (INR 4) with 4%R by (simpl; ring).
  rewrite ?Cmul_one_r. repeat rewrite Cmul_plus_i.
  rewrite ?Cmul_one_l, ?Cmul_one_r. repeat rewrite Cmul_pair_l.
  apply row_of_four; unfold Cre, Cdiv, Cinv, RtoC, Cadd, Cmul, C0;
                     cbn [fst snd]; field.
Qed.

Lemma grid_1x4 {A} (d : A) (g : grid A) :
  is_grid 1 4 g ->
  g = [[get d g 0 0; get d g 0 1; get d g 0 2; get d g 0 3]].
Proof.
  intros [Hlen Hrows].
  destruct g as [|r [|r' g]]; try discriminate.
  inversion Hrows as [|? ? Hr _]; subst.
  destruct r as [|a [|b [|c [|e [|f r]]]]]; try discriminate.
  reflexivity.
Qed.

Lemma notch_example_spectrum :
  forward [[2; -1; 1; -1]]%R = Ok [[(5, 0); (1, 0); (1, 0); (1, 0)]]%R.
Proof.
  rewrite forward_1x4.
  apply row_of_four; apply C_eq; cbn [fst snd]; lra.
Qed.

Lemma notch_example_magnitude :
  map (map Cabs) [[(5, 0); (1, 0); (1, 0); (1, 0)]]%R = [[5; 1; 1; 1]]%R.
Proof.
  cbn [map]. rewrite !Cabs_real, !Rabs_pos_eq by lra. reflexivity.
Qed.

Lemma notch_example_threshold :
  threshold_of [[5; 1; 1; 1]]%R 70%R 0 = Ok (7 / 5)%R.
Proof.
  unfold threshold_of, magnitude_for_threshold.
  replace (center_disc (height [[5; 1; 1; 1]]%R) (width [[5; 1; 1; 1]]%R) 0)
    with [[false; false; true; false]] by reflexivity.
  cbn [set_where zip_with concat app n0 Num_R].
  unfold percentile.
  real_compare. cbn [orb sort fold_right].
  real_compare.
  cbn [length nsub nmul ndiv nadd nfloor nofZ Num_R].
  change (Z.of_nat 4 - 1)%Z with 3%Z.
  rewrite (Int_part_val (70 / 100 * 3) 2) by lra.
  change (Z.to_nat 2) with 2%nat.
  change (Z.to_nat (Z.min (2 + 1) 3)) with 3%nat.
  cbn [nth].
  f_equal. field.
Qed.

Lemma notch_example_peaks :
  where_true (peaks_of [[5; 1; 1; 1]]%R (7 / 5)%R 0) = [(0, 0)%nat].
Proof.
  unfold peaks_of.
  replace (center_disc (height [[5; 1; 1; 1]]%R) (width [[5; 1; 1; 1]]%R) 0)
    with [[false; false; true; false]] by reflexivity.
  cbn [map]. real_compare. reflexivity.
Qed.

Lemma notch_example_mask :
  peaks_mask [[5; 1; 1; 1]]%R 70%R 2 0 = Ok [[0; 1 / 4; 1; 1]]%R.
Proof.
  unfold peaks_mask. rewrite notch_example_threshold; cbn [bind].
  rewrite notch_example_peaks, notch_mask_ok.
  change (height [[5; 1; 1; 1]]%R) with 1%nat.
  change (width [[5; 1; 1; 1]]%R) with 4%nat.
  f_equal.
  set (mask := fold_left (notch_at_pure 1 4 2) [(0, 0)%nat] (ones 1 4)).
  assert (Hm : is_grid 1 4 mask)
    by (apply is_grid_notch_fold, is_grid_ones).
  rewrite (grid_1x4 0%R mask Hm). unfold mask.
  rewrite !(get_notch_fold 0%R 1 4) by (try apply is_grid_ones; lia).
  rewrite !get_ones by lia.
  cbn [fold_left fst snd].
  replace (near 2 0 0 0 0) with true by reflexivity.
  replace (near 2 0 0 0 1) with true by reflexivity.
  replace (near 2 0 0 0 2) with true by reflexivity.
  replace (near 2 0 0 0 3) with false by reflexivity.
  unfold notch_weight, dist2.
  replace (0 <? (Z.of_nat 0 - Z.of_nat 0) ^ 2 + (Z.of_nat 0 - Z.of_nat 0) ^ 2)%Z
    with false by reflexivity.
  replace (0 <? (Z.of_nat 0 - Z.of_nat 0) ^ 2 + (Z.of_nat 1 - Z.of_nat 0) ^ 2)%Z
    with true by reflexivity.
  replace (0 <? (Z.of_nat 0 - Z.of_nat 0) ^ 2 + (Z.of_nat 2 - Z.of_nat 0) ^ 2)%Z
    with true by reflexivity.
  cbn [nmul ndiv nofZ n0 n1 Num_R].
  change ((Z.of_nat 0 - Z.of_nat 0) ^ 2 + (Z.of_nat 1 - Z.of_nat 0) ^ 2)%Z
    with 1%Z.
  change ((Z.of_nat 0 - Z.of_nat 0) ^ 2 + (Z.of_nat 2 - Z.of_nat 0) ^ 2)%Z
    with 4%Z.
  change (2 * 2)%Z with 4%Z.
  apply grid_of_four; field.
Qed.

Lemma notch_example_filter :
  fft_filter_channel [[2; -1; 1; -1]]%R 70 2 0
  = Ok [[9 / 16; 1 / 4; - 1 / 16; 1 / 4]]%R.
Proof.
  unfold fft_filter_channel.
  rewrite notch_example_spectrum; cbn [bind].
  rewrite notch_example_magnitude, notch_example_mask; cbn [bind].
  unfold apply_mask. cbn [zip_with].
  rewrite inverse_1x4.
  unfold Cmul, RtoC. cbn [fst snd].
  apply row_of_four; field.
Qed.

Lemma notch_example_returned :
  forward [[9 / 16; 1 / 4; - 1 / 16; 1 / 4]]%R
  = Ok [[(0, 0); (5 / 8, 0); (1, 0); (5 / 8, 0)]]%R.
Proof.
  rewrite forward_1x4.
  apply row_of_four; apply C_eq; cbn [fst snd]; lra.
Qed.

Lemma notch_filter_bins_witness :
  exists (out : grid R) (returned : grid C),
    fft_filter_channel [[2; -1; 1; -1]]%R 70 1 0 = Ok out
    /\ forward out = Ok returned
    /\ get C0 returned 0 0 = C0
    /\ get C0 returned 0 2 = RtoC 1.
Proof.
  destruct (notch_filter_bins 1 4 [[2; -1; 1; -1]]%R 70 1 0)
    as (s & t & mask & out & returned & Es & Et & Em & Hm & Eo & Ho & Er
        & Hb).
  - split; [reflexivity | repeat constructor].
  - lia.
  - lia.
  - lia.
  - lra.
  - cbv zeta in Hb. destruct Hb as [_ Hb].
    rewrite notch_example_spectrum in Es. inversion Es; subst s.
    rewrite notch_example_magnitude in Et, Hb.
    rewrite notch_example_threshold in Et. inversion Et; subst t.
    rewrite notch_example_peaks in Hb.
    exists out, returned.
    split; [exact Eo|]. split; [exact Er|]. split.
    + destruct (Hb 0%nat 0%nat) as (_ & _ & _ & _ & Hp & _); try lia.
      apply Hp. left; reflexivity.
    + destruct (Hb 0%nat 2%nat) as (_ & _ & _ & _ & _ & Hf); try lia.
      rewrite Hf; [reflexivity | |];
        intros p [<-|[]]; rewrite <- near_within; reflexivity.
Defined.

(** C6 (counterexample): the channel [[2, -1, 1, -1]] with
    [threshold_percentile = 70], [notch_radius = 2], [protect_center = 0].
    Its shifted spectrum is [[5, 1, 1, 1]]; the copy with the centre bin
    (0, 2) zeroed is [[5, 1, 0, 1]], whose 70th percentile is 1.4, so bin
    (0, 0) is the only peak, and the mask is [[0, 1/4, 1, 1]].  Bin (0, 3)
    is at distance 3 from the peak, farther than the radius: its mask value
    is 1 and the multiplication leaves it at 1.  The filter returns
    [[9/16, 1/4, -1/16, 1/4]], whose shifted spectrum is
    [[0, 5/8, 1, 5/8]]: in the returned image bin (0, 3) is 5/8, not 1,
    because the opposite bin (0, 1) has mask value 1/4 and taking the real
    part averages the two. *)
Lemma notch_far_bin_changed :
  exists (spectrum : grid C) (threshold : R) (mask out : grid R)
         (returned : grid C),
    forward [[2; -1; 1; -1]]%R = Ok spectrum
    /\ map (map Cabs) spectrum = [[5; 1; 1; 1]]%R
    /\ threshold_of (map (map Cabs) spectrum) 70%R 0 = Ok threshold
    /\ where_true (peaks_of (map (map Cabs) spectrum) threshold 0)
       = [(0, 0)%nat]
    /\ peaks_mask (map (map Cabs) spectrum) 70%R 2 0 = Ok mask
    /\ mask = [[0; 1 / 4; 1; 1]]%R
    /\ far_from_peaks 2 [(0, 0)%nat] 0 3
    /\ fft_filter_channel [[2; -1; 1; -1]]%R 70 2 0 = Ok out
    /\ out = [[9 / 16; 1 / 4; - 1 / 16; 1 / 4]]%R
    /\ forward out = Ok returned
    /\ get C0 spectrum 0 3 = RtoC 1
    /\ get C0 returned 0 3 = RtoC (5 / 8)
    /\ get C0 returned 0 3 <> get C0 spectrum 0 3.
Proof.
  exists [[(5, 0); (1, 0); (1, 0); (1, 0)]]%R, (7 / 5)%R,
         [[0; 1 / 4; 1; 1]]%R, [[9 / 16; 1 / 4; - 1 / 16; 1 / 4]]%R,
         [[(0, 0); (5 / 8, 0); (1, 0); (5 / 8, 0)]]%R.
  rewrite notch_example_magnitude.
  split; [exact notch_example_spectrum|].
  split; [reflexivity|].
  split; [exact notch_example_threshold|].
  split; [exact notch_example_peaks|].
  split; [exact notch_example_mask|].
  split; [reflexivity|].
  split.
  { intros p [<-|[]]. rewrite <- near_within. reflexivity. }
  split; [exact notch_example_filter|].
  split; [reflexivity|].
  split; [exact notch_example_returned|].
  split; [reflexivity|].
  split; [reflexivity|].
  unfold get; cbn [nth]. unfold RtoC. intros E.
  apply (f_equal fst) in E. cbn [fst] in E. lra.
Qed.
